(** * Linear combinations of quadratic integers (LCoQI)

    A shallow embedding of [linear_combinations_of_quadratic_integers.py]
    and the properties of its arithmetic.

    - A Python [frozenset] of radical factors is a [gset factor].
    - A Python [dict] / [frozendict] is an association list in insertion
      order with pairwise distinct keys; its [==] is order independent.
    - Exceptions are the [Raise] results of the [outcome] type.
    - Recursion that is not structural in the source ([__mul__] calling
      itself through [*=], [inverse] calling itself through [/]) takes a
      fuel argument; [NoFuel] is never a Python result.
    - The algebraic laws are proved through the real number a value stands
      for ([eval]) and the linear independence over the rationals of the
      square roots of products of distinct primes. *)

From Stdlib Require Import ZArith Znumtheory QArith Qcanon Lia String Ascii.
From Stdlib Require Import Reals Qreals Lra.
From stdpp Require Import base decidable countable gmap sets list strings pretty.

Local Open Scope Z_scope.

(** ** Results of a call *)

Inductive exn : Type :=
| ValueError
| TypeError
| ZeroDivisionError.

Inductive outcome (A : Type) : Type :=
| Ok (a : A)
| Raise (e : exn)
| NoFuel.

Arguments Ok {A} a.
Arguments Raise {A} e.
Arguments NoFuel {A}.

#[global] Instance outcome_bind : MBind outcome := fun A B k m =>
  match m with
  | Ok a => k a
  | Raise e => Raise e
  | NoFuel => NoFuel
  end.

(** [for x in l: acc = f(acc, x)] where [f] can raise. *)
Fixpoint foldM {A B : Type} (f : B -> A -> outcome B) (l : list A) (acc : B)
  : outcome B :=
  match l with
  | [] => Ok acc
  | x :: l' => acc' ← f acc x; foldM f l' acc'
  end.

Definition returns {A : Type} (m : outcome A) : Prop := exists a, m = Ok a.

(** ** Radical factors and basis keys *)

(** An element of a basis key: a Python [int] [p] (the factor √p) or the
    tuple [("+√", x)] (the factor √(x+√x)). *)
Inductive factor : Type :=
| Prime (p : Z)
| Nested (x : Z).

#[global] Instance factor_eq_dec : EqDecision factor.
Proof. solve_decision. Defined.

#[global] Instance factor_countable : Countable factor.
Proof.
  refine (inj_countable'
    (fun f => match f with Prime p => inl p | Nested x => inr x end)
    (fun s => match s with inl p => Prime p | inr x => Nested x end) _).
  by intros [].
Defined.

Abbreviation key := (gset factor).

(** Python's symmetric difference of two frozensets. *)
Definition symmetric_difference (a b : key) : key := (a ∖ b) ∪ (b ∖ a).

(** A raw radical specification, as the constructor receives it. *)
Inductive raw_root : Type :=
| RInt (n : Z)
| RNested (x : Z)
| RSet (s : key).

#[global] Instance raw_root_eq_dec : EqDecision raw_root.
Proof. solve_decision. Defined.

(** ** [normalize_root] *)

(** One round of the trial division loop: the state is the running
    remainder [x] and the factors appended so far. *)
Definition trial_step (st : Z * list Z) (p : Z) : outcome (Z * list Z) :=
  let '(x, factors) := st in
  if decide (x mod p = 0) then
    let x' := x / p in
    if decide (x' mod p = 0) then Raise ValueError
    else Ok (x', factors ++ [p])
  else Ok (x, factors).

(** [range(2, math.isqrt(n) + 1)] *)
Definition trial_range (n : Z) : list Z := seqZ 2 (Z.sqrt n - 1).

Definition normalize_int (n : Z) : outcome (list Z) :=
  if decide (n < 0) then Raise ValueError (* math.isqrt of a negative *)
  else
    '(x, factors) ← foldM trial_step (trial_range n) (n, []);
    Ok (if decide (x = 1) then factors else factors ++ [x]).

Definition normalize_root (root : raw_root) : outcome key :=
  match root with
  | RSet s => Ok s
  | RNested x => Ok {[ Nested x ]}
  | RInt n => factors ← normalize_int n; Ok (list_to_set (Prime <$> factors))
  end.

(** ** Python dictionaries

    Insertion ordered, keys pairwise distinct: assigning to a key that is
    present replaces its value in place, a new key goes to the end. *)

Section dict.
Context {K V : Type} `{EqDecision K}.

Fixpoint dict_get (d : list (K * V)) (k : K) : option V :=
  match d with
  | [] => None
  | (k', v) :: d' => if decide (k' = k) then Some v else dict_get d' k
  end.

Fixpoint dict_set (d : list (K * V)) (k : K) (v : V) : list (K * V) :=
  match d with
  | [] => [(k, v)]
  | (k', v') :: d' =>
      if decide (k' = k) then (k', v) :: d' else (k', v') :: dict_set d' k v
  end.

(** [dict(items)]: later items win, the first position is kept. *)
Definition dict_of_items (items : list (K * V)) : list (K * V) :=
  foldl (fun d kv => dict_set d kv.1 kv.2) [] items.

(** [d1 == d2] on dictionaries, given the equality test of the values. *)
Definition dict_eqb (veqb : V -> V -> bool) (d1 d2 : list (K * V)) : bool :=
  bool_decide (length d1 = length d2)
  && forallb (fun kv => match dict_get d2 kv.1 with
                        | Some v => veqb kv.2 v
                        | None => false
                        end) d1.
End dict.

(** ** The coefficient type *)

(** Modelled from the spec: the class [Rational] of the module [mynumbers]
    is not part of the sources; the spec asks for an exact rational type with
    the field operations and comparison with 0 and 1. It is taken to be the
    canonical rationals [Qc]. *)
Abbreviation Rational := Qc.

(** Modelled from the spec: [Rational(n)] for a Python [int]. *)
Definition Rational_of_int (n : Z) : Rational := Q2Qc (inject_Z n).

(** Modelled from the spec: [a / b] on [Rational]; dividing by zero raises
    [ZeroDivisionError]. *)
Definition Rational_truediv (a b : Rational) : outcome Rational :=
  if decide (b = 0%Qc) then Raise ZeroDivisionError else Ok (a / b)%Qc.

(** Modelled from the spec: the truth value of a [Rational], false for 0
    only. *)
Definition Rational_bool (c : Rational) : bool := bool_decide (c <> 0%Qc).

(** Modelled from the spec: [a == b] on [Rational]. *)
Definition Rational_eqb (a b : Rational) : bool := bool_decide (a = b).

(** ** The class [LCoQI]

    A value is immutable and every method reads only [self.coeffs], so a
    value is modelled by its coefficient dictionary. *)

Abbreviation lcoqi := (list (key * Rational)).

(** [frozendict.__eq__] on two coefficient dictionaries. *)
Definition coeffs_eqb (a b : lcoqi) : bool := dict_eqb Rational_eqb a b.

Fixpoint mapM {A B : Type} (f : A -> outcome B) (l : list A) : outcome (list B) :=
  match l with
  | [] => Ok []
  | x :: l' => y ← f x; ys ← mapM f l'; Ok (y :: ys)
  end.

(** [LCoQI.__init__]: every key goes through [normalize_root]; the first
    failure aborts the construction. *)
Definition LCoQI_init (coeffs : list (raw_root * Rational)) : outcome lcoqi :=
  items ← mapM (fun rc => k ← normalize_root rc.1; Ok (k, rc.2)) coeffs;
  Ok (dict_of_items items).

(** The constructor on keys that are frozensets already: [normalize_root]
    returns them as they are, so nothing can fail. *)
Definition LCoQI_of_keys (coeffs : list (key * Rational)) : lcoqi :=
  dict_of_items coeffs.

(** The empty mapping [LCoQI({})] and [LCoQI({1: 1})]. *)
Definition zero : lcoqi := [].
Definition unit : lcoqi := [(∅, 1%Qc)].

(** [__add__] and [__sub__] *)
Definition merge (op : Rational -> Rational -> Rational) (self other : lcoqi)
  : lcoqi :=
  let result :=
    foldl (fun result rc =>
             dict_set result rc.1 (op (default 0%Qc (dict_get result rc.1)) rc.2))
          self other in
  LCoQI_of_keys (filter (fun rc => Rational_bool rc.2 = true) result).

Definition LCoQI_add : lcoqi -> lcoqi -> lcoqi := merge Qcplus.
Definition LCoQI_sub : lcoqi -> lcoqi -> lcoqi := merge Qcminus.

(** The dictionary literal [{1: x, x: 1}] of [__mul__]: for [x = 1] the two
    keys are the same key. *)
Definition square_literal (x : Z) : list (raw_root * Rational) :=
  dict_set (dict_set [] (RInt 1) (Rational_of_int x)) (RInt x) 1%Qc.

(** One round of the loop over [root1.intersection(root2)]. The iteration
    order of a frozenset is not specified by Python; the model iterates in
    the order of [elements]. *)
Definition common_step (st : Rational * list lcoqi) (r : factor)
  : outcome (Rational * list lcoqi) :=
  let '(coef, additional_factors) := st in
  match r with
  | Prime natural => Ok ((coef * Rational_of_int natural)%Qc, additional_factors)
  | Nested x =>
      f ← LCoQI_init (square_literal x); Ok (coef, additional_factors ++ [f])
  end.

(** [__mul__], the branch of two single-term operands; [mul] is the
    recursive call behind [result *= factor]. *)
Definition mul_single (mul : lcoqi -> lcoqi -> outcome lcoqi)
    (t1 t2 : key * Rational) : outcome lcoqi :=
  let '(root1, coef1) := t1 in
  let '(root2, coef2) := t2 in
  '(coef, additional_factors) ←
    foldM common_step (elements (root1 ∩ root2)) ((coef1 * coef2)%Qc, []);
  foldM (fun result f => mul result f) additional_factors
        (LCoQI_of_keys [(symmetric_difference root1 root2, coef)]).

(** [__mul__], the branch [not len(self.coeffs) == len(other.coeffs) == 1];
    [mul] is the recursive call on the two single-term values. *)
Definition mul_general (mul : lcoqi -> lcoqi -> outcome lcoqi)
    (self other : lcoqi) : outcome lcoqi :=
  foldM (fun result t1 =>
           foldM (fun result t2 =>
                    p ← mul (LCoQI_of_keys [t1]) (LCoQI_of_keys [t2]);
                    Ok (LCoQI_add result p))
                 other result)
        self zero.

(** [__mul__] *)
Fixpoint mul_fuel (fuel : nat) (self other : lcoqi) : outcome lcoqi :=
  match fuel with
  | O => NoFuel
  | S fuel' =>
      match self, other with
      | [t1], [t2] => mul_single (mul_fuel fuel') t1 t2
      | _, _ => mul_general (mul_fuel fuel') self other
      end
  end.

(** The recursion of [__mul__] is at most four calls deep. *)
Definition LCoQI_mul (self other : lcoqi) : outcome lcoqi := mul_fuel 4 self other.

(** [reduce(lambda x, y: x | y, keys)]: without an initial value, an empty
    iterable raises [TypeError]. *)
Definition reduce_union (keys : list key) : outcome key :=
  match keys with
  | [] => Raise TypeError
  | k :: keys' => Ok (foldl (fun x y => x ∪ y) k keys')
  end.

(** The dictionary comprehension of [inverse]: the coefficients of the
    terms that contain [root] change sign. *)
Definition complement_of (root : factor) (denominator : lcoqi) : lcoqi :=
  LCoQI_of_keys
    ((fun rc => (rc.1, if decide (root ∈ rc.1) then (- rc.2)%Qc else rc.2))
       <$> denominator).

(** One round of the loop of [inverse]; the state is
    [(numerator, denominator)]. *)
Definition conjugate_step (st : lcoqi * lcoqi) (root : factor)
  : outcome (lcoqi * lcoqi) :=
  let '(numerator, denominator) := st in
  let complement := complement_of root denominator in
  denominator' ← LCoQI_mul denominator complement;
  numerator' ← LCoQI_mul numerator complement;
  Ok (numerator', denominator').

(** [len(self.coeffs) == 1 and frozenset({}) in self.coeffs], with the
    coefficient [self.coeffs[frozenset({})]]. *)
Definition rational_coefficient (self : lcoqi) : option Rational :=
  match self with
  | [(root, coef)] => if decide (root = ∅) then Some coef else None
  | _ => None
  end.

(** [inverse]; the last line [numerator / denominator] is
    [numerator * denominator.inverse()]. *)
Fixpoint inverse (fuel : nat) (self : lcoqi) : outcome lcoqi :=
  match fuel with
  | O => NoFuel
  | S fuel' =>
      match rational_coefficient self with
      | Some coef =>
          q ← Rational_truediv 1%Qc coef; LCoQI_init [(RInt 1, q)]
      | None =>
          roots ← reduce_union (fst <$> self);
          '(numerator, denominator) ←
            foldM conjugate_step (elements roots) (unit, self);
          inv ← inverse fuel' denominator;
          LCoQI_mul numerator inv
      end
  end.

(** [__truediv__] *)
Definition LCoQI_truediv (fuel : nat) (self other : lcoqi) : outcome lcoqi :=
  inv ← inverse fuel other; LCoQI_mul self inv.

(** The [while n:] loop of [__pow__], by the binary digits of [n]. *)
Fixpoint pow_loop (n : positive) (result factor : lcoqi) : outcome lcoqi :=
  match n with
  | xH =>
      result' ← LCoQI_mul result factor;
      _ ← LCoQI_mul factor factor;
      Ok result'
  | xO n' =>
      factor' ← LCoQI_mul factor factor;
      pow_loop n' result factor'
  | xI n' =>
      result' ← LCoQI_mul result factor;
      factor' ← LCoQI_mul factor factor;
      pow_loop n' result' factor'
  end.

(** [__pow__] *)
Definition LCoQI_pow (fuel : nat) (self : lcoqi) (power : Z) : outcome lcoqi :=
  result ← match Z.abs power with
            | Zpos n => pow_loop n unit self
            | _ => Ok unit
            end;
  if decide (0 <= power) then Ok result else inverse fuel result.

(** ** Rendering *)

Section rendering.
(** [str] of the external [Rational]. *)
Variable Rational_str : Rational -> string.

(** One round of the loop of [root_to_str]; the state is
    [(result, number)]. *)
Definition root_to_str_step (st : list string * Z) (root : factor)
  : list string * Z :=
  let '(result, number) := st in
  match root with
  | Prime x => (result, number * x)
  | Nested x =>
      (result ++ ["√(" +:+ pretty x +:+ "+√" +:+ pretty x +:+ ")"], number)
  end.

Definition root_to_str (roots : key) : string :=
  let '(result, number) := foldl root_to_str_step ([], 1) (elements roots) in
  let result :=
    if decide (number = 1) then result else result ++ ["√" +:+ pretty number] in
  String.concat "" result.

(** [str(coef) + root if coef != 1 else root or "1"] *)
Definition term_to_str (rc : key * Rational) : string :=
  let root := root_to_str rc.1 in
  if decide (rc.2 <> 1%Qc) then Rational_str rc.2 +:+ root
  else if decide (root = "") then "1" else root.

(** [__str__] *)
Definition LCoQI_str (self : lcoqi) : string :=
  let terms := term_to_str <$> self in
  match terms with
  | [] => "0"
  | _ => String.concat " + " terms
  end.
(** [to_tex] of the external [Rational]. *)
Variable Rational_to_tex : Rational -> string.

(** One round of the loop of [root_to_latex]. *)
Definition root_to_latex_step (st : list string * Z) (root : factor)
  : list string * Z :=
  let '(result, number) := st in
  match root with
  | Prime x => (result, number * x)
  | Nested x =>
      (result ++ ["\sqrt{" +:+ pretty x +:+ "+\sqrt{" +:+ pretty x +:+ "}}"],
       number)
  end.

Definition root_to_latex (roots : key) : string :=
  let '(result, number) := foldl root_to_latex_step ([], 1) (elements roots) in
  let result :=
    if decide (number = 1) then result
    else result ++ ["\sqrt{" +:+ pretty number +:+ "}"] in
  String.concat "" result.

(** [coef.to_tex() + root if coef != 1 else root or "1"] *)
Definition term_to_tex (rc : key * Rational) : string :=
  let root := root_to_latex rc.1 in
  if decide (rc.2 <> 1%Qc) then Rational_to_tex rc.2 +:+ root
  else if decide (root = "") then "1" else root.

(** [to_tex] *)
Definition to_tex (self : lcoqi) : string :=
  let terms := term_to_tex <$> self in
  match terms with
  | [] => "0"
  | _ => String.concat "+" terms
  end.

(** [_repr_latex_] *)
Definition repr_latex (self : lcoqi) : string := "$$ " +:+ to_tex self +:+ " $$".
End rendering.

(** ** Objects and [==]

    The class defines neither [__eq__] nor [__hash__]: [a == b] on two
    [LCoQI] objects is Python's default, the identity of the objects. An
    object is its identity together with its coefficients; the constructor
    takes the next free identity. *)

Record object : Type := { ident : nat; coeffs : lcoqi }.

Definition allocate (c : lcoqi) (next : nat) : object * nat :=
  ({| ident := next; coeffs := c |}, S next).

(** Objects built one after the other, starting at the identity [next]. *)
Fixpoint allocate_all (cs : list lcoqi) (next : nat) : list object :=
  match cs with
  | [] => []
  | c :: cs' => (allocate c next).1 :: allocate_all cs' (allocate c next).2
  end.

(** [a == b] *)
Definition object_eq (a b : object) : bool := bool_decide (ident a = ident b).

(** * Vocabulary of the properties *)

(** The integer under a radical factor. *)
Definition factor_arg (f : factor) : Z :=
  match f with Prime p => p | Nested x => x end.

(** Keys as the data model has them: [Prime p] and [Nested x] with positive
    arguments. *)
Definition positive_key (k : key) : Prop := forall f, f ∈ k -> 0 < factor_arg f.

(** No stored entry has a zero coefficient. *)
Definition canonical (v : lcoqi) : Prop := Forall (fun rc => rc.2 <> 0%Qc) v.

(** Every key of the value is a [positive_key]. *)
Definition positive_keys (v : lcoqi) : Prop :=
  Forall (fun rc => positive_key rc.1) v.

(** [canonical] and [positive_keys] together. *)
Definition well_formed (v : lcoqi) : Prop :=
  Forall (fun rc => rc.2 <> 0%Qc /\ positive_key rc.1) v.

(** A key without factor √(x+√x). *)
Definition nested_free (k : key) : Prop := forall x, Nested x ∉ k.

(** A call ends with a value or with [ValueError]. *)
Definition settles {A} (m : outcome A) : Prop :=
  returns m \/ m = Raise ValueError.

(** The product of a list of integers. *)
Definition list_prod (l : list Z) : Z := foldr Z.mul 1 l.

(** The reals [a + b √p] with [a], [b] in the span of the rest of the list;
    the rationals for the empty list. *)
Fixpoint span (S : list Z) (r : R) : Prop :=
  match S with
  | [] => exists q : Q, r = Q2R q
  | p :: S' => exists a b, span S' a /\ span S' b /\ r = (a + b * sqrt (IZR p))%R
  end.

(** [span S] is closed under inverses. *)
Definition span_field (S : list Z) : Prop :=
  forall r, span S r -> r <> 0%R -> span S (/ r)%R.

(** No square root of a product of new primes lies in [span S]. *)
Definition no_new_root (S : list Z) : Prop :=
  forall T : list Z,
    T <> [] -> NoDup T -> Forall Z.prime T -> (forall t, t ∈ T -> t ∉ S) ->
    ~ span S (sqrt (IZR (list_prod T))).

(** The real number a coefficient, a factor, a key and a value stand for. *)
Definition Rational_to_R (c : Rational) : R := Q2R (this c).

Definition factor_value (f : factor) : R :=
  match f with
  | Prime p => sqrt (IZR p)
  | Nested x => sqrt (IZR x + sqrt (IZR x))
  end.

Definition factors_value (l : list factor) : R :=
  foldr (fun f r => (factor_value f * r)%R) 1%R l.

Definition key_value (k : key) : R := factors_value (elements k).

Definition eval (v : lcoqi) : R :=
  foldr (fun rc r => (Rational_to_R rc.2 * key_value rc.1 + r)%R) 0%R v.

(** The number one term stands for. *)
Definition term_value (rc : key * Rational) : R :=
  (Rational_to_R rc.2 * key_value rc.1)%R.

(** A basis key whose factors are [Prime p] with [p] in [S]. *)
Definition key_over (S : list Z) (k : key) : Prop :=
  forall f, f ∈ k -> exists p, f = Prime p /\ p ∈ S.

(** A value in canonical form over the square roots of [S]: distinct keys,
    no zero coefficient, keys over [S]. *)
Definition value_over (S : list Z) (v : lcoqi) : Prop :=
  NoDup v.*1 /\ Forall (fun rc => rc.2 <> 0%Qc /\ key_over S rc.1) v.

(** The terms of a value with and without the factor √q, and the terms
    with that factor taken out of their keys. *)
Definition with_root (q : Z) (v : lcoqi) : lcoqi :=
  filter (fun rc => Prime q ∈ rc.1) v.

Definition without_root (q : Z) (v : lcoqi) : lcoqi :=
  filter (fun rc => Prime q ∉ rc.1) v.

Definition strip_root (q : Z) (v : lcoqi) : lcoqi :=
  (fun rc => (rc.1 ∖ {[Prime q]}, rc.2)) <$> v.

(** The coefficient of a key, 0 when the key is absent. *)
Definition coefficient (v : lcoqi) (k : key) : Rational :=
  default 0%Qc (dict_get v k).

(** A value in canonical form whose basis keys hold prime radicals only:
    distinct keys, no zero coefficient, every factor [Prime p] with [p]
    prime. *)
Definition prime_radicals (v : lcoqi) : Prop :=
  NoDup v.*1
  /\ Forall (fun rc => rc.2 <> 0%Qc
                       /\ forall f, f ∈ rc.1 -> exists p, f = Prime p /\ Z.prime p) v.

(** The arguments of the integer radicals and of the nested radicals among
    a list of factors, in the order of the list. *)
Definition prime_args (l : list factor) : list Z :=
  omap (fun f => match f with Prime p => Some p | Nested _ => None end) l.

Definition nested_args (l : list factor) : list Z :=
  omap (fun f => match f with Nested x => Some x | Prime _ => None end) l.

(** A key on which the arithmetic of [__mul__] is exact: no integer
    radicand is negative and no factor is the nested radical of 1. *)
Definition exact_key (k : key) : Prop :=
  forall f, f ∈ k -> match f with Prime p => 0 <= p | Nested x => x <> 1 end.

Definition exact_keys (v : lcoqi) : Prop := Forall (fun rc => exact_key rc.1) v.

(** The real number a raw radical specification stands for. *)
Definition raw_value (r : raw_root) : R :=
  match r with
  | RInt n => sqrt (IZR n)
  | RNested x => sqrt (IZR x + sqrt (IZR x))
  | RSet s => key_value s
  end.

(** * Properties *)

(** ** [normalize_root] *)

Section normalize_root_facts.

Lemma trial_step_outcome st p :
  (exists st', trial_step st p = Ok st') \/ trial_step st p = Raise ValueError.
Proof.
  destruct st as [x fs]; unfold trial_step.
  repeat case_decide; eauto.
Qed.

Lemma trial_loop_outcome l st :
  (exists st', foldM trial_step l st = Ok st')
  \/ foldM trial_step l st = Raise ValueError.
Proof.
  revert st; induction l as [|p l IH]; intros st; simpl; [eauto|].
  destruct (trial_step_outcome st p) as [[st' ->] | ->]; simpl; auto.
Qed.

Lemma normalize_root_outcome r :
  returns (normalize_root r) \/ normalize_root r = Raise ValueError.
Proof.
  unfold returns.
  destruct r as [n| |]; simpl; eauto.
  unfold normalize_int. case_decide; simpl; auto.
  destruct (trial_loop_outcome (trial_range n) (n, [])) as [[[x fs] ->] | ->];
    simpl; eauto.
Qed.

(** A prime [q] whose square divides the running remainder survives the
    rounds of the smaller trial divisors, and the round of [q] raises. *)
Lemma trial_loop_raises (q : Z) (l l2 : list Z) :
  Z.prime q ->
  Forall (fun p => 2 <= p < q) l ->
  forall x fs, (q * q | x) ->
  foldM trial_step (l ++ q :: l2) (x, fs) = Raise ValueError.
Proof.
  intros Hq. pose proof (Z.prime_ge_2 _ Hq) as Hq2.
  induction 1 as [|p l Hp _ IH]; intros x fs Hx; simpl.
  - destruct Hx as [k ->]. unfold trial_step.
    assert (k * (q * q) = k * q * q) as -> by lia.
    rewrite Z_mod_mult, Z_div_mult_full, Z_mod_mult by lia.
    by repeat case_decide.
  - unfold trial_step at 1. case_decide as Hdiv; simpl; [|by apply IH].
    case_decide; simpl; [done|]. apply IH.
    apply Z.mod_divide in Hdiv as [m Hm]; [|lia].
    rewrite Hm, Z_div_mult_full by lia.
    apply Z.gauss with p.
    + by replace (p * m) with x by lia.
    + apply Z.coprime_mul_l; apply Z.coprime_prime_small; (done || lia).
Qed.

Lemma trial_range_split (n q : Z) :
  2 <= q -> q * q <= n ->
  trial_range n = seqZ 2 (q - 2) ++ q :: seqZ (q + 1) (Z.sqrt n - q).
Proof.
  intros Hq Hn. unfold trial_range.
  assert (q <= Z.sqrt n) by (apply Z.sqrt_le_square; lia).
  replace (Z.sqrt n - 1) with ((q - 2) + (Z.sqrt n - q + 1)) by lia.
  rewrite seqZ_app by lia. f_equal.
  rewrite seqZ_cons by lia. f_equal; [lia|]. f_equal; lia.
Qed.

Lemma normalize_int_not_square_free (n p : Z) :
  0 < n -> Z.prime p -> (p * p | n) -> normalize_int n = Raise ValueError.
Proof.
  intros Hn Hp Hdiv. pose proof (Z.prime_ge_2 _ Hp).
  unfold normalize_int. case_decide; [lia|].
  rewrite (trial_range_split n p); [|lia|apply Z.divide_pos_le; [lia|done]].
  rewrite (trial_loop_raises p); try done.
  apply Forall_seqZ. lia.
Qed.

Lemma mapM_raises {A B} (f : A -> outcome B) (l : list A) (x : A) :
  (forall y, returns (f y) \/ f y = Raise ValueError) ->
  x ∈ l -> f x = Raise ValueError -> mapM f l = Raise ValueError.
Proof.
  intros Hf Hx Hfx. induction Hx as [x l | x y l _ IH]; simpl.
  - by rewrite Hfx.
  - destruct (Hf y) as [[b ->] | ->]; simpl; [|done]. by rewrite IH.
Qed.

End normalize_root_facts.

(** C6: a plain integer radical specification [n > 0] that some [p^2], [p]
    prime, divides is rejected by [normalize_root] with [ValueError] (the
    arithmetic domain error), and a constructor call that has it among its
    keys fails with that error. *)
Theorem non_square_free_rejected (n p : Z) :
  0 < n -> Z.prime p -> (p * p | n) ->
  normalize_root (RInt n) = Raise ValueError
  /\ forall (coeffs : list (raw_root * Rational)) (c : Rational),
       (RInt n, c) ∈ coeffs -> LCoQI_init coeffs = Raise ValueError.
Proof.
  intros Hn Hp Hdiv.
  assert (normalize_root (RInt n) = Raise ValueError) as Hroot
      by (simpl; by rewrite (normalize_int_not_square_free n p)).
  split; [done|]. intros coeffs c Hin. unfold LCoQI_init.
  rewrite (mapM_raises _ coeffs (RInt n, c)); try done.
  - intros [r c']; simpl.
    destruct (normalize_root_outcome r) as [[k ->] | ->]; simpl; [left|right]; eauto.
    by eexists.
  - cbn [fst snd]. by rewrite Hroot.
Qed.

Lemma non_square_free_rejected_witness :
  normalize_root (RInt 12) = Raise ValueError
  /\ LCoQI_init [(RInt 1, 1%Qc); (RInt 12, 1%Qc)] = Raise ValueError.
Proof.
  assert (0 < 12) as H0 by lia.
  assert (2 * 2 | 12) as Hd by (exists 3; reflexivity).
  destruct (non_square_free_rejected 12 2 H0 Z.prime_2 Hd) as [H1 H2].
  split; [exact H1|].
  apply (H2 _ 1%Qc). apply list_elem_of_In. simpl. auto.
Defined.

(** ** Single-term multiplication *)

Lemma trial_loop_no_divisor (x : Z) (fs l : list Z) :
  Forall (fun p => ~ (p | x)) l -> foldM trial_step l (x, fs) = Ok (x, fs).
Proof.
  induction 1 as [|p l Hp _ IH]; simpl; [done|].
  unfold trial_step at 1. case_decide as Hdiv; [|done].
  destruct (decide (p = 0)) as [->|]; [|by apply Z.mod_divide in Hdiv].
  rewrite Z.mod_0_r in Hdiv. subst x. destruct Hp. by exists 0.
Qed.

Lemma normalize_root_prime (x : Z) :
  Z.prime x -> normalize_root (RInt x) = Ok {[ Prime x ]}.
Proof.
  intros Hx. pose proof (Z.prime_ge_2 _ Hx). destruct Hx as [_ Hx].
  simpl. unfold normalize_int. case_decide; [lia|].
  rewrite trial_loop_no_divisor.
  - simpl. case_decide; [lia|]. simpl. f_equal. set_solver.
  - apply Forall_seqZ. intros p Hp. apply Hx.
    assert (Z.sqrt x < x) by (apply Z.sqrt_lt_lin; lia). lia.
Qed.

Lemma trial_loop_progress (l : list Z) :
  forall x fs y fs',
    foldM trial_step l (x, fs) = Ok (y, fs') ->
    (y = x /\ fs' = fs) \/ (length fs < length fs')%nat.
Proof.
  induction l as [|p l IH]; intros x fs y fs'; simpl.
  - intros [= <- <-]. by left.
  - unfold trial_step at 1. repeat case_decide; simpl; try done.
    + intros Hl. right. apply IH in Hl as [[_ ->] | Hlt];
        rewrite ?length_app in *; simpl in *; lia.
    + apply IH.
Qed.

Lemma normalize_int_nil (x : Z) : normalize_int x = Ok [] -> x = 1.
Proof.
  unfold normalize_int. case_decide; [done|].
  destruct (foldM trial_step (trial_range x) (x, [])) as [[y fs]| |] eqn:Hl;
    simpl; try done.
  apply trial_loop_progress in Hl. case_decide as Hy.
  - intros [= ->]. simpl in Hl. destruct Hl as [[-> _] | ?]; [done|lia].
  - intros [= Hfs]. by destruct fs.
Qed.

Lemma normalize_root_empty (x : Z) : normalize_root (RInt x) = Ok ∅ -> x = 1.
Proof.
  simpl. destruct (normalize_int x) as [fs| |] eqn:Hfs; simpl; try done.
  intros [= Hk]. apply normalize_int_nil. rewrite Hfs. f_equal.
  destruct fs as [|f fs]; [done|]. simpl in Hk. set_solver.
Qed.

(** The value [LCoQI({1: x, x: 1})] that [__mul__] defers for a factor
    [Nested x]. *)
Lemma square_literal_init (x : Z) (k : key) :
  x <> 1 -> normalize_root (RInt x) = Ok k ->
  LCoQI_init (square_literal x) = Ok [(∅, Rational_of_int x); (k, 1%Qc)].
Proof.
  intros Hx Hk. unfold square_literal, LCoQI_init. simpl dict_set.
  case_decide as Heq; [by injection Heq|].
  cbn [mapM fst snd]. rewrite Hk.
  change (normalize_root (RInt 1)) with (Ok (∅ : key)). simpl.
  unfold dict_of_items. simpl. case_decide as Hne; [|done].
  subst k. by apply normalize_root_empty in Hk.
Qed.

(** C4 (as stated, refuted): for [Nested 2] in both keys the deferred factor
    [LCoQI({1: 2, 2: 1})] has the coefficient 1, not 2, on the key
    [{Prime 2}]. *)
Lemma additional_factor_coefficient_counterexample :
  exists f : lcoqi,
    foldM common_step (elements ({[Nested 2]} ∩ {[Nested 2]} : key)) (1%Qc, [])
      = Ok (1%Qc, [f])
    /\ dict_get f {[Prime 2]} = Some 1%Qc
    /\ dict_get f {[Prime 2]} <> Some (Rational_of_int 2).
Proof.
  eexists. split; [vm_compute; reflexivity|]. split; [reflexivity|].
  intros [= H].
Qed.

(** C4 (amended): for a factor [Nested x] present in both keys, [x <> 1],
    the deferred additional factor is the value [LCoQI({1: x, x: 1})]: it has
    exactly two terms, coefficient [x] on the empty basis key and coefficient
    1 on the basis key [normalize_root(x)], which is not empty and which is
    [{Prime x}] when [x] is prime. *)
Theorem additional_factor_two_terms (x : Z) (k : key) (coef : Rational)
    (additional_factors : list lcoqi) :
  x <> 1 -> normalize_root (RInt x) = Ok k ->
  common_step (coef, additional_factors) (Nested x)
    = Ok (coef, additional_factors ++ [[(∅, Rational_of_int x); (k, 1%Qc)]])
  /\ k <> ∅
  /\ (Z.prime x -> k = {[ Prime x ]}).
Proof.
  intros Hx Hk. split; [|split].
  - unfold common_step. by rewrite (square_literal_init x k).
  - intros ->. by apply normalize_root_empty in Hk.
  - intros Hp. apply normalize_root_prime in Hp. congruence.
Qed.

Lemma additional_factor_two_terms_witness :
  common_step (1%Qc, []) (Nested 2)
    = Ok (1%Qc, [[(∅, Rational_of_int 2); ({[Prime 2]}, 1%Qc)]]).
Proof.
  assert (2 <> 1) as Hx by lia.
  exact (proj1 (additional_factor_two_terms 2 {[Prime 2]} 1%Qc [] Hx
                  (normalize_root_prime 2 Z.prime_2))).
Defined.

(** C5: for [v = LCoQI({("+√", 2): 1})] the product [v * v] has the
    coefficient mapping of [LCoQI({1: 2, 2: 1})], the value 2 + √2. *)
Theorem nested_radical_squaring :
  (v ← LCoQI_init [(RNested 2, 1%Qc)];
   w ← LCoQI_init [(RInt 1, Rational_of_int 2); (RInt 2, 1%Qc)];
   r ← LCoQI_mul v v;
   Ok (coeffs_eqb r w, r))
  = Ok (true, [(∅, Rational_of_int 2); ({[Prime 2]}, 1%Qc)]).
Proof. vm_compute. reflexivity. Qed.

(** ** Inversion of the zero value *)

(** C7 (as stated, refuted): [inverse] of the empty mapping does not raise a
    division-by-zero error. *)
Lemma inverse_zero_counterexample :
  inverse 1 zero = Raise TypeError /\ inverse 1 zero <> Raise ZeroDivisionError.
Proof. split; [reflexivity|discriminate]. Qed.

(** C7 (amended): inversion of, and division by, the zero value (the empty
    mapping) fails deterministically and at once, before any arithmetic, with
    the [TypeError] of [reduce] over an empty iterable; no division-by-zero
    error is raised. *)
Theorem inverse_zero_raises (fuel : nat) (a : lcoqi) :
  inverse (S fuel) zero = Raise TypeError
  /\ LCoQI_truediv (S fuel) a zero = Raise TypeError.
Proof. split; reflexivity. Qed.

(** ** Loops that can raise *)

Lemma foldM_invariant {A B} (I : B -> Prop) (f : B -> A -> outcome B)
    (l : list A) :
  (forall b x b', I b -> x ∈ l -> f b x = Ok b' -> I b') ->
  forall acc r, I acc -> foldM f l acc = Ok r -> I r.
Proof.
  induction l as [|x l IH]; intros Hf acc r Hacc; simpl.
  - by intros [= <-].
  - destruct (f acc x) as [b| |] eqn:Hfx; simpl; try done.
    apply IH; [|by eapply Hf; [| |exact Hfx]; [|left]].
    intros b0 y b' ? ?. apply Hf; [done|by right].
Qed.

(** Two loop bodies that agree wherever the first one does not run out of
    fuel give the same loop. *)
Lemma foldM_fuel {A B} (f g : B -> A -> outcome B) (l : list A) :
  (forall b x, f b x <> NoFuel -> g b x = f b x) ->
  forall acc, foldM f l acc <> NoFuel -> foldM g l acc = foldM f l acc.
Proof.
  intros Hfg. induction l as [|x l IH]; intros acc; simpl; [done|].
  intros Hne. rewrite Hfg; [|by intros Heq; rewrite Heq in Hne].
  destruct (f acc x); simpl in *; auto.
Qed.

Lemma foldM_no_fuel_needed {A B} (f : B -> A -> outcome B) (l : list A) :
  (forall b x, f b x <> NoFuel) -> forall acc, foldM f l acc <> NoFuel.
Proof.
  intros Hf. induction l as [|x l IH]; intros acc; simpl; [done|].
  specialize (Hf acc x). destruct (f acc x); simpl; auto.
Qed.

(** ** Fuel of [__mul__] *)

Lemma bind_fuel {A B} (m1 m2 : outcome A) (k : A -> outcome B) :
  (m1 <> NoFuel -> m2 = m1) -> (m1 ≫= k) <> NoFuel -> m2 ≫= k = m1 ≫= k.
Proof.
  intros H Hne. rewrite H; [done|]. intros ->. by apply Hne.
Qed.

Lemma mul_single_fuel (mul mul' : lcoqi -> lcoqi -> outcome lcoqi) t1 t2 :
  (forall a b, mul a b <> NoFuel -> mul' a b = mul a b) ->
  mul_single mul t1 t2 <> NoFuel -> mul_single mul' t1 t2 = mul_single mul t1 t2.
Proof.
  intros Hmul. destruct t1 as [root1 coef1], t2 as [root2 coef2]. simpl.
  destruct (foldM common_step _ _) as [[coef fs]| |]; simpl; try done.
  apply foldM_fuel. auto.
Qed.

Lemma mul_general_fuel (mul mul' : lcoqi -> lcoqi -> outcome lcoqi) self other :
  (forall a b, mul a b <> NoFuel -> mul' a b = mul a b) ->
  mul_general mul self other <> NoFuel ->
  mul_general mul' self other = mul_general mul self other.
Proof.
  intros Hmul. apply foldM_fuel. intros b t1. apply foldM_fuel.
  intros b' t2. apply bind_fuel. auto.
Qed.

Lemma mul_fuel_S (fuel : nat) :
  forall self other,
    mul_fuel fuel self other <> NoFuel ->
    mul_fuel (S fuel) self other = mul_fuel fuel self other.
Proof.
  induction fuel as [|fuel IH]; intros self other Hne; [done|].
  revert Hne. change (mul_fuel (S (S fuel)) self other) with
    (match self, other with
     | [t1], [t2] => mul_single (mul_fuel (S fuel)) t1 t2
     | _, _ => mul_general (mul_fuel (S fuel)) self other
     end).
  cbn [mul_fuel].
  destruct self as [|t1 [|t1' self]]; try by apply mul_general_fuel.
  destruct other as [|t2 [|t2' other]]; try by apply mul_general_fuel.
  by apply mul_single_fuel.
Qed.

(** ** Dictionaries *)

Section dict_facts.
Context {K V : Type} `{EqDecision K}.
Implicit Types (d : list (K * V)) (P : K * V -> Prop).

Lemma dict_set_Forall P d k v :
  Forall P d -> P (k, v) -> Forall P (dict_set d k v).
Proof.
  intros Hd Hkv. induction Hd as [|[k' v'] d Hx Hd IH]; simpl.
  - by constructor.
  - case_decide; subst; constructor; auto.
Qed.

Lemma dict_fold_Forall P items : forall d,
  Forall P d -> Forall P items ->
  Forall P (foldl (fun d kv => dict_set d kv.1 kv.2) d items).
Proof.
  induction items as [|[k v] items IH]; intros d Hd Hitems; simpl; [done|].
  inversion_clear Hitems. apply IH; [|done]. by apply dict_set_Forall.
Qed.

Lemma dict_of_items_Forall P items :
  Forall P items -> Forall P (dict_of_items items).
Proof. apply dict_fold_Forall. constructor. Qed.
End dict_facts.

(** ** Every call of [__mul__] ends within four nested calls *)

Lemma foldM_returns {A B} (f : B -> A -> outcome B) (l : list A) :
  (forall b x, x ∈ l -> returns (f b x)) -> forall acc, returns (foldM f l acc).
Proof.
  induction l as [|x l IH]; intros Hf acc; simpl; [by eexists|].
  destruct (Hf acc x) as [b ->]; [by left|]. simpl.
  apply IH. intros b' y ?. apply Hf. by right.
Qed.

Lemma foldM_settles {A B} (f : B -> A -> outcome B) (l : list A) :
  (forall b x, settles (f b x)) -> forall acc, settles (foldM f l acc).
Proof.
  intros Hf. induction l as [|x l IH]; intros acc; simpl; [left; by eexists|].
  destruct (Hf acc x) as [[b ->] | ->]; simpl; [apply IH|by right].
Qed.

Lemma normalize_root_int_nested_free (n : Z) (k : key) :
  normalize_root (RInt n) = Ok k -> nested_free k.
Proof.
  simpl. destruct (normalize_int n) as [fs| |]; simpl; try done.
  intros [= <-] x. rewrite elem_of_list_to_set, list_elem_of_fmap.
  by intros (p & ? & _).
Qed.

Lemma square_literal_cases (x : Z) :
  square_literal x = [(RInt 1, 1%Qc)] /\ x = 1
  \/ square_literal x = [(RInt 1, Rational_of_int x); (RInt x, 1%Qc)] /\ x <> 1.
Proof.
  unfold square_literal. simpl. case_decide as Heq.
  - left. by injection Heq as <-.
  - right. split; [done|]. by intros ->.
Qed.

Lemma square_literal_init_cases (x : Z) (f : lcoqi) :
  LCoQI_init (square_literal x) = Ok f ->
  f = unit /\ x = 1
  \/ exists k, normalize_root (RInt x) = Ok k /\ x <> 1
               /\ f = [(∅, Rational_of_int x); (k, 1%Qc)].
Proof.
  destruct (square_literal_cases x) as [[Hl ->] | [Hl Hx]].
  - rewrite Hl. vm_compute. intros [= <-]. by left.
  - intros Hf. right.
    destruct (normalize_root (RInt x)) as [k| |] eqn:Hk.
    + exists k. rewrite (square_literal_init x k) in Hf by done.
      by injection Hf as <-.
    + rewrite Hl in Hf. unfold LCoQI_init in Hf. cbn [mapM fst snd] in Hf.
      rewrite Hk in Hf. done.
    + rewrite Hl in Hf. unfold LCoQI_init in Hf. cbn [mapM fst snd] in Hf.
      rewrite Hk in Hf. done.
Qed.

Lemma square_literal_nested_free (x : Z) (f : lcoqi) :
  LCoQI_init (square_literal x) = Ok f -> Forall (fun rc => nested_free rc.1) f.
Proof.
  intros [[-> _] | (k & Hk & _ & ->)]%square_literal_init_cases.
  - repeat constructor. intros y. set_solver.
  - apply normalize_root_int_nested_free in Hk.
    repeat constructor; [|done]. intros y. set_solver.
Qed.

Lemma square_literal_settles (x : Z) : settles (LCoQI_init (square_literal x)).
Proof.
  unfold settles, returns.
  destruct (square_literal_cases x) as [[-> ->] | [-> Hx]].
  - left. by eexists.
  - unfold LCoQI_init. cbn [mapM fst snd].
    change (normalize_root (RInt 1)) with (Ok (∅ : key)).
    destruct (normalize_root_outcome (RInt x)) as [[k ->] | ->]; simpl; eauto.
Qed.

Lemma common_loop_nested_free (l : list factor) :
  (forall x, Nested x ∉ l) ->
  forall coef fs, exists coef', foldM common_step l (coef, fs) = Ok (coef', fs).
Proof.
  induction l as [|[p|x] l IH]; intros Hl coef fs; simpl.
  - by eexists.
  - apply IH. intros x Hx. apply (Hl x). by right.
  - destruct (Hl x). by left.
Qed.

Lemma common_loop_settles (l : list factor) :
  forall coef fs,
    Forall (Forall (fun rc : key * Rational => nested_free rc.1)) fs ->
    (exists coef' fs',
        foldM common_step l (coef, fs) = Ok (coef', fs')
        /\ Forall (Forall (fun rc : key * Rational => nested_free rc.1)) fs')
    \/ foldM common_step l (coef, fs) = Raise ValueError.
Proof.
  induction l as [|[p|x] l IH]; intros coef fs Hfs; simpl.
  - left. eauto.
  - by apply IH.
  - destruct (square_literal_settles x) as [[f Hf] | ->]; [|by right].
    rewrite Hf. simpl. apply IH. apply Forall_app. split; [done|].
    repeat constructor. by apply square_literal_nested_free in Hf.
Qed.

(** One call deep: a single term times a single term without nested
    factor. *)
Lemma mul_single_nested_free mul t1 t2 :
  nested_free t2.1 -> returns (mul_single mul t1 t2).
Proof.
  destruct t1 as [root1 coef1], t2 as [root2 coef2]. simpl. intros Hfree.
  destruct (common_loop_nested_free (elements (root1 ∩ root2))
              (fun x => ltac:(rewrite elem_of_elements; specialize (Hfree x);
                              set_solver))
              (coef1 * coef2)%Qc []) as [coef ->].
  simpl. by eexists.
Qed.

(** Two calls deep: any value times a value without nested factor. *)
Lemma mul_fuel_nested_free (fuel : nat) (self other : lcoqi) :
  Forall (fun rc => nested_free rc.1) other ->
  returns (mul_fuel (S (S fuel)) self other).
Proof.
  intros Hother.
  assert (returns (mul_general (mul_fuel (S fuel)) self other)) as Hgeneral.
  { apply foldM_returns. intros result t1 _. apply foldM_returns.
    intros result' t2 Ht2. rewrite Forall_forall in Hother.
    destruct (mul_single_nested_free (mul_fuel fuel) t1 t2) as [p Hp];
      [by apply Hother|].
    unfold LCoQI_of_keys, dict_of_items. cbn [foldl dict_set mul_fuel].
    destruct t1, t2. cbn [fst snd]. rewrite Hp. by eexists. }
  cbn [mul_fuel]. cbn [mul_fuel] in Hgeneral.
  destruct self as [|t1 [|t1' self]]; try done.
  destruct other as [|t2 [|t2' other]]; try done.
  apply mul_single_nested_free. by inversion_clear Hother.
Qed.

(** Three calls deep: a single term times a single term. *)
Lemma mul_single_settles (fuel : nat) t1 t2 :
  settles (mul_single (mul_fuel (S (S fuel))) t1 t2).
Proof.
  destruct t1 as [root1 coef1], t2 as [root2 coef2]. simpl.
  destruct (common_loop_settles (elements (root1 ∩ root2)) (coef1 * coef2)%Qc [])
    as [(coef & fs & -> & Hfs) | ->]; [by constructor| |by right].
  left. cbn [mbind outcome_bind].
  apply foldM_returns. intros result f Hf. rewrite Forall_forall in Hfs.
  apply mul_fuel_nested_free. by apply Hfs.
Qed.

(** Four calls deep: every product. *)
Lemma mul_fuel_settles (fuel : nat) (self other : lcoqi) :
  settles (mul_fuel (S (S (S (S fuel)))) self other).
Proof.
  assert (settles (mul_general (mul_fuel (S (S (S fuel)))) self other)) as Hgeneral.
  { apply foldM_settles. intros result t1. apply foldM_settles.
    intros result' t2.
    unfold LCoQI_of_keys, dict_of_items. cbn [foldl dict_set].
    destruct t1 as [r1 c1], t2 as [r2 c2]. cbn [fst snd].
    change (mul_fuel (S (S (S fuel))) [(r1, c1)] [(r2, c2)])
      with (mul_single (mul_fuel (S (S fuel))) (r1, c1) (r2, c2)).
    destruct (mul_single_settles fuel (r1, c1) (r2, c2)) as [[p ->] | ->];
      [left; by eexists|by right]. }
  change (mul_fuel (S (S (S (S fuel)))) self other) with
    (match self, other with
     | [t1], [t2] => mul_single (mul_fuel (S (S (S fuel)))) t1 t2
     | _, _ => mul_general (mul_fuel (S (S (S fuel)))) self other
     end).
  destruct self as [|t1 [|t1' self]]; try done.
  destruct other as [|t2 [|t2' other]]; try done.
  apply (mul_single_settles (S fuel)).
Qed.

(** [LCoQI_mul] is [__mul__]: it never runs out of fuel, and more fuel does
    not change its result. *)
Lemma LCoQI_mul_settles (self other : lcoqi) : settles (LCoQI_mul self other).
Proof. apply (mul_fuel_settles 0). Qed.

Lemma LCoQI_mul_fuel (fuel : nat) (self other : lcoqi) :
  mul_fuel (4 + fuel) self other = LCoQI_mul self other.
Proof.
  induction fuel as [|fuel IH]; [done|].
  rewrite <- IH. change (4 + S fuel)%nat with (S (4 + fuel)).
  apply mul_fuel_S. change (4 + fuel)%nat with (S (S (S (S fuel)))). by destruct (mul_fuel_settles fuel self other) as [[r ->] | ->].
Qed.

(** ** The structure of [inverse] *)

Lemma reduce_union_union_list (k : key) (keys : list key) :
  reduce_union (k :: keys) = Ok (⋃ (k :: keys)).
Proof.
  simpl. f_equal. revert k. induction keys as [|k' keys IH]; intros k; simpl.
  - by rewrite (right_id_L ∅ (∪)).
  - by rewrite IH, (assoc_L (∪)).
Qed.

(** C10: in [inverse] (general branch, nonzero value) the factors to
    conjugate are the union of the basis keys of the original value, computed
    once before the loop; the loop runs over exactly these, whatever factors
    the running denominator acquires, and the denominator it ends with is
    inverted by the recursive call of the final division
    [numerator / denominator]. *)
Theorem inverse_conjugates_original_roots (fuel : nat) (self : lcoqi) :
  rational_coefficient self = None -> self <> [] ->
  inverse (S fuel) self
  = '(numerator, denominator) ←
      foldM conjugate_step (elements (⋃ (fst <$> self))) (unit, self);
    LCoQI_truediv fuel numerator denominator.
Proof.
  intros Hrat Hne. cbn [inverse]. rewrite Hrat.
  destruct self as [|t self]; [done|].
  rewrite fmap_cons, reduce_union_union_list. reflexivity.
Qed.

(** For √(2+√2): one conjugation (the only root is [Nested 2]) leaves the
    denominator -2 - √2, whose factor [Prime 2] was not among the roots; the
    final division inverts it recursively. *)
Lemma inverse_conjugates_original_roots_witness :
  let self : lcoqi := [({[Nested 2]}, 1%Qc)] in
  elements (⋃ (fst <$> self)) = [Nested 2]
  /\ (exists numerator denominator,
        foldM conjugate_step [Nested 2] (unit, self) = Ok (numerator, denominator)
        /\ rational_coefficient denominator = None
        /\ fst <$> denominator = [∅; {[Prime 2]}]
        /\ inverse 3 self = LCoQI_truediv 2 numerator denominator)
  /\ returns (inverse 3 self).
Proof.
  intros self.
  assert (rational_coefficient self = None) as Hrat by reflexivity.
  assert (self <> []) as Hne by discriminate.
  pose proof (inverse_conjugates_original_roots 2 self Hrat Hne) as Heq.
  split; [reflexivity|]. split.
  - eexists _, _. split; [vm_compute; reflexivity|].
    split; [reflexivity|]. split; [reflexivity|].
    rewrite Heq. vm_compute. reflexivity.
  - rewrite Heq. vm_compute. by eexists.
Defined.

(** ** Rendering *)

Section rendering_facts.
Variable Rational_str : Rational -> string.

Lemma concat_nonempty (l : list string) (s : string) :
  s ∈ l -> s <> "" -> String.concat "" l <> "".
Proof.
  induction l as [|x l IH]; intros Hs Hne; [by apply elem_of_nil in Hs|].
  simpl. destruct l as [|y l].
  - apply list_elem_of_singleton in Hs. by subst.
  - simpl String.append. destruct x as [|c x]; [|done]. simpl.
    apply elem_of_cons in Hs as [->|Hs]; [done|]. by apply IH.
Qed.

Lemma root_to_str_loop (l : list factor) :
  (forall p, Prime p ∈ l -> 1 < p) ->
  forall result number, 1 <= number ->
    Forall (fun s => s <> "") result ->
    exists result' number',
      foldl root_to_str_step (result, number) l = (result', number')
      /\ Forall (fun s => s <> "") result'
      /\ 1 <= number'
      /\ (l <> [] -> result = [] -> result' <> [] \/ 1 < number').
Proof.
  induction l as [|[p|x] l IH]; intros Hl result number Hnum Hres.
  - eexists _, _. by repeat split.
  - assert (1 < p) by (apply Hl; by left). simpl.
    destruct (IH (fun q Hq => Hl q ltac:(by right)) result (number * p))
      as (result' & number' & Heq & Hres' & Hnum' & Hprog); [nia|done|].
    exists result', number'. repeat split; try done.
    intros _ ->. destruct l as [|f l].
    + injection Heq as <- <-. right. nia.
    + by apply Hprog.
  - simpl.
    destruct (IH (fun q Hq => Hl q ltac:(by right))
                (result ++ ["√(" +:+ pretty x +:+ "+√" +:+ pretty x +:+ ")"])
                number)
      as (result' & number' & Heq & Hres' & Hnum' & Hprog); [done| |].
    { apply Forall_app. split; [done|]. by repeat constructor. }
    exists result', number'. repeat split; try done.
    intros _ ->. left. intros ->.
    assert (forall l r n r' n', foldl root_to_str_step (r, n) l = (r', n') ->
              (length r <= length r')%nat) as Hlen.
    { clear. induction l as [|[p|x] l IH]; intros r n r' n'; simpl.
      - by intros [= <- <-].
      - apply IH.
      - intros Hl%IH. rewrite length_app in Hl. simpl in Hl. lia. }
    apply Hlen in Heq. simpl in Heq. lia.
Qed.

Lemma root_to_str_nonempty (root : key) :
  root <> ∅ -> (forall p, Prime p ∈ root -> 1 < p) -> root_to_str root <> "".
Proof.
  intros Hne Hp. unfold root_to_str.
  destruct (root_to_str_loop (elements root)
              (fun p Hq => Hp p ltac:(by apply elem_of_elements)) [] 1)
    as (result & number & -> & Hres & Hnum & Hprog); [lia|done|].
  case_decide as Hn.
  - destruct Hprog as [Hr|?]; [by intros ?%elements_empty_inv%leibniz_equiv|done| |lia].
    destruct result as [|s result]; [done|].
    apply (concat_nonempty _ s); [by left|]. by inversion_clear Hres.
  - apply (concat_nonempty _ ("√" +:+ pretty number)); [|done].
    apply elem_of_app. right. by left.
Qed.

(** C9: plain-text rendering: the zero value renders as "0"; the rational
    unit renders as "1"; a term with coefficient 1 and a nonempty radical
    part renders as the radical part alone; the terms are joined with
    " + ". *)
Theorem rendering_rules :
  LCoQI_str Rational_str zero = "0"
  /\ LCoQI_str Rational_str unit = "1"
  /\ (forall root : key,
        root <> ∅ -> (forall p, Prime p ∈ root -> 1 < p) ->
        term_to_str Rational_str (root, 1%Qc) = root_to_str root
        /\ root_to_str root <> ""
        /\ LCoQI_str Rational_str [(root, 1%Qc)] = root_to_str root)
  /\ (forall self : lcoqi,
        self <> [] ->
        LCoQI_str Rational_str self
        = String.concat " + " (term_to_str Rational_str <$> self)).
Proof.
  assert (forall root : key,
            root <> ∅ -> (forall p, Prime p ∈ root -> 1 < p) ->
            term_to_str Rational_str (root, 1%Qc) = root_to_str root) as Hterm.
  { intros root Hne Hp. unfold term_to_str. cbn [fst snd].
    case_decide as Hc; [by destruct Hc|]. case_decide as Hempty; [|done].
    by apply root_to_str_nonempty in Hempty. }
  split; [reflexivity|]. split; [|split].
  - unfold LCoQI_str, unit, term_to_str. cbn [fmap list_fmap fst snd].
    case_decide as Hc; [by destruct Hc|]. reflexivity.
  - intros root Hne Hp. split; [by apply Hterm|].
    split; [by apply root_to_str_nonempty|].
    unfold LCoQI_str. simpl. by apply Hterm.
  - intros [|t self] Hne; [done|]. reflexivity.
Qed.
End rendering_facts.

Lemma rendering_rules_witness :
  let str (q : Rational) : string := pretty (Qnum (this q)) in
  LCoQI_str str [({[Prime 2]}, 1%Qc)] = "√2"
  /\ LCoQI_str str [(∅, Rational_of_int 2); ({[Prime 2]}, 1%Qc)] = "2 + √2".
Proof.
  intros str.
  destruct (rendering_rules str) as (_ & _ & Hterm & Hjoin).
  assert (({[Prime 2]} : key) <> ∅) as Hne by (by vm_compute).
  assert (forall p, Prime p ∈ ({[Prime 2]} : key) -> 1 < p) as Hp
      by (intros p [= ->]%elem_of_singleton; lia).
  destruct (Hterm {[Prime 2]} Hne Hp) as (_ & _ & Hstr).
  split; [rewrite Hstr; reflexivity|].
  rewrite Hjoin by discriminate. reflexivity.
Defined.

(** ** Equality *)

Section dict_lookup_facts.
Context {K V : Type} `{EqDecision K}.
Implicit Types (d : list (K * V)).

Lemma dict_get_Some_elem d k v : dict_get d k = Some v -> (k, v) ∈ d.
Proof.
  induction d as [|[k' v'] d IH]; simpl; [done|].
  case_decide; [intros [= ->]; subst; by left|]. intros ?. right. auto.
Qed.

Lemma dict_get_None d k : dict_get d k = None <-> k ∉ d.*1.
Proof.
  induction d as [|[k' v'] d IH]; simpl.
  - split; [intros _ ?%elem_of_nil|]; done.
  - rewrite not_elem_of_cons. case_decide; subst; [|rewrite IH]; naive_solver.
Qed.

Lemma dict_get_elem d k v : NoDup d.*1 -> (k, v) ∈ d -> dict_get d k = Some v.
Proof.
  induction d as [|[k' v'] d IH]; simpl; [by intros _ ?%elem_of_nil|].
  intros [Hk' Hd]%NoDup_cons [[= -> ->]|Hin]%elem_of_cons.
  - by case_decide.
  - case_decide; [|by apply IH]. subst. destruct Hk'.
    apply list_elem_of_fmap. by exists (k, v).
Qed.

Lemma dict_eqb_spec (veqb : V -> V -> bool) d1 d2 :
  (forall v v', veqb v v' = true <-> v = v') ->
  NoDup d1.*1 -> NoDup d2.*1 ->
  dict_eqb veqb d1 d2 = true <-> forall k, dict_get d1 k = dict_get d2 k.
Proof.
  intros Hveqb Hd1 Hd2. unfold dict_eqb.
  rewrite andb_true_iff, bool_decide_eq_true, forallb_forall.
  setoid_rewrite <- list_elem_of_In. split.
  - intros [Hlen Hall].
    assert (forall k v, (k, v) ∈ d1 -> dict_get d2 k = Some v) as Hsub.
    { intros k v Hkv. specialize (Hall _ Hkv). simpl in Hall.
      destruct (dict_get d2 k); [|done]. f_equal. symmetry. by apply Hveqb. }
    assert (d1.*1 ≡ₚ d2.*1) as Hperm.
    { apply submseteq_length_Permutation; [|by rewrite !length_fmap, Hlen].
      apply NoDup_submseteq; [done|].
      intros k [[k' v] [-> Hkv]]%list_elem_of_fmap.
      apply Hsub, dict_get_Some_elem in Hkv.
      apply list_elem_of_fmap. by exists (k', v). }
    intros k. destruct (dict_get d1 k) as [v|] eqn:Hk.
    + symmetry. by apply Hsub, dict_get_Some_elem.
    + symmetry. apply dict_get_None. rewrite <- Hperm. by apply dict_get_None.
  - intros Hext. split.
    + rewrite <- (length_fmap fst d1), <- (length_fmap fst d2).
      apply Permutation_length, NoDup_Permutation; try done.
      intros k.
      assert (k ∉ d1.*1 <-> k ∉ d2.*1) as Hk
          by (by rewrite <- !dict_get_None, Hext).
      destruct (decide (k ∈ d1.*1)), (decide (k ∈ d2.*1)); tauto.
    + intros [k v] Hkv. simpl. rewrite <- Hext, (dict_get_elem _ _ v) by done.
      by apply Hveqb.
Qed.
End dict_lookup_facts.

Lemma allocate_all_lookup (cs : list lcoqi) :
  forall next i a,
    allocate_all cs next !! i = Some a ->
    ident a = (next + i)%nat /\ cs !! i = Some (coeffs a).
Proof.
  induction cs as [|c cs IH]; intros next i a; simpl; [done|].
  destruct i as [|i]; simpl.
  - intros [= <-]. simpl. split; [lia|done].
  - intros [-> ->]%IH. split; [lia|done].
Qed.

(** C3 (as stated, refuted): two values built from the same mapping have
    equal coefficient mappings and yet do not compare equal. *)
Lemma equality_counterexample :
  exists a b : object,
    allocate_all [unit; unit] 0 = [a; b]
    /\ coeffs_eqb (coeffs a) (coeffs b) = true
    /\ object_eq a b = false.
Proof. eexists _, _. split; [reflexivity|]. split; by vm_compute. Qed.

(** C3 (amended): the class defines no equality, so [==] on Algebraic Values
    is the identity of the objects: two values compare equal if and only if
    they are the same object, whatever their mappings. The comparison that is
    structural is that of the coefficient mappings themselves: two canonical
    mappings are equal if and only if they give every basis key the same
    coefficient. *)
Theorem equality_is_identity :
  (forall (cs : list lcoqi) (next i j : nat) (a b : object),
      allocate_all cs next !! i = Some a ->
      allocate_all cs next !! j = Some b ->
      object_eq a b = true <-> i = j)
  /\ (forall d1 d2 : lcoqi,
        NoDup d1.*1 -> NoDup d2.*1 ->
        coeffs_eqb d1 d2 = true <-> forall k, dict_get d1 k = dict_get d2 k).
Proof.
  split.
  - intros cs next i j a b [Ha _]%allocate_all_lookup [Hb _]%allocate_all_lookup.
    unfold object_eq. rewrite bool_decide_eq_true. lia.
  - intros d1 d2. apply dict_eqb_spec.
    intros v v'. unfold Rational_eqb. by rewrite bool_decide_eq_true.
Qed.

Lemma equality_is_identity_witness :
  let objects := allocate_all [unit; unit] 0 in
  let d1 : lcoqi := [(∅, 1%Qc); ({[Prime 2]}, 1%Qc)] in
  let d2 : lcoqi := [({[Prime 2]}, 1%Qc); (∅, 1%Qc)] in
  (forall a b, objects !! 0%nat = Some a -> objects !! 1%nat = Some b ->
               object_eq a b = true <-> 0%nat = 1%nat)
  /\ (coeffs_eqb d1 d2 = true <-> forall k, dict_get d1 k = dict_get d2 k).
Proof.
  intros objects d1 d2. destruct equality_is_identity as [Hid Hmap]. split.
  - intros a b. apply (Hid [unit; unit] 0%nat 0%nat 1%nat).
  - apply Hmap; apply (bool_decide_unpack _); by vm_compute.
Defined.

(** ** The invariant: no stored zero coefficient *)

Lemma well_formed_split (v : lcoqi) :
  well_formed v <-> canonical v /\ positive_keys v.
Proof. unfold well_formed, canonical, positive_keys. by rewrite Forall_and. Qed.

Lemma Rational_of_int_nonzero (n : Z) : n <> 0 -> Rational_of_int n <> 0%Qc.
Proof.
  intros Hn Heq. unfold Rational_of_int in Heq.
  change 0%Qc with (Q2Qc 0) in Heq. apply Q2Qc_eq_iff in Heq.
  unfold Qeq in Heq. simpl in Heq. lia.
Qed.

Lemma Rational_bool_true (c : Rational) : Rational_bool c = true <-> c <> 0%Qc.
Proof. unfold Rational_bool. by rewrite bool_decide_eq_true. Qed.

Lemma positive_key_empty : positive_key ∅.
Proof. intros f. set_solver. Qed.

Lemma positive_key_symmetric_difference (k1 k2 : key) :
  positive_key k1 -> positive_key k2 -> positive_key (symmetric_difference k1 k2).
Proof.
  intros H1 H2 f. unfold symmetric_difference.
  rewrite elem_of_union, !elem_of_difference. intros [[? _]|[? _]]; auto.
Qed.

Lemma trial_loop_positive (l : list Z) :
  Forall (fun p => 2 <= p) l ->
  forall x fs y fs',
    0 < x -> Forall (fun p => 0 < p) fs ->
    foldM trial_step l (x, fs) = Ok (y, fs') ->
    0 < y /\ Forall (fun p => 0 < p) fs'.
Proof.
  induction 1 as [|p l Hp _ IH]; intros x fs y fs' Hx Hfs; simpl.
  - by intros [= <- <-].
  - unfold trial_step at 1. case_decide as Hdiv; [|by apply IH].
    case_decide; simpl; [done|]. apply IH.
    + apply Z.mod_divide in Hdiv as [m ->]; [|lia].
      rewrite Z_div_mult_full by lia. nia.
    + apply Forall_app. split; [done|]. repeat constructor. lia.
Qed.

Lemma normalize_root_int_positive (n : Z) (k : key) :
  0 < n -> normalize_root (RInt n) = Ok k -> positive_key k.
Proof.
  intros Hn. simpl. unfold normalize_int. case_decide; [lia|].
  destruct (foldM trial_step (trial_range n) (n, [])) as [[y fs]| |] eqn:Hl;
    simpl; try done.
  apply trial_loop_positive in Hl as [Hy Hfs];
    [|apply Forall_seqZ; lia|done|constructor].
  intros [= <-] f. rewrite elem_of_list_to_set, list_elem_of_fmap.
  intros (p & -> & Hp). simpl. case_decide.
  - rewrite Forall_forall in Hfs. by apply Hfs.
  - apply elem_of_app in Hp as [Hp|Hp%list_elem_of_singleton]; [|by subst].
    rewrite Forall_forall in Hfs. by apply Hfs.
Qed.

(** [__add__] and [__sub__] prune, whatever the operands. *)
Lemma merge_canonical op (self other : lcoqi) : canonical (merge op self other).
Proof.
  unfold merge, LCoQI_of_keys. apply dict_of_items_Forall.
  apply Forall_forall. intros rc [Hrc _]%list_elem_of_filter.
  by apply Rational_bool_true.
Qed.

Lemma merge_positive_keys op (self other : lcoqi) :
  positive_keys self -> positive_keys other ->
  positive_keys (merge op self other).
Proof.
  intros Hself Hother. unfold merge, LCoQI_of_keys.
  apply dict_of_items_Forall.
  match goal with |- Forall _ (filter _ ?l) => assert (positive_keys l) as Hl end;
    [|apply Forall_forall; intros rc [_ Hrc]%list_elem_of_filter;
      revert rc Hrc; by apply Forall_forall].
  revert self Hself. induction Hother as [|rc other Hrc _ IH]; intros self Hself.
  - eapply Forall_impl; [exact Hself|]. auto.
  - simpl. apply IH. by apply dict_set_Forall.
Qed.

Lemma merge_well_formed op (self other : lcoqi) :
  positive_keys self -> positive_keys other ->
  well_formed (merge op self other).
Proof.
  intros. apply well_formed_split.
  split; [apply merge_canonical|by apply merge_positive_keys].
Qed.

Lemma square_literal_well_formed (x : Z) (f : lcoqi) :
  0 < x -> LCoQI_init (square_literal x) = Ok f -> well_formed f.
Proof.
  intros Hx [[-> _] | (k & Hk & _ & ->)]%square_literal_init_cases.
  - repeat constructor; [done|apply positive_key_empty].
  - apply normalize_root_int_positive in Hk; [|done].
    repeat constructor; try done.
    apply Rational_of_int_nonzero. lia.
Qed.

Lemma common_loop_well_formed (k : key) (l : list factor) :
  positive_key k -> (forall f, f ∈ l -> f ∈ k) ->
  forall coef fs coef' fs',
    coef <> 0%Qc -> Forall well_formed fs ->
    foldM common_step l (coef, fs) = Ok (coef', fs') ->
    coef' <> 0%Qc /\ Forall well_formed fs'.
Proof.
  intros Hk. induction l as [|f l IH]; intros Hl coef fs coef' fs' Hcoef Hfs; simpl.
  - by intros [= <- <-].
  - assert (0 < factor_arg f) as Hf by (apply Hk, Hl; by left).
    assert (forall f', f' ∈ l -> f' ∈ k) as Hl' by (intros; apply Hl; by right).
    destruct f as [p|x]; simpl in *.
    + apply IH; try done. intros [?|?]%Qcmult_integral; [done|].
      by apply (Rational_of_int_nonzero p); [lia|].
    + destruct (LCoQI_init (square_literal x)) as [f| |] eqn:Hfx; simpl; try done.
      apply IH; try done. apply Forall_app. split; [done|].
      repeat constructor. by apply (square_literal_well_formed x).
Qed.

Lemma well_formed_elem (v : lcoqi) (rc : key * Rational) :
  well_formed v -> rc ∈ v -> well_formed (LCoQI_of_keys [rc]).
Proof.
  intros Hv Hrc. destruct rc as [k c]. apply Forall_singleton.
  unfold well_formed in Hv. rewrite Forall_forall in Hv. by apply (Hv (k, c)).
Qed.

(** [__mul__] keeps the invariant. *)
Lemma mul_fuel_well_formed (fuel : nat) :
  forall self other r,
    well_formed self -> well_formed other ->
    mul_fuel fuel self other = Ok r -> well_formed r.
Proof.
  induction fuel as [|fuel IH]; intros self other r Hself Hother; [done|].
  assert (mul_general (mul_fuel fuel) self other = Ok r -> well_formed r)
    as Hgeneral.
  { apply (foldM_invariant well_formed); [|constructor].
    intros result t1 result' Hresult Ht1.
    apply (foldM_invariant well_formed); [|done].
    intros acc t2 acc' Hacc Ht2.
    destruct (mul_fuel fuel _ _) as [p| |] eqn:Hp; simpl; try done.
    intros [= <-]. apply IH in Hp.
    - apply well_formed_split in Hacc as [_ ?], Hp as [_ ?].
      by apply merge_well_formed.
    - by apply (well_formed_elem self).
    - by apply (well_formed_elem other). }
  cbn [mul_fuel].
  destruct self as [|[root1 coef1] [|t1' self]]; try done.
  destruct other as [|[root2 coef2] [|t2' other]]; try done.
  clear Hgeneral. apply Forall_singleton in Hself as [Hc1 Hk1].
  apply Forall_singleton in Hother as [Hc2 Hk2]. simpl in *.
  destruct (foldM common_step _ _) as [[coef fs]| |] eqn:Hloop; simpl; try done.
  apply (common_loop_well_formed root1) in Hloop as [Hcoef Hfs]; try done.
  - apply (foldM_invariant well_formed).
    + intros result f result' Hresult Hf. apply IH; [done|].
      rewrite Forall_forall in Hfs. by apply Hfs.
    + unfold LCoQI_of_keys, dict_of_items. simpl. repeat constructor; [done|].
      by apply positive_key_symmetric_difference.
  - intros f. rewrite elem_of_elements. set_solver.
  - intros [?|?]%Qcmult_integral; done.
Qed.

Lemma LCoQI_mul_well_formed (self other r : lcoqi) :
  well_formed self -> well_formed other ->
  LCoQI_mul self other = Ok r -> well_formed r.
Proof. apply mul_fuel_well_formed. Qed.

Lemma unit_well_formed : well_formed unit.
Proof. repeat constructor; [done|apply positive_key_empty]. Qed.

Lemma complement_of_well_formed (root : factor) (denominator : lcoqi) :
  well_formed denominator -> well_formed (complement_of root denominator).
Proof.
  intros Hd. unfold complement_of, LCoQI_of_keys.
  apply dict_of_items_Forall, Forall_fmap.
  eapply Forall_impl; [exact Hd|]. intros [k c] [Hc Hk]. simpl in *.
  split; [|done]. case_decide; [|done].
  intros Heq. apply Hc. rewrite <- (Qcopp_involutive c), Heq. done.
Qed.

Lemma conjugate_loop_well_formed (roots : list factor) :
  forall numerator denominator numerator' denominator',
    well_formed numerator -> well_formed denominator ->
    foldM conjugate_step roots (numerator, denominator)
      = Ok (numerator', denominator') ->
    well_formed numerator' /\ well_formed denominator'.
Proof.
  intros n d n' d' Hn Hd Hloop.
  apply (foldM_invariant (fun st => well_formed st.1 /\ well_formed st.2)
           conjugate_step roots) with (acc := (n, d)) (r := (n', d'));
    [|done|done].
  intros [n0 d0] root [n1 d1] [Hn0 Hd0] _. simpl in *.
  destruct (LCoQI_mul d0 _) as [d2| |] eqn:Hd2; simpl; try done.
  destruct (LCoQI_mul n0 _) as [n2| |] eqn:Hn2; simpl; try done.
  intros [= <- <-].
  pose proof (complement_of_well_formed root d0 Hd0).
  split.
  - by apply (LCoQI_mul_well_formed n0 (complement_of root d0)).
  - by apply (LCoQI_mul_well_formed d0 (complement_of root d0)).
Qed.


Lemma pow_loop_well_formed (n : positive) :
  forall result factor r,
    well_formed result -> well_formed factor ->
    pow_loop n result factor = Ok r -> well_formed r.
Proof.
  induction n as [n IH|n IH|]; intros result factor r Hresult Hfactor; simpl.
  - destruct (LCoQI_mul result factor) as [result'| |] eqn:Hr; simpl; try done.
    destruct (LCoQI_mul factor factor) as [factor'| |] eqn:Hf; simpl; try done.
    apply IH.
    + by apply (LCoQI_mul_well_formed result factor).
    + by apply (LCoQI_mul_well_formed factor factor).
  - destruct (LCoQI_mul factor factor) as [factor'| |] eqn:Hf; simpl; try done.
    apply IH; [done|]. by apply (LCoQI_mul_well_formed factor factor).
  - destruct (LCoQI_mul result factor) as [result'| |] eqn:Hr; simpl; try done.
    destruct (LCoQI_mul factor factor) as [factor'| |] eqn:Hf; simpl; try done.
    intros [= <-]. by apply (LCoQI_mul_well_formed result factor).
Qed.


Lemma mapM_Ok {A B} (f : A -> outcome B) (l : list A) :
  forall ys, mapM f l = Ok ys -> Forall2 (fun x y => f x = Ok y) l ys.
Proof.
  induction l as [|x l IH]; intros ys; simpl.
  - intros [= <-]. constructor.
  - destruct (f x) as [y| |] eqn:Hy; simpl; try done.
    destruct (mapM f l) as [ys'| |]; simpl; try done.
    intros [= <-]. constructor; auto.
Qed.





(** ** Square roots of square-free integers are irrational *)

Lemma square_free_not_square (m t : Z) :
  Z.prime t -> (t | m) -> ~ (t * t | m) ->
  forall (n : nat) (a b : Z),
    Z.abs b <= Z.of_nat n -> b <> 0 -> m * (b * b) = a * a -> False.
Proof.
  intros Ht [m1 ->] Hsq. pose proof (Z.prime_ge_2 _ Ht) as Ht2.
  assert (~ (t | m1)) as Hm1.
  { intros [m2 ->]. apply Hsq. exists m2. lia. }
  induction n as [|n IH]; intros a b Hn Hb Heq; [lia|].
  assert (t | a) as [a1 ->].
  { assert (t | a * a) as Ha by (exists (m1 * (b * b)); lia).
    destruct (proj1 (Z.divide_prime_mul _ _ _ Ht) Ha); done. }
  assert (m1 * (b * b) = t * (a1 * a1)) as Heq1.
  { apply (Z.mul_cancel_l _ _ t); lia. }
  assert (t | b) as [b1 ->].
  { assert (t | m1 * (b * b)) as Hb2 by (exists (a1 * a1); lia).
    destruct (proj1 (Z.divide_prime_mul _ _ _ Ht) Hb2) as [?|Hb3]; [done|].
    destruct (proj1 (Z.divide_prime_mul _ _ _ Ht) Hb3); done. }
  apply (IH a1 b1); [nia|lia|].
  apply (Z.mul_cancel_l _ _ (t * t)); [nia|]. lia.
Qed.

Lemma list_prod_pos (l : list Z) : Forall Z.prime l -> 0 < list_prod l.
Proof.
  induction 1 as [|p l Hp%Z.prime_ge_2 _ IH]; simpl; [lia|nia].
Qed.

Lemma prime_divide_list_prod (t : Z) (l : list Z) :
  Z.prime t -> Forall Z.prime l -> (t | list_prod l) -> t ∈ l.
Proof.
  intros Ht. induction 1 as [|p l Hp _ IH]; simpl.
  - intros Hd. apply Z.divide_1_r in Hd. apply Z.prime_ge_2 in Ht. lia.
  - intros [Hd|Hd]%Z.divide_prime_mul; [|right; auto|done].
    apply Z.divide_prime_prime in Hd; [|done..]. subst. by left.
Qed.

Lemma sqrt_list_prod_irrational (l : list Z) (q : Q) :
  l <> [] -> NoDup l -> Forall Z.prime l ->
  sqrt (IZR (list_prod l)) <> Q2R q.
Proof.
  intros Hne Hnd Hl Heq. destruct l as [|t l]; [done|].
  apply NoDup_cons in Hnd as [Ht _]. pose proof (list_prod_pos _ Hl) as Hpos.
  inversion_clear Hl as [|? ? Hp Hl'].
  assert (IZR (list_prod (t :: l)) = (Q2R q * Q2R q)%R) as Hsq.
  { rewrite <- Heq, sqrt_sqrt; [done|]. apply IZR_le. lia. }
  destruct q as [a b]. unfold Q2R in Hsq. simpl Qnum in Hsq. simpl Qden in Hsq.
  assert (IZR (Z.pos b) <> 0%R) as Hb by (apply not_0_IZR; lia).
  assert (list_prod (t :: l) * (Z.pos b * Z.pos b) = a * a) as Hz.
  { apply eq_IZR. rewrite !mult_IZR, Hsq. by field. }
  apply (square_free_not_square (list_prod (t :: l)) t Hp) with
    (n := Pos.to_nat b) (a := a) (b := Z.pos b); try done; try lia.
  - simpl. by exists (list_prod l); lia.
  - simpl. intros [k Hk]. apply Ht, prime_divide_list_prod; try done.
    exists k. apply Z.prime_ge_2 in Hp. apply (Z.mul_cancel_l _ _ t); lia.
Qed.

(** ** The tower of quadratic extensions of the rationals

    [span S] is the subfield of the reals generated by the square roots of
    the integers of [S], built one square root at a time. *)

Section span_facts.
Local Open Scope R_scope.

Lemma span_rational (S : list Z) (q : Q) : span S (Q2R q).
Proof.
  revert q. induction S as [|p S IH]; intros q; simpl; [by exists q|].
  exists (Q2R q), (Q2R 0). repeat split; [apply IH..|].
  rewrite RMicromega.Q2R_0. ring.
Qed.

Lemma span_IZR (S : list Z) (n : Z) : span S (IZR n).
Proof.
  replace (IZR n) with (Q2R (inject_Z n)); [apply span_rational|].
  unfold Q2R. simpl. field.
Qed.

Lemma span_0 (S : list Z) : span S 0.
Proof. apply (span_IZR S 0). Qed.

Lemma span_weaken (p : Z) (S : list Z) (r : R) : span S r -> span (p :: S) r.
Proof. intros Hr. exists r, 0. repeat split; [done|apply span_0|ring]. Qed.

Lemma span_plus (S : list Z) : forall r s, span S r -> span S s -> span S (r + s).
Proof.
  induction S as [|p S IH]; simpl.
  - intros r s [q ->] [q' ->]. exists (q + q')%Q. by rewrite Q2R_plus.
  - intros r s (a & b & Ha & Hb & ->) (a' & b' & Ha' & Hb' & ->).
    exists (a + a'), (b + b'). repeat split; [by apply IH..|ring].
Qed.

Lemma span_mult (S : list Z) :
  Forall (fun p => 0 <= p)%Z S ->
  forall r s, span S r -> span S s -> span S (r * s).
Proof.
  induction 1 as [|p S Hp _ IH]; simpl.
  - intros r s [q ->] [q' ->]. exists (q * q')%Q. by rewrite Q2R_mult.
  - intros r s (a & b & Ha & Hb & ->) (a' & b' & Ha' & Hb' & ->).
    exists (a * a' + IZR p * (b * b')), (a * b' + b * a').
    repeat split.
    + apply span_plus; [by apply IH|]. apply IH; [apply span_IZR|by apply IH].
    + apply span_plus; by apply IH.
    + assert (sqrt (IZR p) * sqrt (IZR p) = IZR p) as Hsq
          by (by apply sqrt_sqrt, IZR_le).
      nra.
Qed.

Lemma span_opp (S : list Z) : forall r, span S r -> span S (- r).
Proof.
  induction S as [|p S IH]; simpl.
  - intros r [q ->]. exists (- q)%Q. by rewrite Q2R_opp.
  - intros r (a & b & Ha & Hb & ->).
    exists (- a), (- b). repeat split; [by apply IH..|ring].
Qed.

Lemma span_sqrt_head (p : Z) (S : list Z) : span (p :: S) (sqrt (IZR p)).
Proof.
  exists 0, 1. repeat split; [apply span_0|apply (span_IZR S 1)|ring].
Qed.
End span_facts.

Section tower.
Local Open Scope R_scope.

Lemma primes_nonneg (S : list Z) : Forall Z.prime S -> Forall (fun p => 0 <= p)%Z S.
Proof. intros HS. eapply Forall_impl; [exact HS|]. intros p Hp%Z.prime_ge_2. lia. Qed.

Lemma span_div (S : list Z) (r s : R) :
  Forall Z.prime S -> span_field S ->
  span S r -> span S s -> s <> 0 -> span S (r / s).
Proof.
  intros HS Hfield Hr Hs Hne. apply span_mult; [by apply primes_nonneg|done|].
  by apply Hfield.
Qed.

Lemma tower_base : span_field [] /\ no_new_root [].
Proof.
  split.
  - intros r [q ->] Hne. exists (/ q)%Q. symmetry. apply Q2R_inv.
    intros Hq. apply Hne. rewrite (Qeq_eqR _ _ Hq). apply RMicromega.Q2R_0.
  - intros T Hne Hnd HT _ [q Hq]. by apply (sqrt_list_prod_irrational T q).
Qed.

Lemma tower_step (q : Z) (S : list Z) :
  Z.prime q -> q ∉ S -> Forall Z.prime S ->
  span_field S -> no_new_root S ->
  span_field (q :: S) /\ no_new_root (q :: S).
Proof.
  intros Hq HqS HS Hfield Hroot.
  pose proof (primes_nonneg S HS) as HS0.
  assert (0 <= IZR q) as Hq0 by (apply Z.prime_ge_2 in Hq; apply IZR_le; lia).
  pose proof (sqrt_sqrt _ Hq0) as Hsq.
  assert (~ span S (sqrt (IZR q))) as Hnew.
  { intros Hs. apply (Hroot [q]); try done.
    - apply NoDup_singleton.
    - by apply Forall_singleton.
    - by intros t ->%list_elem_of_singleton.
    - simpl. by rewrite Z.mul_1_r. }
  split.
  - intros r (a & b & Ha & Hb & ->) Hne.
    set (s := sqrt (IZR q)) in *. set (d := a * a - IZR q * (b * b)).
    assert (span S d) as Hd.
    { apply span_plus; [by apply span_mult|]. apply span_opp.
      apply span_mult; [done|apply span_IZR|by apply span_mult]. }
    assert (d <> 0) as Hd0.
    { intros Hd0. assert ((a - b * s) * (a + b * s) = 0) as Hprod
          by (unfold d in Hd0; nra).
      apply Rmult_integral in Hprod as [Hprod|Hprod]; [|done].
      destruct (Req_dec b 0) as [->|Hb0]; [apply Hne; nra|].
      apply Hnew. replace s with (a / b) by (field_simplify_eq; [lra|done]).
      by apply span_div. }
    exists (a / d), (- b / d). repeat split.
    + by apply span_div.
    + apply span_div; try done. by apply span_opp.
    + fold s. unfold d in *. field_simplify_eq; [|by split; nra].
      nra.
  - intros T Hne Hnd HT Hdisj (a & b & Ha & Hb & Heq).
    set (s := sqrt (IZR q)) in *.
    pose proof (list_prod_pos T HT) as Hm.
    set (m := list_prod T) in *.
    assert (0 <= IZR m) as Hm0 by (apply IZR_le; lia).
    pose proof (sqrt_sqrt _ Hm0) as Hmsq.
    assert (forall t, t ∈ T -> t ∉ S) as HdisjS.
    { intros t Ht HtS. apply (Hdisj t Ht). by right. }
    destruct (Req_dec b 0) as [->|Hb0].
    { apply (Hroot T); try done. fold m. rewrite Heq.
      replace (a + 0 * s) with a by ring. done. }
    destruct (Req_dec a 0) as [->|Ha0].
    { apply (Hroot (q :: T)); try done.
      - apply NoDup_cons. split; [|done]. intros HqT. apply (Hdisj q HqT). by left.
      - by constructor.
      - intros t [->|Ht]%elem_of_cons; auto.
      - simpl. fold m. rewrite mult_IZR, sqrt_mult by done. fold s.
        rewrite Heq. replace (s * (0 + b * s)) with (b * IZR q) by nra.
        apply span_mult; [done..|apply span_IZR]. }
    apply Hnew. fold s.
    replace s with ((IZR m - a * a - IZR q * (b * b)) / (2 * (a * b))).
    + apply span_div; try done.
      * apply span_plus; [apply span_plus; [apply span_IZR|]|].
        -- apply span_opp. by apply span_mult.
        -- apply span_opp. apply span_mult; [done|apply span_IZR|].
           by apply span_mult.
      * apply span_mult; [done|apply (span_IZR S 2)|by apply span_mult].
      * nra.
    + field_simplify_eq; [|nra]. rewrite <- Hmsq, Heq. nra.
Qed.

Theorem tower (S : list Z) :
  NoDup S -> Forall Z.prime S -> span_field S /\ no_new_root S.
Proof.
  induction S as [|q S IH]; intros Hnd HS; [apply tower_base|].
  apply NoDup_cons in Hnd as [Hq Hnd]. inversion_clear HS as [|? ? Hp HS'].
  destruct (IH Hnd HS') as [Hfield Hroot]. by apply tower_step.
Qed.

(** The coordinates over the last square root are unique. *)
Lemma span_independent (q : Z) (S : list Z) (a b : R) :
  NoDup (q :: S) -> Forall Z.prime (q :: S) ->
  span S a -> span S b -> a + b * sqrt (IZR q) = 0 -> a = 0 /\ b = 0.
Proof.
  intros [Hq Hnd]%NoDup_cons HS Ha Hb Heq.
  inversion_clear HS as [|? ? Hp HS'].
  destruct (tower S Hnd HS') as [Hfield Hroot].
  destruct (Req_dec b 0) as [->|Hb0]; [split; [lra|done]|].
  destruct (Hroot [q]); try done.
  - apply NoDup_singleton.
  - by apply Forall_singleton.
  - by intros t ->%list_elem_of_singleton.
  - simpl. rewrite Z.mul_1_r.
    replace (sqrt (IZR q)) with (- a / b) by (field_simplify_eq; [lra|done]).
    apply span_div; try done. by apply span_opp.
Qed.
End tower.

(** ** The real number a value stands for *)

Section Rational_to_R_facts.
Local Open Scope R_scope.

Lemma Rational_to_R_Q2Qc (q : Q) : Rational_to_R (Q2Qc q) = Q2R q.
Proof. unfold Rational_to_R. simpl. apply Qeq_eqR, Qred_correct. Qed.

Lemma Rational_to_R_0 : Rational_to_R 0%Qc = 0.
Proof. unfold Rational_to_R. simpl. apply RMicromega.Q2R_0. Qed.

Lemma Rational_to_R_1 : Rational_to_R 1%Qc = 1.
Proof. unfold Rational_to_R. simpl. apply RMicromega.Q2R_1. Qed.

Lemma Rational_to_R_plus (a b : Rational) :
  Rational_to_R (a + b)%Qc = Rational_to_R a + Rational_to_R b.
Proof. unfold Qcplus. by rewrite Rational_to_R_Q2Qc, Q2R_plus. Qed.

Lemma Rational_to_R_opp (a : Rational) :
  Rational_to_R (- a)%Qc = - Rational_to_R a.
Proof. unfold Qcopp. by rewrite Rational_to_R_Q2Qc, Q2R_opp. Qed.

Lemma Rational_to_R_minus (a b : Rational) :
  Rational_to_R (a - b)%Qc = Rational_to_R a - Rational_to_R b.
Proof.
  unfold Qcminus. rewrite Rational_to_R_plus, Rational_to_R_opp. ring.
Qed.

Lemma Rational_to_R_mult (a b : Rational) :
  Rational_to_R (a * b)%Qc = Rational_to_R a * Rational_to_R b.
Proof. unfold Qcmult. by rewrite Rational_to_R_Q2Qc, Q2R_mult. Qed.

Lemma Rational_to_R_of_int (n : Z) : Rational_to_R (Rational_of_int n) = IZR n.
Proof.
  unfold Rational_of_int. rewrite Rational_to_R_Q2Qc. unfold Q2R. simpl. field.
Qed.

Lemma Rational_to_R_inj (a b : Rational) :
  Rational_to_R a = Rational_to_R b -> a = b.
Proof. intros Heq. apply Qc_is_canon. by apply eqR_Qeq. Qed.

Lemma Rational_to_R_nonzero (a : Rational) :
  a <> 0%Qc -> Rational_to_R a <> 0.
Proof.
  intros Ha Heq. apply Ha, Rational_to_R_inj. by rewrite Rational_to_R_0.
Qed.

Lemma Rational_to_R_inv (a : Rational) :
  a <> 0%Qc -> Rational_to_R (1 / a)%Qc = / Rational_to_R a.
Proof.
  intros Ha. pose proof (Rational_to_R_nonzero a Ha) as Hr.
  apply (Rmult_eq_reg_l (Rational_to_R a)); [|done].
  rewrite <- Rational_to_R_mult, Rinv_r by done.
  replace (a * (1 / a))%Qc with 1%Qc by (by field).
  apply Rational_to_R_1.
Qed.
End Rational_to_R_facts.

Lemma key_inter_comm (k1 k2 : key) : k1 ∩ k2 = k2 ∩ k1.
Proof. set_solver. Qed.

Section key_value_facts.
Local Open Scope R_scope.

Lemma factors_value_app (l1 l2 : list factor) :
  factors_value (l1 ++ l2) = factors_value l1 * factors_value l2.
Proof.
  induction l1 as [|f l1 IH]; simpl; [ring|]. rewrite IH. ring.
Qed.

Lemma factors_value_perm (l1 l2 : list factor) :
  l1 ≡ₚ l2 -> factors_value l1 = factors_value l2.
Proof.
  induction 1 as [|f l1 l2 _ IH|f g l|l1 l2 l3 _ IH1 _ IH2]; simpl;
    [done|by rewrite IH|ring|congruence].
Qed.

Lemma key_value_empty : key_value ∅ = 1.
Proof. unfold key_value. by rewrite elements_empty. Qed.

Lemma key_value_singleton (f : factor) : key_value {[ f ]} = factor_value f.
Proof. unfold key_value. rewrite elements_singleton. simpl. ring. Qed.

Lemma key_value_disj_union (k1 k2 : key) :
  k1 ## k2 -> key_value (k1 ∪ k2) = key_value k1 * key_value k2.
Proof.
  intros Hdisj. unfold key_value.
  rewrite (factors_value_perm _ _ (elements_disj_union k1 k2 Hdisj)).
  apply factors_value_app.
Qed.

Lemma key_value_split (k1 k2 : key) :
  key_value k1 = key_value (k1 ∖ k2) * key_value (k1 ∩ k2).
Proof.
  rewrite <- key_value_disj_union by set_solver. f_equal.
  apply set_eq. intros f. rewrite elem_of_union, elem_of_difference,
    elem_of_intersection. destruct (decide (f ∈ k2)); naive_solver.
Qed.

Lemma key_value_symmetric_difference (k1 k2 : key) :
  key_value (symmetric_difference k1 k2)
  = key_value (k1 ∖ k2) * key_value (k2 ∖ k1).
Proof. unfold symmetric_difference. apply key_value_disj_union. set_solver. Qed.

(** √K1 · √K2 = (∏ K1∩K2) · √(K1 Δ K2) *)
Lemma key_value_mult (k1 k2 : key) :
  key_value k1 * key_value k2
  = key_value (k1 ∩ k2) * key_value (k1 ∩ k2)
    * key_value (symmetric_difference k1 k2).
Proof.
  rewrite key_value_symmetric_difference.
  rewrite (key_value_split k1 k2), (key_value_split k2 k1).
  rewrite (key_inter_comm k2 k1). ring.
Qed.
End key_value_facts.

Section dict_keys_facts.
Context {K V : Type} `{EqDecision K}.
Implicit Types (d items : list (K * V)).

Lemma dict_set_fresh d k v : k ∉ d.*1 -> dict_set d k v = d ++ [(k, v)].
Proof.
  induction d as [|[k' v'] d IH]; simpl; [done|].
  intros [Hk Hd]%not_elem_of_cons. case_decide; [by subst|].
  by rewrite IH.
Qed.

Lemma dict_set_keys d k v :
  (dict_set d k v).*1 = if decide (k ∈ d.*1) then d.*1 else d.*1 ++ [k].
Proof.
  induction d as [|[k' v'] d IH]; [done|].
  cbn [dict_set]. destruct (decide (k' = k)) as [->|Hne]; rewrite !fmap_cons;
    cbn [fst].
  - rewrite decide_True by (apply elem_of_cons; by left). done.
  - rewrite IH. destruct (decide (k ∈ d.*1)).
    + rewrite decide_True by (apply elem_of_cons; by right). done.
    + rewrite decide_False; [done|]. by intros [->|?]%elem_of_cons.
Qed.

Lemma dict_set_NoDup d k v : NoDup d.*1 -> NoDup (dict_set d k v).*1.
Proof.
  intros Hd. rewrite dict_set_keys. case_decide; [done|].
  apply NoDup_app. split; [done|]. split; [|apply NoDup_singleton].
  by intros x ? ->%list_elem_of_singleton.
Qed.

Lemma dict_fold_NoDup (f : list (K * V) -> K * V -> V) items : forall d,
  NoDup d.*1 ->
  NoDup (foldl (fun d kv => dict_set d kv.1 (f d kv)) d items).*1.
Proof.
  induction items as [|kv items IH]; intros d Hd; simpl; [done|].
  by apply IH, dict_set_NoDup.
Qed.

Lemma dict_of_items_NoDup items : NoDup (dict_of_items items).*1.
Proof.
  apply (dict_fold_NoDup (fun _ kv => kv.2)). constructor.
Qed.

Lemma dict_fold_id items : forall d,
  NoDup (d ++ items).*1 ->
  foldl (fun d kv => dict_set d kv.1 kv.2) d items = d ++ items.
Proof.
  induction items as [|[k v] items IH]; intros d Hnd; simpl.
  - by rewrite app_nil_r.
  - rewrite dict_set_fresh.
    + rewrite IH; rewrite <- app_assoc; done.
    + rewrite fmap_app, fmap_cons in Hnd.
      apply NoDup_app in Hnd as (_ & Hnd & _). intros Hk.
      apply (Hnd k Hk). by left.
Qed.

Lemma dict_of_items_id items : NoDup items.*1 -> dict_of_items items = items.
Proof. intros Hnd. by apply (dict_fold_id items []). Qed.

Lemma dict_get_set d k v k' :
  dict_get (dict_set d k v) k' = if decide (k = k') then Some v else dict_get d k'.
Proof.
  induction d as [|[k0 v0] d IH]; simpl.
  - repeat case_decide; congruence.
  - repeat (case_decide; simpl; subst); try congruence.
Qed.
End dict_keys_facts.

Lemma merge_NoDup op (self other : lcoqi) : NoDup (merge op self other).*1.
Proof. apply dict_of_items_NoDup. Qed.

Section eval_facts.
Local Open Scope R_scope.

Lemma eval_app (a b : lcoqi) : eval (a ++ b) = eval a + eval b.
Proof. induction a as [|rc a IH]; simpl; [ring|]. rewrite IH. ring. Qed.

Lemma eval_dict_set (d : lcoqi) (k : key) (c : Rational) :
  eval (dict_set d k c)
  = eval d
    + (Rational_to_R c - Rational_to_R (default 0%Qc (dict_get d k))) * key_value k.
Proof.
  induction d as [|[k' c'] d IH]; simpl.
  - rewrite Rational_to_R_0. ring.
  - case_decide; subst; simpl; [ring|]. rewrite IH. ring.
Qed.

Lemma eval_filter_nonzero (d : lcoqi) :
  eval (filter (fun rc => Rational_bool rc.2 = true) d) = eval d.
Proof.
  induction d as [|[k c] d IH]; [done|].
  rewrite filter_cons. simpl. case_decide as Hc; simpl; rewrite IH; [done|].
  assert (c = 0%Qc) as ->.
  { unfold Rational_bool in Hc. destruct (decide (c = 0%Qc)); [done|].
    by rewrite bool_decide_eq_true_2 in Hc. }
  rewrite Rational_to_R_0. ring.
Qed.

Lemma eval_merge (op : Rational -> Rational -> Rational) (sign : R)
    (self other : lcoqi) :
  (forall a b, Rational_to_R (op a b) = Rational_to_R a + sign * Rational_to_R b) ->
  NoDup self.*1 ->
  eval (merge op self other) = eval self + sign * eval other.
Proof.
  intros Hop Hself. unfold merge, LCoQI_of_keys.
  rewrite dict_of_items_id, eval_filter_nonzero.
  - clear Hself. revert self.
    induction other as [|[k c] other IH]; intros self; simpl; [ring|].
    rewrite IH, eval_dict_set, Hop. ring.
  - eapply sublist_NoDup; [|apply fmap_sublist, sublist_filter].
    by apply (dict_fold_NoDup
                (fun d kv => op (default 0%Qc (dict_get d kv.1)) kv.2)).
Qed.

Lemma eval_add (self other : lcoqi) :
  NoDup self.*1 -> eval (LCoQI_add self other) = eval self + eval other.
Proof.
  intros Hnd. unfold LCoQI_add. rewrite (eval_merge Qcplus 1); [ring| |done].
  intros a b. rewrite Rational_to_R_plus. ring.
Qed.

Lemma eval_sub (self other : lcoqi) :
  NoDup self.*1 -> eval (LCoQI_sub self other) = eval self - eval other.
Proof.
  intros Hnd. unfold LCoQI_sub. rewrite (eval_merge Qcminus (-1)); [ring| |done].
  intros a b. rewrite Rational_to_R_minus. ring.
Qed.
End eval_facts.

(** ** Values over prime radicals *)

Lemma merge_keys (Pk : key -> Prop) op (self other : lcoqi) :
  Forall (fun rc => Pk rc.1) self -> Forall (fun rc => Pk rc.1) other ->
  Forall (fun rc => Pk rc.1) (merge op self other).
Proof.
  intros Hself Hother. unfold merge, LCoQI_of_keys.
  apply dict_of_items_Forall.
  match goal with
  | |- Forall _ (filter _ ?l) => assert (Forall (fun rc => Pk rc.1) l) as Hl
  end; [|apply Forall_forall; intros rc [_ Hrc]%list_elem_of_filter;
         revert rc Hrc; by apply Forall_forall].
  revert self Hself. induction Hother as [|rc other Hrc _ IH]; intros self Hself.
  - done.
  - simpl. apply IH. by apply dict_set_Forall.
Qed.

Lemma value_over_merge (S : list Z) op (self other : lcoqi) :
  value_over S self -> value_over S other -> value_over S (merge op self other).
Proof.
  intros [_ Hself] [_ Hother]. split; [apply merge_NoDup|].
  apply Forall_and. split; [apply merge_canonical|].
  apply (merge_keys (key_over S));
    [eapply Forall_impl; [exact Hself|]|eapply Forall_impl; [exact Hother|]];
    by intros rc [_ ?].
Qed.

Lemma key_over_empty (S : list Z) : key_over S ∅.
Proof. intros f. set_solver. Qed.

Lemma key_over_symmetric_difference (S : list Z) (k1 k2 : key) :
  key_over S k1 -> key_over S k2 -> key_over S (symmetric_difference k1 k2).
Proof.
  intros H1 H2 f. unfold symmetric_difference.
  rewrite elem_of_union, !elem_of_difference. intros [[? _]|[? _]]; auto.
Qed.

Lemma value_over_nil (S : list Z) : value_over S [].
Proof. split; constructor. Qed.

Lemma value_over_unit (S : list Z) : value_over S unit.
Proof.
  split; [apply NoDup_singleton|]. apply Forall_singleton.
  split; [done|apply key_over_empty].
Qed.

Lemma eval_unit : eval unit = 1%R.
Proof.
  unfold eval, unit. simpl. rewrite Rational_to_R_1, key_value_empty. ring.
Qed.

Section mul_over.
Local Open Scope R_scope.
Variable S : list Z.
Hypothesis S_prime : Forall Z.prime S.

Lemma common_loop_value (l : list factor) :
  (forall f, f ∈ l -> exists p, f = Prime p /\ p ∈ S) ->
  forall coef, coef <> 0%Qc ->
    exists coef',
      foldM common_step l (coef, []) = Ok (coef', [])
      /\ coef' <> 0%Qc
      /\ Rational_to_R coef'
         = Rational_to_R coef * (factors_value l * factors_value l).
Proof.
  induction l as [|f l IH]; intros Hl coef Hcoef.
  - exists coef. repeat split; [done|]. simpl. ring.
  - destruct (Hl f) as (p & -> & Hp); [by left|].
    rewrite Forall_forall in S_prime. apply S_prime, Z.prime_ge_2 in Hp.
    destruct (IH (fun g Hg => Hl g ltac:(by right))
                (coef * Rational_of_int p)%Qc) as (coef' & Hloop & Hne & Hval).
    { intros [?|?]%Qcmult_integral; [done|].
      by apply (Rational_of_int_nonzero p); [lia|]. }
    exists coef'. repeat split; [done..|].
    rewrite Hval, Rational_to_R_mult, Rational_to_R_of_int. simpl.
    assert (sqrt (IZR p) * sqrt (IZR p) = IZR p) as Hsq
        by (apply sqrt_sqrt, IZR_le; lia).
    nra.
Qed.

Lemma mul_single_over mul (k1 k2 : key) (c1 c2 : Rational) :
  key_over S k1 -> key_over S k2 -> c1 <> 0%Qc -> c2 <> 0%Qc ->
  exists c,
    mul_single mul (k1, c1) (k2, c2) = Ok [(symmetric_difference k1 k2, c)]
    /\ c <> 0%Qc
    /\ Rational_to_R c * key_value (symmetric_difference k1 k2)
       = (Rational_to_R c1 * key_value k1) * (Rational_to_R c2 * key_value k2).
Proof.
  intros Hk1 Hk2 Hc1 Hc2.
  destruct (common_loop_value (elements (k1 ∩ k2))) with (coef := (c1 * c2)%Qc)
    as (c & Hloop & Hc & Hval).
  { intros f Hf%elem_of_elements. apply Hk1. set_solver. }
  { intros [?|?]%Qcmult_integral; done. }
  exists c. unfold mul_single. rewrite Hloop. split; [done|]. split; [done|].
  rewrite Hval, Rational_to_R_mult. fold (key_value (k1 ∩ k2)).
  transitivity (Rational_to_R c1 * Rational_to_R c2
                * (key_value k1 * key_value k2));
    [rewrite (key_value_mult k1 k2)|]; ring.
Qed.

Lemma mul_terms_over (fuel : nat) (t1 t2 : key * Rational) :
  t1.2 <> 0%Qc /\ key_over S t1.1 -> t2.2 <> 0%Qc /\ key_over S t2.1 ->
  exists p,
    mul_fuel (Datatypes.S fuel) (LCoQI_of_keys [t1]) (LCoQI_of_keys [t2]) = Ok p
    /\ value_over S p /\ eval p = term_value t1 * term_value t2.
Proof.
  destruct t1 as [k1 c1], t2 as [k2 c2]. intros [Hc1 Hk1] [Hc2 Hk2]. simpl in *.
  destruct (mul_single_over (mul_fuel fuel) k1 k2 c1 c2)
    as (c & Hmul & Hc & Hval); try done.
  exists [(symmetric_difference k1 k2, c)]. split; [exact Hmul|]. split.
  - split; [apply NoDup_singleton|]. apply Forall_singleton.
    split; [done|by apply key_over_symmetric_difference].
  - unfold eval, term_value. simpl. rewrite Hval. ring.
Qed.

Lemma mul_inner_over (fuel : nat) (t1 : key * Rational) (other : lcoqi) :
  t1.2 <> 0%Qc /\ key_over S t1.1 ->
  Forall (fun rc => rc.2 <> 0%Qc /\ key_over S rc.1) other ->
  forall result, value_over S result ->
    exists r,
      foldM (fun result t2 =>
               p ← mul_fuel (Datatypes.S fuel) (LCoQI_of_keys [t1])
                            (LCoQI_of_keys [t2]);
               Ok (LCoQI_add result p)) other result = Ok r
      /\ value_over S r /\ eval r = eval result + term_value t1 * eval other.
Proof.
  intros Ht1. induction 1 as [|t2 other Ht2 _ IH]; intros result Hresult.
  - exists result. repeat split; try apply Hresult. simpl. ring.
  - cbn [foldM].
    destruct (mul_terms_over fuel t1 t2 Ht1 Ht2) as (p & -> & Hp & Hval).
    cbn [mbind outcome_bind].
    destruct (IH (LCoQI_add result p)) as (r & Hr & Hover & Heval);
      [by apply value_over_merge|].
    exists r. split; [exact Hr|]. split; [done|].
    rewrite Heval, eval_add, Hval by apply Hresult.
    unfold term_value. simpl. ring.
Qed.

Lemma mul_general_over (fuel : nat) (self other : lcoqi) :
  Forall (fun rc => rc.2 <> 0%Qc /\ key_over S rc.1) self ->
  Forall (fun rc => rc.2 <> 0%Qc /\ key_over S rc.1) other ->
  exists r,
    mul_general (mul_fuel (Datatypes.S fuel)) self other = Ok r
    /\ value_over S r /\ eval r = eval self * eval other.
Proof.
  intros Hself Hother. unfold mul_general.
  assert (forall result, value_over S result ->
            exists r,
              foldM (fun result t1 =>
                       foldM (fun result t2 =>
                                p ← mul_fuel (Datatypes.S fuel)
                                             (LCoQI_of_keys [t1])
                                             (LCoQI_of_keys [t2]);
                                Ok (LCoQI_add result p)) other result)
                    self result = Ok r
              /\ value_over S r /\ eval r = eval result + eval self * eval other)
    as Hloop.
  { induction Hself as [|t1 self Ht1 _ IH]; intros result Hresult.
    - exists result. repeat split; try apply Hresult. simpl. ring.
    - cbn [foldM].
      destruct (mul_inner_over fuel t1 other Ht1 Hother result Hresult)
        as (r1 & -> & Hr1 & Hval1).
      cbn [mbind outcome_bind].
      destruct (IH r1 Hr1) as (r & Hr & Hover & Heval).
      exists r. split; [exact Hr|]. split; [done|].
      rewrite Heval, Hval1. unfold term_value. simpl. ring. }
  destruct (Hloop zero (value_over_nil S)) as (r & Hr & Hover & Heval).
  exists r. split; [exact Hr|]. split; [done|]. rewrite Heval. simpl. ring.
Qed.

(** The product of two values over [S] is a value over [S] that stands for
    the product of the two real numbers. *)
Lemma mul_over (self other : lcoqi) :
  value_over S self -> value_over S other ->
  exists r,
    LCoQI_mul self other = Ok r
    /\ value_over S r /\ eval r = eval self * eval other.
Proof.
  intros [_ Hself] [_ Hother]. unfold LCoQI_mul.
  destruct (mul_general_over 2 self other Hself Hother) as (r & Hr & Hover & Heval).
  change (mul_fuel 4 self other) with
    (match self, other with
     | [t1], [t2] => mul_single (mul_fuel 3) t1 t2
     | _, _ => mul_general (mul_fuel 3) self other
     end).
  destruct self as [|t1 [|t1' self]]; try by exists r.
  destruct other as [|t2 [|t2' other]]; try by exists r.
  rewrite Forall_singleton in Hself. rewrite Forall_singleton in Hother.
  destruct (mul_terms_over 3 t1 t2 Hself Hother) as (p & Hp & Hpover & Hpval).
  exists p. split; [|split; [done|]].
  - revert Hp. unfold LCoQI_of_keys, dict_of_items. simpl.
    by destruct t1, t2.
  - rewrite Hpval. unfold term_value. simpl. ring.
Qed.
End mul_over.

(** ** Linear independence of the square roots of products of primes *)

Section independence.
Local Open Scope R_scope.

Lemma eval_split (q : Z) (v : lcoqi) :
  eval v = eval (without_root q v) + eval (with_root q v).
Proof.
  unfold without_root, with_root.
  induction v as [|[k c] v IH]; [simpl; ring|].
  rewrite !filter_cons. simpl. rewrite IH.
  destruct (decide (Prime q ∈ k)).
  - rewrite decide_False by tauto. simpl. ring.
  - rewrite decide_True by done. simpl. ring.
Qed.

Lemma key_value_remove (q : Z) (k : key) :
  Prime q ∈ k -> key_value k = sqrt (IZR q) * key_value (k ∖ {[Prime q]}).
Proof.
  intros Hq. change (sqrt (IZR q)) with (factor_value (Prime q)).
  rewrite <- (key_value_singleton (Prime q)).
  rewrite <- key_value_disj_union by set_solver. f_equal.
  apply set_eq. intros f. rewrite elem_of_union, elem_of_difference,
    elem_of_singleton. destruct (decide (f = Prime q)); naive_solver.
Qed.

Lemma eval_strip (q : Z) (v : lcoqi) :
  Forall (fun rc => Prime q ∈ rc.1) v ->
  eval v = sqrt (IZR q) * eval (strip_root q v).
Proof.
  induction 1 as [|[k c] v Hk _ IH]; simpl; [ring|].
  rewrite IH, (key_value_remove q k) by done. ring.
Qed.

Lemma eval_decompose (q : Z) (v : lcoqi) :
  eval v
  = eval (without_root q v) + eval (strip_root q (with_root q v)) * sqrt (IZR q).
Proof.
  rewrite (eval_split q v) at 1. rewrite (eval_strip q (with_root q v)); [ring|].
  apply Forall_forall. by intros rc [? _]%list_elem_of_filter.
Qed.

Lemma key_over_nil (k : key) : key_over [] k -> k = ∅.
Proof.
  intros Hk. apply set_eq. intros f. split; [|set_solver].
  intros (p & _ & Hp)%Hk. by apply elem_of_nil in Hp.
Qed.

Lemma key_over_without (q : Z) (S : list Z) (k : key) :
  key_over (q :: S) k -> Prime q ∉ k -> key_over S k.
Proof.
  intros Hk Hq f Hf. destruct (Hk f Hf) as (p & -> & [->|Hp]%elem_of_cons);
    [done|eauto].
Qed.

Lemma key_over_remove (q : Z) (S : list Z) (k : key) :
  key_over (q :: S) k -> key_over S (k ∖ {[Prime q]}).
Proof.
  intros Hk f [Hf Hne]%elem_of_difference.
  destruct (Hk f Hf) as (p & -> & [->|Hp]%elem_of_cons); [|eauto].
  destruct Hne. by apply elem_of_singleton.
Qed.

Lemma value_over_without (q : Z) (S : list Z) (v : lcoqi) :
  value_over (q :: S) v -> value_over S (without_root q v).
Proof.
  intros [Hnd Hv]. split.
  - eapply sublist_NoDup; [exact Hnd|apply fmap_sublist, sublist_filter].
  - apply Forall_forall. intros rc [Hq Hrc]%list_elem_of_filter.
    rewrite Forall_forall in Hv. destruct (Hv rc Hrc) as [Hc Hk].
    split; [done|]. by apply (key_over_without q S).
Qed.

Lemma value_over_strip (q : Z) (S : list Z) (v : lcoqi) :
  value_over (q :: S) v -> value_over S (strip_root q (with_root q v)).
Proof.
  intros [Hnd Hv]. split.
  - unfold strip_root. rewrite <- list_fmap_compose.
    apply (NoDup_fmap_2_strong _ (with_root q v)).
    + intros [k1 c1] [k2 c2] [Hq1 H1]%list_elem_of_filter
        [Hq2 H2]%list_elem_of_filter Heq. simpl in *.
      assert (k1 = k2) as <-.
      { rewrite (union_difference_singleton_L (Prime q) k1) by done.
        rewrite (union_difference_singleton_L (Prime q) k2) by done.
        by rewrite Heq. }
      f_equal. apply (dict_get_elem v k1 c1 Hnd) in H1.
      apply (dict_get_elem v k1 c2 Hnd) in H2. congruence.
    + eapply sublist_NoDup; [|apply sublist_filter].
      by apply NoDup_fmap_1 in Hnd.
  - apply Forall_fmap, Forall_forall. intros rc [Hq Hrc]%list_elem_of_filter.
    rewrite Forall_forall in Hv. destruct (Hv rc Hrc) as [Hc Hk].
    split; [done|]. by apply key_over_remove.
Qed.

Lemma eval_span (S : list Z) : forall v,
  Forall (fun rc => key_over S rc.1) v -> span S (eval v).
Proof.
  induction S as [|q S IH]; intros v Hv.
  - induction Hv as [|[k c] v Hk%key_over_nil _ IHv]; [apply (span_0 [])|].
    simpl in *. subst k. destruct IHv as [q' Hq']. exists (this c + q')%Q.
    rewrite Q2R_plus, Hq', key_value_empty. unfold Rational_to_R. ring.
  - rewrite (eval_decompose q v).
    exists (eval (without_root q v)), (eval (strip_root q (with_root q v))).
    rewrite Forall_forall in Hv. repeat split; apply IH.
    + apply Forall_forall. intros rc [Hq Hrc]%list_elem_of_filter.
      apply (key_over_without q); [by apply Hv|done].
    + apply Forall_fmap, Forall_forall. intros rc [Hq Hrc]%list_elem_of_filter.
      by apply key_over_remove, Hv.
Qed.

Lemma value_over_span (S : list Z) (v : lcoqi) :
  value_over S v -> span S (eval v).
Proof.
  intros [_ Hv]. apply eval_span. eapply Forall_impl; [exact Hv|].
  by intros rc [_ ?].
Qed.

(** A canonical value over the primes of [S] that stands for the number 0 is
    the empty mapping. *)
Theorem eval_zero (S : list Z) :
  NoDup S -> Forall Z.prime S ->
  forall v, value_over S v -> eval v = 0 -> v = [].
Proof.
  induction S as [|q S IH]; intros HndS HS v Hv Heval.
  - destruct Hv as [Hnd Hv]. destruct v as [|[k c] v]; [done|].
    exfalso. inversion_clear Hv as [|? ? [Hc Hk%key_over_nil] Hv'].
    simpl in *. subst k. destruct v as [|[k' c'] v].
    + simpl in Heval. rewrite key_value_empty in Heval.
      apply (Rational_to_R_nonzero c Hc). lra.
    + inversion_clear Hv' as [|? ? [_ Hk'%key_over_nil] _]. simpl in *.
      subst k'. apply NoDup_cons in Hnd as [Hnd _]. apply Hnd. by left.
  - pose proof (value_over_without q S v Hv) as Hout.
    pose proof (value_over_strip q S v Hv) as Hin.
    rewrite (eval_decompose q v) in Heval.
    destruct (span_independent q S _ _ HndS HS (value_over_span _ _ Hout)
                (value_over_span _ _ Hin) Heval) as [Ha Hb].
    apply NoDup_cons in HndS as [_ HndS]. inversion_clear HS as [|? ? _ HS'].
    apply (IH HndS HS' _ Hout) in Ha. apply (IH HndS HS' _ Hin) in Hb.
    apply fmap_nil_inv in Hb.
    destruct v as [|rc v]; [done|]. exfalso.
    unfold without_root, with_root in *. rewrite filter_cons in Ha, Hb.
    destruct (decide (Prime q ∈ rc.1)); [done|].
    by rewrite decide_True in Ha.
Qed.
End independence.

(** ** Two canonical values that stand for the same number *)

Lemma coefficient_sub_loop (other : lcoqi) :
  NoDup other.*1 ->
  forall (self : lcoqi) (k : key),
    coefficient
      (foldl (fun result rc =>
                dict_set result rc.1
                  (default 0%Qc (dict_get result rc.1) - rc.2)%Qc) self other) k
    = (coefficient self k - coefficient other k)%Qc.
Proof.
  induction other as [|[k2 c2] other IH]; intros Hnd self k.
  - unfold coefficient at 3. simpl. ring.
  - rewrite fmap_cons in Hnd. cbn [fst] in Hnd.
    apply NoDup_cons in Hnd as [Hk2 Hnd]. cbn [foldl fst snd].
    rewrite IH by done. unfold coefficient. rewrite dict_get_set. simpl.
    destruct (decide (k2 = k)) as [->|Hne]; simpl; [|done].
    apply dict_get_None in Hk2. rewrite Hk2. simpl. ring.
Qed.

Lemma filter_nil_coefficient (d : lcoqi) (k : key) :
  filter (fun rc => Rational_bool rc.2 = true) d = [] -> coefficient d k = 0%Qc.
Proof.
  intros Hnil. unfold coefficient.
  destruct (dict_get d k) as [c|] eqn:Hk; [|done]. simpl.
  apply dict_get_Some_elem in Hk.
  destruct (decide (c = 0%Qc)) as [->|Hc]; [done|].
  assert ((k, c) ∈ filter (fun rc : key * Rational => Rational_bool rc.2 = true) d)
    as Hin by (apply list_elem_of_filter; split; [by apply Rational_bool_true|done]).
  rewrite Hnil in Hin. by apply elem_of_nil in Hin.
Qed.

Lemma sub_nil_coefficient (self other : lcoqi) (k : key) :
  NoDup self.*1 -> NoDup other.*1 ->
  LCoQI_sub self other = [] -> coefficient self k = coefficient other k.
Proof.
  intros Hself Hother. unfold LCoQI_sub, merge, LCoQI_of_keys.
  rewrite dict_of_items_id.
  - intros Hnil%(filter_nil_coefficient _ k).
    rewrite coefficient_sub_loop in Hnil by done.
    apply (f_equal (fun c => (c + coefficient other k)%Qc)) in Hnil.
    ring_simplify in Hnil. done.
  - eapply sublist_NoDup; [|apply fmap_sublist, sublist_filter].
    by apply (dict_fold_NoDup
                (fun d kv => (default 0%Qc (dict_get d kv.1) - kv.2)%Qc)).
Qed.

Lemma coefficient_lookup (v w : lcoqi) (k : key) :
  Forall (fun rc => rc.2 <> 0%Qc) v -> Forall (fun rc => rc.2 <> 0%Qc) w ->
  coefficient v k = coefficient w k -> dict_get v k = dict_get w k.
Proof.
  intros Hv Hw. unfold coefficient.
  assert (forall u c, Forall (fun rc : key * Rational => rc.2 <> 0%Qc) u ->
            dict_get u k = Some c -> c <> 0%Qc) as Hnz.
  { intros u c Hu Hc%dict_get_Some_elem. rewrite Forall_forall in Hu.
    by apply (Hu (k, c)). }
  destruct (dict_get v k) as [c|] eqn:Hcv, (dict_get w k) as [c'|] eqn:Hcw;
    simpl; intros Heq; subst; try done.
  - by destruct (Hnz v _ Hv Hcv).
  - by destruct (Hnz w _ Hw Hcw).
Qed.

(** Over the square roots of distinct primes a number has one canonical
    form. *)
Theorem eval_injective (S : list Z) (v w : lcoqi) :
  NoDup S -> Forall Z.prime S ->
  value_over S v -> value_over S w -> eval v = eval w ->
  coeffs_eqb v w = true.
Proof.
  intros HndS HS Hv Hw Heval.
  assert (LCoQI_sub v w = []) as Hsub.
  { apply (eval_zero S HndS HS); [by apply value_over_merge|].
    rewrite eval_sub by apply Hv. lra. }
  destruct Hv as [Hndv Hv], Hw as [Hndw Hw].
  apply dict_eqb_spec; try done.
  - intros c c'. unfold Rational_eqb. by rewrite bool_decide_eq_true.
  - intros k. apply coefficient_lookup.
    + eapply Forall_impl; [exact Hv|]. by intros rc [? _].
    + eapply Forall_impl; [exact Hw|]. by intros rc [? _].
    + by apply sub_nil_coefficient.
Qed.

(** ** Conjugation *)

Section conjugation.
Local Open Scope R_scope.

Lemma eval_nonzero (S : list Z) (v : lcoqi) :
  NoDup S -> Forall Z.prime S -> value_over S v -> v <> [] -> eval v <> 0.
Proof. intros HndS HS Hv Hne Heval. by apply Hne, (eval_zero S). Qed.

Lemma value_over_weaken (S T : list Z) (v : lcoqi) :
  (forall p, p ∈ T -> p ∈ S) -> value_over T v -> value_over S v.
Proof.
  intros Hsub [Hnd Hv]. split; [done|].
  eapply Forall_impl; [exact Hv|]. intros rc [Hc Hk]. split; [done|].
  intros f (p & -> & Hp)%Hk. eauto.
Qed.

Lemma complement_of_map (root : factor) (v : lcoqi) :
  NoDup v.*1 ->
  complement_of root v
  = (fun rc => (rc.1, if decide (root ∈ rc.1) then (- rc.2)%Qc else rc.2)) <$> v.
Proof.
  intros Hnd. unfold complement_of, LCoQI_of_keys. apply dict_of_items_id.
  rewrite <- list_fmap_compose.
  by replace (fst ∘ _) with (fst : key * Rational -> key).
Qed.

Lemma complement_of_over (S : list Z) (root : factor) (v : lcoqi) :
  value_over S v -> value_over S (complement_of root v).
Proof.
  intros [Hnd Hv]. rewrite complement_of_map by done. split.
  - rewrite <- list_fmap_compose.
    by replace (fst ∘ _) with (fst : key * Rational -> key).
  - apply Forall_fmap. eapply Forall_impl; [exact Hv|].
    intros [k c] [Hc Hk]. simpl in *. split; [|done].
    case_decide; [|done]. intros Heq. apply Hc.
    rewrite <- (Qcopp_involutive c), Heq. done.
Qed.

Lemma complement_of_nonempty (root : factor) (v : lcoqi) :
  NoDup v.*1 -> v <> [] -> complement_of root v <> [].
Proof.
  intros Hnd Hne. rewrite complement_of_map by done. by destruct v.
Qed.

Lemma eval_cons (rc : key * Rational) (v : lcoqi) :
  eval (rc :: v) = Rational_to_R rc.2 * key_value rc.1 + eval v.
Proof. reflexivity. Qed.

Lemma eval_complement (q : Z) (v : lcoqi) :
  NoDup v.*1 ->
  eval (complement_of (Prime q) v)
  = eval (without_root q v) - eval (strip_root q (with_root q v)) * sqrt (IZR q).
Proof.
  intros Hnd. rewrite complement_of_map by done. clear Hnd.
  unfold without_root, with_root, strip_root.
  induction v as [|[k c] v IH]; [simpl; ring|].
  rewrite fmap_cons, !filter_cons, eval_cons, IH. cbn [fst snd].
  destruct (decide (Prime q ∈ k)) as [Hk|Hk].
  - rewrite decide_False by tauto. rewrite fmap_cons, eval_cons. cbn [fst snd].
    rewrite Rational_to_R_opp, (key_value_remove q k Hk). ring.
  - rewrite decide_True by done. rewrite eval_cons. cbn [fst snd]. ring.
Qed.

(** A canonical value over [q :: S] that stands for a number of [span S]
    has no term with the factor √q. *)
Lemma value_over_span_inv (q : Z) (S : list Z) (v : lcoqi) :
  NoDup (q :: S) -> Forall Z.prime (q :: S) ->
  value_over (q :: S) v -> span S (eval v) -> value_over S v.
Proof.
  intros HndS HS Hv Hspan.
  pose proof (value_over_without q S v Hv) as Hout.
  pose proof (value_over_strip q S v Hv) as Hin.
  assert (eval (strip_root q (with_root q v)) = 0) as Hb.
  { pose proof (eval_decompose q v) as Hdec.
    apply (span_independent q S (eval (without_root q v) - eval v));
      [done|done| |by apply value_over_span|lra].
    apply span_plus; [by apply value_over_span|by apply span_opp]. }
  apply NoDup_cons in HndS as [_ HndS]. inversion_clear HS as [|? ? _ HS'].
  apply (eval_zero S HndS HS' _ Hin), fmap_nil_inv in Hb.
  destruct Hv as [Hnd Hv]. split; [done|].
  apply Forall_forall. intros rc Hrc. rewrite Forall_forall in Hv.
  destruct (Hv rc Hrc) as [Hc Hk]. split; [done|].
  apply (key_over_without q S); [done|]. intros Hq.
  assert (rc ∈ with_root q v) as Hin' by (by apply list_elem_of_filter).
  rewrite Hb in Hin'. by apply elem_of_nil in Hin'.
Qed.
End conjugation.

(** ** [inverse] over prime radicals *)

Section inverse_over.
Local Open Scope R_scope.
Variable S : list Z.
Hypothesis S_NoDup : NoDup S.
Hypothesis S_prime : Forall Z.prime S.

Lemma value_over_nil_inv (v : lcoqi) :
  value_over [] v -> v <> [] -> exists c, v = [(∅, c)] /\ c <> 0%Qc.
Proof.
  intros [Hnd Hv] Hne. destruct v as [|[k c] v]; [done|].
  inversion_clear Hv as [|? ? [Hc Hk%key_over_nil] Hv']. simpl in *. subst k.
  exists c. split; [|done]. f_equal. destruct v as [|[k' c'] v]; [done|].
  inversion_clear Hv' as [|? ? [_ Hk'%key_over_nil] _]. simpl in *. subst k'.
  apply NoDup_cons in Hnd as [Hnd _]. destruct Hnd. by left.
Qed.

Lemma conjugate_loop_over (T : list Z) :
  NoDup T -> Forall Z.prime T -> (forall p, p ∈ T -> p ∈ S) ->
  forall numerator denominator,
    value_over S numerator -> value_over T denominator -> denominator <> [] ->
    exists numerator' c,
      foldM conjugate_step (Prime <$> T) (numerator, denominator)
        = Ok (numerator', [(∅, c)])
      /\ c <> 0%Qc
      /\ value_over S numerator'
      /\ eval numerator' * eval denominator = eval numerator * Rational_to_R c.
Proof.
  induction T as [|p T IH]; intros HndT HT Hsub num den Hnum Hden Hne.
  - destruct (value_over_nil_inv den Hden Hne) as (c & -> & Hc).
    exists num, c. split; [done|]. split; [done|]. split; [done|].
    rewrite (eval_cons (∅, c) []). simpl. rewrite key_value_empty. ring.
  - pose proof (complement_of_over (p :: T) (Prime p) den Hden) as Hcover.
    destruct (mul_over (p :: T) HT den _ Hden Hcover)
      as (den1 & Hden1 & Hover1 & Heval1).
    destruct (mul_over S S_prime num (complement_of (Prime p) den) Hnum)
      as (num1 & Hnum1 & Hnover1 & Hneval1);
      [by apply (value_over_weaken S (p :: T))|].
    set (ec := eval (complement_of (Prime p) den)) in *.
    assert (eval den <> 0) as Hden0 by (by apply (eval_nonzero (p :: T))).
    assert (ec <> 0) as Hec0.
    { apply (eval_nonzero (p :: T)); try done.
      apply complement_of_nonempty; [apply Hden|done]. }
    assert (value_over T den1) as Hover1'.
    { apply (value_over_span_inv p); try done. rewrite Heval1. unfold ec.
      rewrite eval_complement by apply Hden. rewrite (eval_decompose p den) at 1.
      pose proof (value_over_span _ _ (value_over_without p T den Hden)) as Ha.
      pose proof (value_over_span _ _ (value_over_strip p T den Hden)) as Hb.
      set (a := eval (without_root p den)) in *.
      set (b := eval (strip_root p (with_root p den))) in *.
      inversion_clear HT as [|? ? Hp HT'].
      pose proof (primes_nonneg T HT') as HT0.
      assert (sqrt (IZR p) * sqrt (IZR p) = IZR p) as Hsq
          by (apply sqrt_sqrt, IZR_le; apply Z.prime_ge_2 in Hp; lia).
      replace ((a + b * sqrt (IZR p)) * (a - b * sqrt (IZR p)))
        with (a * a + - (IZR p * (b * b))) by nra.
      apply span_plus; [by apply span_mult|]. apply span_opp.
      apply span_mult; [done|apply span_IZR|by apply span_mult]. }
    assert (den1 <> []) as Hne1.
    { intros ->. simpl in Heval1. symmetry in Heval1.
      apply Rmult_integral in Heval1 as [?|?]; done. }
    apply NoDup_cons in HndT as [_ HndT].
    destruct (IH HndT (Forall_inv_tail HT) (fun q Hq => Hsub q ltac:(by right))
                num1 den1 Hnover1 Hover1' Hne1)
      as (num' & c & Hloop & Hc & Hnum' & Heq).
    exists num', c. split; [|split; [done|split; [done|]]].
    + rewrite fmap_cons. cbn [foldM].
      change (conjugate_step (num, den) (Prime p)) with
        (denominator' ← LCoQI_mul den (complement_of (Prime p) den);
         numerator' ← LCoQI_mul num (complement_of (Prime p) den);
         Ok (numerator', denominator')).
      rewrite Hden1. cbn [mbind outcome_bind]. rewrite Hnum1.
      cbn [mbind outcome_bind]. exact Hloop.
    + rewrite Heval1, Hneval1 in Heq. apply (Rmult_eq_reg_r ec); [|done].
      transitivity (eval num' * (eval den * ec)); [ring|]. rewrite Heq. ring.
Qed.

Lemma roots_over (a : lcoqi) :
  value_over S a ->
  exists T,
    elements (⋃ a.*1) = Prime <$> T
    /\ NoDup T /\ (forall p, p ∈ T -> p ∈ S) /\ value_over T a.
Proof.
  intros [Hnd Ha].
  assert (forall f, f ∈ elements (⋃ a.*1) ->
            exists k p, k ∈ a.*1 /\ f ∈ k /\ f = Prime p /\ p ∈ S) as Hroots.
  { intros f (k & Hk & Hf)%elem_of_elements%elem_of_union_list.
    pose proof Hk as ([k' c] & -> & Hkc)%list_elem_of_fmap.
    rewrite Forall_forall in Ha. destruct (Ha _ Hkc) as [_ Hover].
    destruct (Hover f Hf) as (p & -> & Hp). by exists k', p. }
  exists (factor_arg <$> elements (⋃ a.*1)). split; [|split; [|split]].
  - rewrite <- list_fmap_compose. rewrite <- (list_fmap_id (elements _)) at 1.
    apply list_fmap_ext. intros i f Hf%list_elem_of_lookup_2.
    by destruct (Hroots f Hf) as (_ & p & _ & _ & -> & _).
  - apply NoDup_fmap_2_strong; [|apply NoDup_elements].
    intros f g Hf Hg Heq.
    destruct (Hroots f Hf) as (_ & p & _ & _ & -> & _).
    destruct (Hroots g Hg) as (_ & p' & _ & _ & -> & _). simpl in Heq. by subst.
  - intros p (f & -> & Hf)%list_elem_of_fmap.
    by destruct (Hroots f Hf) as (_ & p' & _ & _ & -> & ?).
  - split; [done|]. apply Forall_forall. intros [k c] Hkc.
    rewrite Forall_forall in Ha. destruct (Ha _ Hkc) as [Hc Hover].
    split; [done|]. intros f Hf. destruct (Hover f Hf) as (p & -> & Hp).
    exists p. split; [done|]. apply list_elem_of_fmap. exists (Prime p).
    split; [done|]. apply elem_of_elements, elem_of_union_list.
    exists k. split; [|done]. apply list_elem_of_fmap. by exists (k, c).
Qed.

Lemma inverse_S (fuel : nat) (self : lcoqi) :
  inverse (Datatypes.S fuel) self
  = match rational_coefficient self with
    | Some coef => q ← Rational_truediv 1%Qc coef; LCoQI_init [(RInt 1, q)]
    | None =>
        roots ← reduce_union (fst <$> self);
        '(numerator, denominator) ←
          foldM conjugate_step (elements roots) (unit, self);
        inv ← inverse fuel denominator;
        LCoQI_mul numerator inv
    end.
Proof. reflexivity. Qed.

Lemma inverse_rational (fuel : nat) (c : Rational) :
  c <> 0%Qc -> inverse (Datatypes.S fuel) [(∅, c)] = Ok [(∅, (1 / c)%Qc)].
Proof.
  intros Hc. cbn [inverse rational_coefficient]. rewrite decide_True by done.
  unfold Rational_truediv. by rewrite decide_False by done.
Qed.


(** [inverse] of a nonzero value over prime radicals returns, after at most
    one recursive call, a value that stands for the reciprocal. *)
Lemma inverse_over (fuel : nat) (a : lcoqi) :
  value_over S a -> a <> [] ->
  exists r,
    inverse (Datatypes.S (Datatypes.S fuel)) a = Ok r
    /\ value_over S r /\ eval r = / eval a.
Proof.
  intros Ha Hne.
  assert (forall c : Rational, c <> 0%Qc ->
            value_over S [(∅, (1 / c)%Qc)]
            /\ eval [(∅, (1 / c)%Qc)] = / Rational_to_R c) as Hrat.
  { intros c Hc. split.
    - split; [apply NoDup_singleton|]. apply Forall_singleton.
      split; [|apply key_over_empty]. simpl.
      intros Heq%(f_equal Rational_to_R).
      rewrite Rational_to_R_inv, Rational_to_R_0 in Heq by done.
      by apply Rinv_neq_0_compat in Heq; [|apply Rational_to_R_nonzero].
    - rewrite eval_cons. simpl. rewrite key_value_empty, Rational_to_R_inv by done.
      ring. }
  destruct (rational_coefficient a) as [coef|] eqn:Hcoef.
  - assert (a = [(∅, coef)]) as ->.
    { destruct a as [|[k c] [|? ?]]; try done. simpl in Hcoef.
      case_decide; [|done]. by simplify_eq. }
    assert (coef <> 0%Qc) as Hc.
    { destruct Ha as [_ Ha]. by apply Forall_singleton in Ha as [? _]. }
    exists [(∅, (1 / coef)%Qc)]. destruct (Hrat coef Hc) as [Hover Heval].
    split; [by apply inverse_rational|]. split; [done|].
    rewrite Heval, eval_cons. simpl. rewrite key_value_empty. f_equal. ring.
  - destruct (roots_over a Ha) as (T & Hroots & HndT & Hsub & HaT).
    assert (Forall Z.prime T) as HT.
    { apply Forall_forall. intros p Hp%Hsub. rewrite Forall_forall in S_prime.
      by apply S_prime. }
    destruct (conjugate_loop_over T HndT HT Hsub unit a (value_over_unit S) HaT Hne)
      as (num & c & Hloop & Hc & Hnum & Heq).
    destruct (Hrat c Hc) as [Hover Heval].
    destruct (mul_over S S_prime num [(∅, (1 / c)%Qc)] Hnum Hover)
      as (r & Hr & Hrover & Hreval).
    exists r. split; [|split; [done|]].
    + rewrite inverse_S, Hcoef. destruct a as [|t a]; [done|].
      rewrite fmap_cons, reduce_union_union_list. cbn [mbind outcome_bind].
      rewrite <- fmap_cons, Hroots, Hloop. cbn [mbind outcome_bind].
      rewrite inverse_rational by done. exact Hr.
    + rewrite Hreval, Heval. rewrite eval_unit in Heq.
      pose proof (eval_nonzero S a S_NoDup S_prime Ha Hne) as Ha0.
      pose proof (Rational_to_R_nonzero c Hc) as Hc0.
      apply (Rmult_eq_reg_r (eval a)); [|done].
      rewrite Rinv_l by done. rewrite Rmult_assoc, (Rmult_comm (/ _)).
      rewrite <- Rmult_assoc, Heq. field. done.
Qed.
End inverse_over.

(** ** The inverse law *)

Lemma prime_radicals_over (v : lcoqi) :
  prime_radicals v ->
  exists S, NoDup S /\ Forall Z.prime S /\ value_over S v.
Proof.
  intros [Hnd Hv].
  assert (forall f, f ∈ elements (⋃ v.*1) -> exists p, f = Prime p /\ Z.prime p)
    as Hroots.
  { intros f (k & Hk & Hf)%elem_of_elements%elem_of_union_list.
    apply list_elem_of_fmap in Hk as ([k' c] & -> & Hkc).
    rewrite Forall_forall in Hv. destruct (Hv _ Hkc) as [_ Hover]. eauto. }
  exists (factor_arg <$> elements (⋃ v.*1)). split; [|split; [|split; [done|]]].
  - apply NoDup_fmap_2_strong; [|apply NoDup_elements].
    intros f g Hf Hg Heq.
    destruct (Hroots f Hf) as (p & -> & _), (Hroots g Hg) as (p' & -> & _).
    simpl in Heq. by subst.
  - apply Forall_fmap, Forall_forall. intros f Hf.
    by destruct (Hroots f Hf) as (p & -> & ?).
  - apply Forall_forall. intros [k c] Hkc.
    rewrite Forall_forall in Hv. destruct (Hv _ Hkc) as [Hc Hover].
    split; [done|]. intros f Hf. destruct (Hover f Hf) as (p & -> & Hp).
    exists p. split; [done|]. apply list_elem_of_fmap. exists (Prime p).
    split; [done|]. apply elem_of_elements, elem_of_union_list.
    exists k. split; [|done]. apply list_elem_of_fmap. by exists (k, c).
Qed.





(** ** Integer powers *)

Section pow_over.
Local Open Scope R_scope.
Variable S : list Z.
Hypothesis S_NoDup : NoDup S.
Hypothesis S_prime : Forall Z.prime S.

Lemma pow_loop_over (n : positive) :
  forall result factor,
    value_over S result -> value_over S factor ->
    exists r,
      pow_loop n result factor = Ok r
      /\ value_over S r
      /\ eval r = eval result * eval factor ^ Pos.to_nat n.
Proof.
  induction n as [n IH|n IH|]; intros result factor Hresult Hfactor; cbn [pow_loop].
  - destruct (mul_over S S_prime result factor Hresult Hfactor)
      as (result' & -> & Hr & Hreval).
    destruct (mul_over S S_prime factor factor Hfactor Hfactor)
      as (factor' & -> & Hf & Hfeval).
    cbn [mbind outcome_bind].
    destruct (IH result' factor' Hr Hf) as (r & Hloop & Hover & Heval).
    exists r. split; [done|]. split; [done|].
    rewrite Heval, Hreval, Hfeval, Pos2Nat.inj_xI, <- pow_sqr. simpl. ring.
  - destruct (mul_over S S_prime factor factor Hfactor Hfactor)
      as (factor' & -> & Hf & Hfeval).
    cbn [mbind outcome_bind].
    destruct (IH result factor' Hresult Hf) as (r & Hloop & Hover & Heval).
    exists r. split; [done|]. split; [done|].
    by rewrite Heval, Hfeval, Pos2Nat.inj_xO, <- pow_sqr.
  - destruct (mul_over S S_prime result factor Hresult Hfactor)
      as (result' & -> & Hr & Hreval).
    destruct (mul_over S S_prime factor factor Hfactor Hfactor)
      as (factor' & -> & Hf & Hfeval).
    cbn [mbind outcome_bind]. exists result'. split; [done|]. split; [done|].
    rewrite Hreval. simpl. ring.
Qed.

(** [a ** power] returns a value that stands for the integer power of the
    number [a] stands for. *)
Lemma pow_over (fuel : nat) (a : lcoqi) (power : Z) :
  value_over S a -> a <> [] ->
  exists r,
    LCoQI_pow (Datatypes.S (Datatypes.S fuel)) a power = Ok r
    /\ value_over S r /\ eval r = powerRZ (eval a) power.
Proof.
  intros Ha Hne. unfold LCoQI_pow.
  pose proof (eval_nonzero S a S_NoDup S_prime Ha Hne) as Ha0.
  destruct power as [|n|n];
    [change (Z.abs 0) with 0%Z|change (Z.abs (Z.pos n)) with (Z.pos n)
    |change (Z.abs (Z.neg n)) with (Z.pos n)]; cbv iota.
  - cbn [mbind outcome_bind]. case_decide; [|lia].
    exists unit. split; [done|]. split; [apply value_over_unit|].
    by rewrite eval_unit.
  - destruct (pow_loop_over n unit a (value_over_unit S) Ha)
      as (r & -> & Hover & Heval).
    cbn [mbind outcome_bind]. case_decide; [|lia].
    exists r. split; [done|]. split; [done|].
    rewrite Heval, eval_unit. simpl. ring.
  - destruct (pow_loop_over n unit a (value_over_unit S) Ha)
      as (r & -> & Hover & Heval).
    cbn [mbind outcome_bind]. case_decide; [lia|].
    rewrite eval_unit, Rmult_1_l in Heval.
    assert (r <> []) as Hr.
    { intros ->. simpl in Heval. symmetry in Heval. by apply pow_nonzero in Heval. }
    destruct (inverse_over S S_NoDup S_prime fuel r Hover Hr)
      as (i & Hi & Hiover & Hieval).
    exists i. split; [done|]. split; [done|]. rewrite Hieval, Heval. done.
Qed.
End pow_over.




(** ** Values built by the constructor from square-free integers *)

Lemma trial_loop_primes (len : nat) :
  forall k x fs y fs',
    2 <= k -> 0 < x -> Forall Z.prime fs ->
    (forall d, 2 <= d < k -> ~ (d | x)) ->
    foldM trial_step (seqZ k (Z.of_nat len)) (x, fs) = Ok (y, fs') ->
    0 < y <= x /\ Forall Z.prime fs'
    /\ (forall d, 2 <= d < k + Z.of_nat len -> ~ (d | y)).
Proof.
  induction len as [|len IH]; intros k x fs y fs' Hk Hx Hfs Hsmall.
  - rewrite seqZ_nil by lia. intros [= <- <-]. repeat split; try done; try lia.
    intros d Hd. apply Hsmall. lia.
  - rewrite seqZ_cons by lia. cbn [foldM].
    replace (Z.pred (Z.of_nat (Datatypes.S len))) with (Z.of_nat len) by lia.
    destruct (trial_step (x, fs) k) as [[x1 fs1]| |] eqn:Hstep;
      cbn [mbind outcome_bind]; try done.
    intros Hloop. unfold trial_step in Hstep.
    destruct (decide (x mod k = 0)) as [Hdiv|Hdiv].
    + destruct (decide ((x `div` k) mod k = 0)) as [Hdiv2|Hdiv2]; [done|].
      injection Hstep as <- <-.
      apply Z.mod_divide in Hdiv as [m Hm]; [|lia].
      assert (x `div` k = m) as Hquot by (subst x; apply Z_div_mult_full; lia).
      rewrite Hquot in *. assert (0 < m <= x) as Hmx by nia.
      apply IH in Hloop as (Hy & Hfs' & Hsmall').
      * split; [lia|]. split; [done|]. intros d Hd. apply Hsmall'. lia.
      * lia.
      * lia.
      * apply Forall_app. split; [done|]. apply Forall_singleton.
        split; [lia|]. intros d Hd [e He]. apply (Hsmall d); [lia|].
        exists (e * m). lia.
      * intros d Hd. destruct (decide (d = k)) as [->|Hne].
        -- intros Hdm. apply Hdiv2. by apply Z.mod_divide; [lia|].
        -- intros [e He]. apply (Hsmall d); [lia|]. exists (e * k). lia.
    + injection Hstep as <- <-.
      apply IH in Hloop as (Hy & Hfs' & Hsmall'); try done; try lia.
      * split; [lia|]. split; [done|]. intros d Hd. apply Hsmall'. lia.
      * intros d Hd. destruct (decide (d = k)) as [->|Hne].
        -- intros Hdx. apply Hdiv. by apply Z.mod_divide; [lia|].
        -- apply Hsmall. lia.
Qed.

(** The factors that [normalize_root] records for a positive integer are
    primes. *)
Lemma normalize_int_primes (n : Z) (fs : list Z) :
  0 < n -> normalize_int n = Ok fs -> Forall Z.prime fs.
Proof.
  intros Hn. unfold normalize_int. case_decide; [lia|].
  destruct (foldM trial_step (trial_range n) (n, [])) as [[y fs']| |] eqn:Hloop;
    simpl; try done.
  unfold trial_range in Hloop.
  pose proof (Z.sqrt_nonneg n) as Hs0.
  destruct (decide (Z.sqrt n = 0)) as [Hs|Hs].
  { pose proof (Z.sqrt_spec n ltac:(lia)) as Hsp. rewrite Hs in Hsp. simpl in Hsp. lia. }
  replace (Z.sqrt n - 1) with (Z.of_nat (Z.to_nat (Z.sqrt n - 1))) in Hloop by lia.
  apply trial_loop_primes in Hloop as (Hy & Hfs & Hsmall);
    [|lia|lia|constructor|intros d Hd; lia].
  intros [= <-]. case_decide as Hy1; [done|].
  apply Forall_app. split; [done|]. apply Forall_singleton.
  split; [lia|]. intros d Hd [e He].
  assert (2 <= e) as He2 by (destruct (decide (e <= 1)); [nia|lia]).
  assert (forall b, 2 <= b -> b * b <= n -> b < 2 + Z.of_nat (Z.to_nat (Z.sqrt n - 1)))
    as Hle.
  { intros b Hb Hbb. apply Z.sqrt_le_square in Hbb; lia. }
  destruct (decide (d <= e)).
  - apply (Hsmall d); [split; [lia|apply Hle; [lia|nia]]|]. by exists e.
  - apply (Hsmall e); [split; [lia|apply Hle; [lia|nia]]|]. exists d. lia.
Qed.

Lemma LCoQI_init_prime_radicals (coeffs : list (raw_root * Rational)) (v : lcoqi) :
  Forall (fun rc => rc.2 <> 0%Qc /\ exists n, rc.1 = RInt n /\ 0 < n) coeffs ->
  LCoQI_init coeffs = Ok v -> prime_radicals v.
Proof.
  intros Hcoeffs. unfold LCoQI_init.
  destruct (mapM _ coeffs) as [items| |] eqn:Hitems; simpl; try done.
  intros [= <-]. split; [apply dict_of_items_NoDup|].
  apply dict_of_items_Forall. apply mapM_Ok in Hitems.
  induction Hitems as [|[r c] [k c'] coeffs items Hrc _ IH]; [constructor|].
  apply Forall_cons in Hcoeffs as [[Hc (n & Hr & Hn)] Hcoeffs'].
  constructor; [|by apply IH]. simpl in *. subst r.
  cbn [normalize_root] in Hrc.
  destruct (normalize_int n) as [fs| |] eqn:Hfs; simpl in Hrc; try done.
  injection Hrc as <- <-. split; [done|].
  intros f Hf. apply elem_of_list_to_set, list_elem_of_fmap in Hf as (p & -> & Hp).
  exists p. split; [done|].
  apply normalize_int_primes in Hfs; [|done].
  rewrite Forall_forall in Hfs. by apply Hfs.
Qed.

(** ** Examples *)

(** √6 · √6 = 6. *)
Example square_root_collapse :
  (v ← LCoQI_init [(RInt 6, 1%Qc)]; r ← LCoQI_mul v v;
   Ok (coeffs_eqb r [(∅, Rational_of_int 6)]))
  = Ok true.
Proof. vm_compute. reflexivity. Qed.

(** The nested radical √(2+√2) has an inverse as well: one conjugation
    leaves -2 - √2, which the recursive call inverts. *)
Example nested_radical_inverse :
  (v ← LCoQI_init [(RNested 2, 1%Qc)];
   inv ← inverse 3 v;
   r ← LCoQI_mul v inv;
   Ok (coeffs_eqb r unit))
  = Ok true.
Proof. vm_compute. reflexivity. Qed.

(** [x ** 2 * x ** -2] is the rational unit for x = √(2+√2). *)
Example nested_radical_powers :
  (x ← LCoQI_init [(RNested 2, 1%Qc)];
   p ← LCoQI_pow 3 x 2;
   q ← LCoQI_pow 3 x (-2);
   r ← LCoQI_mul p q;
   Ok (coeffs_eqb r unit))
  = Ok true.
Proof. vm_compute. reflexivity. Qed.

(** * Further properties *)

(** ** [normalize_root] factorises *)

Lemma trial_loop_product (len : nat) :
  forall k x fs y fs',
    2 <= k -> 0 < x ->
    foldM trial_step (seqZ k (Z.of_nat len)) (x, fs) = Ok (y, fs') ->
    exists gs,
      fs' = fs ++ gs /\ list_prod gs * y = x
      /\ Forall (fun p => k <= p < k + Z.of_nat len) gs /\ NoDup gs.
Proof.
  induction len as [|len IH]; intros k x fs y fs' Hk Hx.
  - rewrite seqZ_nil by lia. intros [= <- <-]. exists [].
    rewrite app_nil_r. repeat split; [simpl; lia|constructor|constructor].
  - rewrite seqZ_cons by lia. cbn [foldM].
    replace (Z.pred (Z.of_nat (Datatypes.S len))) with (Z.of_nat len) by lia.
    destruct (trial_step (x, fs) k) as [[x1 fs1]| |] eqn:Hstep;
      cbn [mbind outcome_bind]; try done.
    intros Hloop. unfold trial_step in Hstep.
    destruct (decide (x mod k = 0)) as [Hdiv|Hdiv].
    + destruct (decide ((x `div` k) mod k = 0)) as [Hdiv2|Hdiv2]; [done|].
      injection Hstep as <- <-.
      apply Z.mod_divide in Hdiv as [m Hm]; [|lia].
      assert (x `div` k = m) as Hquot by (subst x; apply Z_div_mult_full; lia).
      rewrite Hquot in *. assert (0 < m) as Hm0 by nia.
      apply IH in Hloop as (gs & -> & Hprod & Hgs & Hnd); [|lia|lia].
      exists (k :: gs). rewrite <- app_assoc. split; [done|]. split; [simpl; lia|].
      split.
      * constructor; [lia|]. eapply Forall_impl; [exact Hgs|]. intros p Hp; simpl in *; lia.
      * apply NoDup_cons. split; [|done]. intros Hin.
        rewrite Forall_forall in Hgs. apply Hgs in Hin. lia.
    + injection Hstep as <- <-.
      apply IH in Hloop as (gs & -> & Hprod & Hgs & Hnd); [|lia|lia].
      exists gs. repeat split; try done.
      eapply Forall_impl; [exact Hgs|]. intros p Hp; simpl in *; lia.
Qed.

Lemma trial_loop_raise (n : Z) (len : nat) :
  forall k x fs e,
    2 <= k -> 0 < x -> (x | n) ->
    (forall d, 2 <= d < k -> ~ (d | x)) ->
    foldM trial_step (seqZ k (Z.of_nat len)) (x, fs) = Raise e ->
    exists p, Z.prime p /\ (p * p | n).
Proof.
  induction len as [|len IH]; intros k x fs e Hk Hx Hxn Hsmall.
  - by rewrite seqZ_nil by lia.
  - rewrite seqZ_cons by lia. cbn [foldM].
    replace (Z.pred (Z.of_nat (Datatypes.S len))) with (Z.of_nat len) by lia.
    assert (forall m, x = m * k -> Z.prime k) as Hprime.
    { intros m Hm. split; [lia|]. intros d Hd [c Hc]. apply (Hsmall d); [lia|].
      exists (c * m). lia. }
    destruct (trial_step (x, fs) k) as [[x1 fs1]|e1|] eqn:Hstep;
      cbn [mbind outcome_bind]; try done; unfold trial_step in Hstep.
    + intros Hloop. destruct (decide (x mod k = 0)) as [Hdiv|Hdiv].
      * destruct (decide ((x `div` k) mod k = 0)) as [Hdiv2|Hdiv2]; [done|].
        injection Hstep as <- <-.
        apply Z.mod_divide in Hdiv as [m Hm]; [|lia].
        assert (x `div` k = m) as Hquot by (subst x; apply Z_div_mult_full; lia).
        rewrite Hquot in *. assert (0 < m) as Hm0 by nia.
        apply IH in Hloop; [done|lia|lia| |].
        -- destruct Hxn as [c Hc]. exists (c * k). lia.
        -- intros d Hd. destruct (decide (d = k)) as [->|Hne].
           ++ intros Hdm. apply Hdiv2. by apply Z.mod_divide; [lia|].
           ++ intros [c Hc]. apply (Hsmall d); [lia|]. exists (c * k). lia.
      * injection Hstep as <- <-. apply IH in Hloop; [done|lia|lia|done|].
        intros d Hd. destruct (decide (d = k)) as [->|Hne].
        -- intros Hdx. apply Hdiv. by apply Z.mod_divide; [lia|].
        -- apply Hsmall. lia.
    + intros _. destruct (decide (x mod k = 0)) as [Hdiv|Hdiv]; [|done].
      destruct (decide ((x `div` k) mod k = 0)) as [Hdiv2|Hdiv2]; [|done].
      apply Z.mod_divide in Hdiv as [m Hm]; [|lia].
      assert (x `div` k = m) as Hquot by (subst x; apply Z_div_mult_full; lia).
      rewrite Hquot in *. exists k. split; [by apply (Hprime m)|].
      apply Z.mod_divide in Hdiv2 as [m' Hm']; [|lia].
      destruct Hxn as [c Hc]. exists (c * m'). lia.
Qed.

Lemma trial_range_nat (n : Z) :
  0 < n -> trial_range n = seqZ 2 (Z.of_nat (Z.to_nat (Z.sqrt n - 1))).
Proof.
  intros Hn. unfold trial_range. f_equal.
  pose proof (Z.sqrt_nonneg n) as Hs0.
  destruct (decide (Z.sqrt n = 0)) as [Hs|Hs]; [|lia].
  pose proof (Z.sqrt_spec n ltac:(lia)) as Hsp. rewrite Hs in Hsp.
  simpl in Hsp. lia.
Qed.

(** X1: for a positive integer that [normalize_root] accepts, the recorded
    factors are pairwise distinct primes whose product is the integer, and
    the key holds exactly the primes that divide it. *)
Theorem normalize_root_factorisation (n : Z) (k : key) :
  0 < n -> normalize_root (RInt n) = Ok k ->
  (exists fs,
      normalize_int n = Ok fs /\ k = list_to_set (Prime <$> fs)
      /\ Forall Z.prime fs /\ NoDup fs /\ list_prod fs = n)
  /\ (forall f, f ∈ k <-> exists p, f = Prime p /\ Z.prime p /\ (p | n)).
Proof.
  intros Hn. cbn [normalize_root].
  destruct (normalize_int n) as [fs| |] eqn:Hfs; simpl; try done.
  intros [= <-].
  pose proof (normalize_int_primes n fs Hn Hfs) as Hprimes.
  assert (NoDup fs /\ list_prod fs = n) as [Hnd Hprod].
  { revert Hfs. unfold normalize_int. case_decide; [lia|].
    rewrite trial_range_nat by done.
    destruct (foldM trial_step _ (n, [])) as [[y gs]| |] eqn:Hloop;
      simpl; try done.
    pose proof Hloop as Hloop'.
    apply trial_loop_product in Hloop as (gs' & -> & Hprod & Hgs & Hnd);
      [|lia|lia].
    apply trial_loop_primes in Hloop' as (Hy & _ & Hsmall);
      [|lia|lia|constructor|intros d Hd; lia].
    simpl in *. intros [= <-]. case_decide as Hy1.
    - split; [done|]. subst y. lia.
    - split.
      + apply NoDup_app. split; [done|]. split; [|apply NoDup_singleton].
        intros p Hp ->%list_elem_of_singleton.
        rewrite Forall_forall in Hgs. apply Hgs in Hp.
        apply (Hsmall y); [lia|]. by exists 1; lia.
      + clear -Hprod. induction gs' as [|g gs IH] in n, Hprod |- *; simpl in *;
          [lia|]. rewrite (IH (list_prod gs * y)); [|done]. lia. }
  split; [by exists fs|].
  intros f. rewrite elem_of_list_to_set, list_elem_of_fmap. split.
  - intros (p & -> & Hp). exists p. split; [done|].
    rewrite Forall_forall in Hprimes. split; [by apply Hprimes|].
    rewrite <- Hprod. clear -Hp.
    induction Hp as [p fs|p q fs _ IH]; simpl.
    + by exists (list_prod fs); lia.
    + destruct IH as [c Hc]. exists (q * c). lia.
  - intros (p & -> & Hp & Hdiv). exists p. split; [done|].
    apply prime_divide_list_prod; try done. by rewrite Hprod.
Qed.

Lemma normalize_root_factorisation_witness :
  exists fs,
    normalize_int 30 = Ok fs /\ Forall Z.prime fs /\ NoDup fs /\ list_prod fs = 30.
Proof.
  assert (0 < 30) as Hn by lia.
  assert (normalize_root (RInt 30) = Ok {[Prime 2; Prime 3; Prime 5]}) as Hk.
  { vm_compute. f_equal. }
  destruct (normalize_root_factorisation 30 _ Hn Hk) as [(fs & Hfs & _ & H) _].
  by exists fs.
Defined.

(** X2: on the positive integers [normalize_root] accepts exactly the
    square-free ones: it returns a key if and only if no square of a prime
    divides the integer. *)
Theorem normalize_root_accepts_square_free (n : Z) :
  0 < n ->
  returns (normalize_root (RInt n))
  <-> forall p, Z.prime p -> ~ (p * p | n).
Proof.
  intros Hn. split.
  - intros [k Hk] p Hp Hdiv. cbn [normalize_root] in Hk.
    by rewrite (normalize_int_not_square_free n p) in Hk.
  - intros Hfree. cbn [normalize_root]. unfold normalize_int.
    case_decide; [lia|]. rewrite trial_range_nat by done.
    destruct (foldM trial_step _ (n, [])) as [[y fs]|e|] eqn:Hloop; simpl.
    + by eexists.
    + apply (trial_loop_raise n) in Hloop as (p & Hp & Hdiv);
        [|lia|lia|done|intros d Hd; lia].
      by destruct (Hfree p Hp).
    + destruct (trial_loop_outcome
                  (seqZ 2 (Z.of_nat (Z.to_nat (Z.sqrt n - 1)))) (n, []))
        as [[st Hst]|Hst]; congruence.
Qed.

Lemma normalize_root_accepts_square_free_witness :
  returns (normalize_root (RInt 30)) <-> forall p, Z.prime p -> ~ (p * p | 30).
Proof.
  assert (0 < 30) as Hn by lia.
  exact (normalize_root_accepts_square_free 30 Hn).
Defined.

(** ** The constructor *)

Section dict_fold_facts.
Context {K V : Type} `{EqDecision K}.
Implicit Types (d items : list (K * V)).

Lemma dict_fold_keys items : forall d k,
  k ∈ (foldl (fun d kv => dict_set d kv.1 kv.2) d items).*1
  <-> k ∈ d.*1 \/ k ∈ items.*1.
Proof.
  induction items as [|[k0 v0] items IH]; intros d k; simpl.
  - rewrite elem_of_nil. tauto.
  - rewrite IH, dict_set_keys, elem_of_cons.
    destruct (decide (k0 ∈ d.*1)) as [Hin|Hout].
    + split; [tauto|]. intros [?|[->|?]]; tauto.
    + rewrite elem_of_app, list_elem_of_singleton. tauto.
Qed.

Lemma dict_fold_get_other items : forall d k,
  k ∉ items.*1 ->
  dict_get (foldl (fun d kv => dict_set d kv.1 kv.2) d items) k = dict_get d k.
Proof.
  induction items as [|[k0 v0] items IH]; intros d k Hk; simpl; [done|].
  rewrite fmap_cons in Hk. apply not_elem_of_cons in Hk as [Hne Hk].
  rewrite IH, dict_get_set by done. simpl in Hne. by rewrite decide_False.
Qed.

Lemma dict_of_items_last items1 items2 k v :
  k ∉ items2.*1 ->
  dict_get (dict_of_items (items1 ++ (k, v) :: items2)) k = Some v.
Proof.
  intros Hk. unfold dict_of_items. rewrite foldl_app. simpl.
  rewrite dict_fold_get_other, dict_get_set by done. by rewrite decide_True.
Qed.
End dict_fold_facts.

Lemma mapM_returns {A B} (f : A -> outcome B) (l : list A) :
  (forall x, settles (f x)) ->
  returns (mapM f l) <-> forall x, x ∈ l -> returns (f x).
Proof.
  intros Hf. induction l as [|x l IH]; simpl.
  - split; [by intros _ x ?%elem_of_nil|by eexists].
  - destruct (Hf x) as [[y Hy]|Hy]; rewrite Hy; simpl.
    + split.
      * intros [ys Hys] x' [->|Hx']%elem_of_cons; [by eexists|].
        apply IH; [|done]. destruct (mapM f l); try done. by eexists.
      * intros Hall. destruct IH as [_ [ys ->]];
          [intros x' Hx'; apply Hall; by right|]. by eexists.
    + split; [by intros [? ?]|]. intros Hall.
      destruct (Hall x) as [y Hy']; [by left|]. congruence.
Qed.

Lemma mapM_app_Ok {A B} (f : A -> outcome B) (l1 l2 : list A) (ys : list B) :
  mapM f (l1 ++ l2) = Ok ys ->
  exists ys1 ys2, ys = ys1 ++ ys2 /\ mapM f l1 = Ok ys1 /\ mapM f l2 = Ok ys2.
Proof.
  revert ys. induction l1 as [|x l1 IH]; intros ys; simpl.
  - intros Hys. by exists [], ys.
  - destruct (f x) as [y| |]; simpl; try done.
    destruct (mapM f (l1 ++ l2)) as [ys'| |] eqn:Hys'; simpl; try done.
    intros [= <-]. destruct (IH ys' eq_refl) as (ys1 & ys2 & -> & -> & ->).
    by exists (y :: ys1), ys2.
Qed.

(** X3: the constructor returns exactly when every key normalizes (and fails
    with [ValueError] otherwise); the value it returns has pairwise distinct
    keys, which are exactly the normalized keys of the argument; when two
    keys of the argument normalize to the same basis key, their coefficients
    are not added: the last one is stored. *)
Theorem constructor_keys (coeffs : list (raw_root * Rational)) :
  (returns (LCoQI_init coeffs)
   <-> forall rc, rc ∈ coeffs -> returns (normalize_root rc.1))
  /\ settles (LCoQI_init coeffs)
  /\ forall v,
       LCoQI_init coeffs = Ok v ->
       NoDup v.*1
       /\ (forall k, k ∈ v.*1
                     <-> exists rc, rc ∈ coeffs /\ normalize_root rc.1 = Ok k)
       /\ (forall coeffs1 r c coeffs2 k,
             coeffs = coeffs1 ++ (r, c) :: coeffs2 ->
             normalize_root r = Ok k ->
             (forall rc, rc ∈ coeffs2 -> normalize_root rc.1 <> Ok k) ->
             dict_get v k = Some c).
Proof.
  set (f := fun rc : raw_root * Rational => k ← normalize_root rc.1; Ok (k, rc.2)).
  assert (forall rc, settles (f rc)) as Hf.
  { intros [r c]. unfold f. simpl.
    destruct (normalize_root_outcome r) as [[k ->]| ->]; [left; by eexists|by right]. }
  assert (forall rc, returns (f rc) <-> returns (normalize_root rc.1)) as Hfr.
  { intros [r c]. unfold f. simpl. split.
    - intros [kc Hkc]. destruct (normalize_root r); try done. by eexists.
    - intros [k ->]. by eexists. }
  assert (forall l items, mapM f l = Ok items ->
            forall k, k ∈ items.*1
                      <-> exists rc, rc ∈ l /\ normalize_root rc.1 = Ok k) as Hkeys.
  { intros l items Hitems%mapM_Ok k.
    induction Hitems as [|[r c] [k' c'] l items Hrc _ IH]; simpl.
    - rewrite elem_of_nil. split; [done|]. by intros (? & ?%elem_of_nil & _).
    - unfold f in Hrc. simpl in Hrc.
      destruct (normalize_root r) as [k0| |] eqn:Hr; simpl in Hrc; try done.
      injection Hrc as -> ->. rewrite elem_of_cons, IH. split.
      + intros [->|(rc & Hin & Hk)]; [exists (r, c'); split; [by left|done]|].
        exists rc. split; [by right|done].
      + intros (rc & [->|Hin]%elem_of_cons & Hk); [left; simpl in Hk; congruence|].
        right. by exists rc. }
  unfold LCoQI_init. fold f. split; [|split].
  - transitivity (returns (mapM f coeffs)).
    + split; intros [x Hx]; destruct (mapM f coeffs); try done; by eexists.
    + rewrite (mapM_returns f coeffs Hf). split; intros Hall rc Hrc;
        by apply Hfr, Hall.
  - assert (settles (mapM f coeffs)) as Hm.
    { induction coeffs as [|rc l IH]; simpl; [left; by eexists|].
      destruct (Hf rc) as [[y ->]| ->]; simpl; [|by right].
      destruct IH as [[ys ->]| ->]; simpl; [left; by eexists|by right]. }
    destruct Hm as [[items ->]| ->]; simpl; [left; by eexists|by right].
  - intros v. destruct (mapM f coeffs) as [items| |] eqn:Hitems; simpl; try done.
    intros [= <-]. split; [apply dict_of_items_NoDup|]. split.
    + intros k. unfold dict_of_items. rewrite dict_fold_keys.
      rewrite <- (Hkeys coeffs items Hitems k). simpl. rewrite elem_of_nil. tauto.
    + intros coeffs1 r c coeffs2 k -> Hr Hlater.
      apply mapM_app_Ok in Hitems as (items1 & items2' & -> & H1 & H2).
      cbn [mapM] in H2.
      change (f (r, c)) with (k ← normalize_root r; Ok (k, c)) in H2.
      rewrite Hr in H2. cbn [mbind outcome_bind] in H2.
      destruct (mapM f coeffs2) as [items2| |] eqn:Hitems2;
        cbn [mbind outcome_bind] in H2; try done.
      injection H2 as <-. apply dict_of_items_last.
      intros (rc & Hin & Hk)%(Hkeys coeffs2 items2 Hitems2). by apply (Hlater rc).
Qed.

Lemma constructor_keys_witness :
  exists v,
    LCoQI_init [(RInt 6, 1%Qc); (RSet {[Prime 2; Prime 3]}, Rational_of_int 5)] = Ok v
    /\ dict_get v {[Prime 2; Prime 3]} = Some (Rational_of_int 5).
Proof.
  set (coeffs := [(RInt 6, 1%Qc); (RSet {[Prime 2; Prime 3]}, Rational_of_int 5)]).
  destruct (constructor_keys coeffs) as (_ & _ & Hv).
  destruct (LCoQI_init coeffs) as [v| |] eqn:Hinit; [|by vm_compute in Hinit..].
  exists v. split; [done|].
  destruct (Hv v eq_refl) as (_ & _ & Hlast).
  apply (Hlast [(RInt 6, 1%Qc)] (RSet {[Prime 2; Prime 3]}) _ []); try done.
  intros rc Hrc. by apply elem_of_nil in Hrc.
Defined.

(** ** Addition and subtraction *)

Lemma coefficient_merge_loop (op : Rational -> Rational -> Rational)
    (other : lcoqi) :
  (forall c, op c 0%Qc = c) -> NoDup other.*1 ->
  forall (self : lcoqi) (k : key),
    coefficient
      (foldl (fun result rc =>
                dict_set result rc.1 (op (default 0%Qc (dict_get result rc.1)) rc.2))
             self other) k
    = op (coefficient self k) (coefficient other k).
Proof.
  intros Hop. induction other as [|[k2 c2] other IH]; intros Hnd self k.
  - unfold coefficient at 3. simpl. by rewrite Hop.
  - rewrite fmap_cons in Hnd. cbn [fst] in Hnd.
    apply NoDup_cons in Hnd as [Hk2 Hnd]. cbn [foldl fst snd].
    rewrite IH by done. unfold coefficient. rewrite dict_get_set. simpl.
    destruct (decide (k2 = k)) as [->|Hne]; simpl; [|done].
    apply dict_get_None in Hk2. rewrite Hk2. simpl. by rewrite Hop.
Qed.

Lemma coefficient_filter (d : lcoqi) (k : key) :
  NoDup d.*1 ->
  coefficient (filter (fun rc => Rational_bool rc.2 = true) d) k = coefficient d k.
Proof.
  unfold coefficient. induction d as [|[k0 c0] d IH]; intros Hnd; [done|].
  rewrite fmap_cons in Hnd. cbn [fst] in Hnd. apply NoDup_cons in Hnd as [Hk0 Hnd].
  rewrite filter_cons. simpl. destruct (decide (Rational_bool c0 = true)) as [Hc|Hc].
  - simpl. case_decide; [done|by apply IH].
  - destruct (decide (k0 = k)) as [->|Hne]; [|by apply IH]. simpl.
    assert (c0 = 0%Qc) as ->.
    { destruct (decide (c0 = 0%Qc)) as [|Hne]; [done|].
      by apply Rational_bool_true in Hne. }
    rewrite IH by done. apply dict_get_None in Hk0. by rewrite Hk0.
Qed.

Lemma merge_fold_NoDup op (self other : lcoqi) :
  NoDup self.*1 ->
  NoDup (foldl (fun result rc =>
                  dict_set result rc.1
                    (op (default 0%Qc (dict_get result rc.1)) rc.2))
               self other).*1.
Proof.
  apply (dict_fold_NoDup (fun d kv => op (default 0%Qc (dict_get d kv.1)) kv.2)).
Qed.

Lemma merge_filter (op : Rational -> Rational -> Rational) (self other : lcoqi) :
  NoDup self.*1 ->
  merge op self other
  = filter (fun rc => Rational_bool rc.2 = true)
      (foldl (fun result rc =>
                dict_set result rc.1
                  (op (default 0%Qc (dict_get result rc.1)) rc.2))
             self other).
Proof.
  intros Hnd. unfold merge, LCoQI_of_keys. apply dict_of_items_id.
  eapply sublist_NoDup; [|apply fmap_sublist, sublist_filter].
  by apply merge_fold_NoDup.
Qed.

Lemma coefficient_merge (op : Rational -> Rational -> Rational)
    (self other : lcoqi) (k : key) :
  (forall c, op c 0%Qc = c) -> NoDup self.*1 -> NoDup other.*1 ->
  coefficient (merge op self other) k
  = op (coefficient self k) (coefficient other k).
Proof.
  intros Hop Hself Hother. rewrite merge_filter by done.
  rewrite coefficient_filter by (by apply merge_fold_NoDup).
  by apply coefficient_merge_loop.
Qed.

Lemma coeffs_eqb_coefficient (v w : lcoqi) :
  NoDup v.*1 -> NoDup w.*1 -> canonical v -> canonical w ->
  (forall k, coefficient v k = coefficient w k) -> coeffs_eqb v w = true.
Proof.
  intros Hv Hw Hcv Hcw Hcoef. apply dict_eqb_spec; try done.
  - intros c c'. unfold Rational_eqb. by rewrite bool_decide_eq_true.
  - intros k. by apply coefficient_lookup.
Qed.

Lemma canonical_coefficient_nil (v : lcoqi) :
  canonical v -> (forall k, coefficient v k = 0%Qc) -> v = [].
Proof.
  intros Hv Hcoef. destruct v as [|[k c] v]; [done|].
  apply Forall_cons in Hv as [Hc _]. specialize (Hcoef k).
  unfold coefficient in Hcoef. simpl in *. by rewrite decide_True in Hcoef.
Qed.

Lemma filter_canonical (v : lcoqi) :
  canonical v -> filter (fun rc => Rational_bool rc.2 = true) v = v.
Proof.
  induction 1 as [|[k c] v Hc _ IH]; [done|].
  rewrite filter_cons, decide_True by (by apply Rational_bool_true). by rewrite IH.
Qed.

(** X4: addition and subtraction work key by key: for operands with
    pairwise distinct keys, the coefficient of every basis key in [a + b]
    ([a - b]) is the sum (difference) of its coefficients in [a] and [b],
    counting an absent key as 0; the result has pairwise distinct keys and no
    zero coefficient, and stands for the sum (difference) of the two
    numbers. *)
Theorem add_sub_coefficients (a b : lcoqi) :
  NoDup a.*1 -> NoDup b.*1 ->
  (forall k, coefficient (LCoQI_add a b) k = (coefficient a k + coefficient b k)%Qc)
  /\ (forall k, coefficient (LCoQI_sub a b) k
                = (coefficient a k - coefficient b k)%Qc)
  /\ NoDup (LCoQI_add a b).*1 /\ canonical (LCoQI_add a b)
  /\ NoDup (LCoQI_sub a b).*1 /\ canonical (LCoQI_sub a b)
  /\ eval (LCoQI_add a b) = (eval a + eval b)%R
  /\ eval (LCoQI_sub a b) = (eval a - eval b)%R.
Proof.
  intros Ha Hb. repeat split.
  - intros k. apply coefficient_merge; try done. intros c. ring.
  - intros k. apply coefficient_merge; try done. intros c. ring.
  - apply merge_NoDup.
  - apply merge_canonical.
  - apply merge_NoDup.
  - apply merge_canonical.
  - by apply eval_add.
  - by apply eval_sub.
Qed.

Lemma add_sub_coefficients_witness :
  let a : lcoqi := [(∅, 1%Qc); ({[Prime 2]}, 1%Qc)] in
  let b : lcoqi := [({[Prime 2]}, (- 1)%Qc); ({[Prime 3]}, 1%Qc)] in
  coefficient (LCoQI_add a b) {[Prime 2]} = (1 + - 1)%Qc
  /\ eval (LCoQI_sub a b) = (eval a - eval b)%R.
Proof.
  intros a b.
  assert (NoDup a.*1) as Ha by (apply (bool_decide_unpack _); by vm_compute).
  assert (NoDup b.*1) as Hb by (apply (bool_decide_unpack _); by vm_compute).
  destruct (add_sub_coefficients a b Ha Hb) as (Hadd & _ & _ & _ & _ & _ & _ & Hsub).
  split; [rewrite (Hadd {[Prime 2]}); reflexivity|exact Hsub].
Defined.

(** X5: addition is commutative and associative: on operands with pairwise
    distinct keys both sides have the same coefficient mapping. *)
Theorem add_comm_assoc (a b c : lcoqi) :
  NoDup a.*1 -> NoDup b.*1 -> NoDup c.*1 ->
  coeffs_eqb (LCoQI_add a b) (LCoQI_add b a) = true
  /\ coeffs_eqb (LCoQI_add (LCoQI_add a b) c) (LCoQI_add a (LCoQI_add b c)) = true.
Proof.
  intros Ha Hb Hc.
  assert (forall c : Rational, (c + 0)%Qc = c) as Hop by (intros; ring).
  split; apply coeffs_eqb_coefficient;
    try apply merge_NoDup; try apply merge_canonical; intros k;
    unfold LCoQI_add; rewrite !coefficient_merge by (done || apply merge_NoDup);
    ring.
Qed.

Lemma add_comm_assoc_witness :
  let a : lcoqi := [(∅, 1%Qc); ({[Prime 2]}, 1%Qc)] in
  let b : lcoqi := [({[Prime 2]}, (- 1)%Qc); ({[Prime 3]}, 1%Qc)] in
  coeffs_eqb (LCoQI_add a b) (LCoQI_add b a) = true.
Proof.
  intros a b.
  assert (NoDup a.*1) as Ha by (apply (bool_decide_unpack _); by vm_compute).
  assert (NoDup b.*1) as Hb by (apply (bool_decide_unpack _); by vm_compute).
  exact (proj1 (add_comm_assoc a b a Ha Hb Ha)).
Defined.

Lemma merge_nil_l (op : Rational -> Rational -> Rational) (a : lcoqi) :
  (forall c, op 0%Qc c = c) -> NoDup a.*1 -> canonical a -> merge op [] a = a.
Proof.
  intros Hop Hnd Hcan. rewrite merge_filter by constructor.
  assert (forall d, NoDup (d ++ a).*1 ->
            foldl (fun result rc =>
                     dict_set result rc.1
                       (op (default 0%Qc (dict_get result rc.1)) rc.2)) d a
            = d ++ a) as Hfold.
  { clear Hnd Hcan. induction a as [|[k c] a IH]; intros d Hd; simpl.
    - by rewrite app_nil_r.
    - assert (k ∉ d.*1) as Hk.
      { rewrite fmap_app, fmap_cons in Hd.
        apply NoDup_app in Hd as (_ & Hd & _). intros Hk.
        apply (Hd k Hk). by left. }
      rewrite dict_set_fresh by done.
      apply dict_get_None in Hk. rewrite Hk. simpl. rewrite Hop.
      rewrite IH; rewrite <- app_assoc; done. }
  rewrite (Hfold []) by done. by apply filter_canonical.
Qed.

(** X6: the zero value is the identity of addition and subtraction, and a
    value minus itself is the zero value: for [a] with pairwise distinct keys
    and no zero coefficient, [a + 0], [0 + a] and [a - 0] are [a], and
    [a - a] is the empty mapping. *)
Theorem add_zero_sub_self (a : lcoqi) :
  NoDup a.*1 -> canonical a ->
  LCoQI_add a zero = a /\ LCoQI_add zero a = a
  /\ LCoQI_sub a zero = a /\ LCoQI_sub a a = zero.
Proof.
  intros Hnd Hcan.
  assert (forall op, merge op a [] = a) as Hr.
  { intros op. rewrite merge_filter by done. by apply filter_canonical. }
  split; [apply Hr|]. split; [|split; [apply Hr|]].
  - apply merge_nil_l; try done. intros c. ring.
  - apply canonical_coefficient_nil; [apply merge_canonical|].
    intros k. unfold LCoQI_sub. rewrite coefficient_merge; try done; [ring|].
    intros c. ring.
Qed.

Lemma add_zero_sub_self_witness :
  let a : lcoqi := [(∅, 1%Qc); ({[Nested 2]}, 1%Qc)] in
  LCoQI_add zero a = a /\ LCoQI_sub a a = zero.
Proof.
  intros a.
  assert (NoDup a.*1) as Ha by (apply (bool_decide_unpack _); by vm_compute).
  assert (canonical a) as Hc by (repeat constructor; done).
  destruct (add_zero_sub_self a Ha Hc) as (_ & H1 & _ & H2). by split.
Defined.

(** ** Multiplication by the zero value and by the rational unit *)

Lemma symmetric_difference_empty_r (k : key) : symmetric_difference k ∅ = k.
Proof. unfold symmetric_difference. set_solver. Qed.

Lemma symmetric_difference_empty_l (k : key) : symmetric_difference ∅ k = k.
Proof. unfold symmetric_difference. set_solver. Qed.

Lemma mul_single_unit_r mul (k : key) (c : Rational) :
  mul_single mul (k, c) (∅, 1%Qc) = Ok [(k, c)].
Proof.
  unfold mul_single. replace (k ∩ ∅) with (∅ : key) by set_solver.
  rewrite elements_empty. simpl. rewrite symmetric_difference_empty_r.
  by replace (c * 1)%Qc with c by ring.
Qed.

Lemma mul_single_unit_l mul (k : key) (c : Rational) :
  mul_single mul (∅, 1%Qc) (k, c) = Ok [(k, c)].
Proof.
  unfold mul_single. replace (∅ ∩ k) with (∅ : key) by set_solver.
  rewrite elements_empty. simpl. rewrite symmetric_difference_empty_l.
  by replace (1 * c)%Qc with c by ring.
Qed.

Lemma add_snoc (l : lcoqi) (k : key) (c : Rational) :
  NoDup (l ++ [(k, c)]).*1 -> canonical l -> c <> 0%Qc ->
  LCoQI_add l [(k, c)] = l ++ [(k, c)].
Proof.
  intros Hnd Hl Hc. unfold LCoQI_add.
  assert (NoDup l.*1 /\ k ∉ l.*1) as [Hndl Hk].
  { rewrite fmap_app in Hnd. apply NoDup_app in Hnd as (? & Hk & _).
    split; [done|]. intros Hin. apply (Hk k Hin). by left. }
  rewrite merge_filter by done. simpl.
  rewrite dict_set_fresh by done. apply dict_get_None in Hk. rewrite Hk. simpl.
  replace (0 + c)%Qc with c by ring. apply filter_canonical.
  apply Forall_app. split; [done|]. by apply Forall_singleton.
Qed.

Lemma mul_general_unit_r (fuel : nat) (a : lcoqi) :
  NoDup a.*1 -> canonical a ->
  mul_general (mul_fuel (Datatypes.S fuel)) a unit = Ok a.
Proof.
  intros Hnd Hcan. unfold mul_general.
  assert (forall l, NoDup (l ++ a).*1 -> canonical l ->
            foldM (fun result t1 =>
                     foldM (fun result t2 =>
                              p ← mul_fuel (Datatypes.S fuel) (LCoQI_of_keys [t1])
                                           (LCoQI_of_keys [t2]);
                              Ok (LCoQI_add result p)) unit result) a l
            = Ok (l ++ a)) as Hloop.
  { clear Hnd. induction Hcan as [|[k c] a Hc Hcan IH]; intros l Hnd Hl.
    - by rewrite app_nil_r.
    - cbn [foldM unit].
      change (mul_fuel (Datatypes.S fuel) (LCoQI_of_keys [(k, c)])
                (LCoQI_of_keys [(∅, 1%Qc)]))
        with (mul_single (mul_fuel fuel) (k, c) (∅, 1%Qc)).
      rewrite mul_single_unit_r. cbn [mbind outcome_bind].
      assert (NoDup (l ++ [(k, c)]).*1) as Hnd1.
      { rewrite (assoc_L (++) l [(k, c)] a : l ++ (k, c) :: a = (l ++ [(k, c)]) ++ a)
          in Hnd. rewrite fmap_app in Hnd. by apply NoDup_app in Hnd as (? & _). }
      rewrite add_snoc by done. rewrite IH.
      + by rewrite <- app_assoc.
      + by rewrite <- app_assoc.
      + apply Forall_app. split; [done|]. by apply Forall_singleton. }
  unfold zero. apply (Hloop []); [done|constructor].
Qed.

Lemma mul_general_unit_l (fuel : nat) (a : lcoqi) :
  NoDup a.*1 -> canonical a ->
  mul_general (mul_fuel (Datatypes.S fuel)) unit a = Ok a.
Proof.
  intros Hnd Hcan. unfold mul_general. cbn [foldM unit].
  assert (forall l, NoDup (l ++ a).*1 -> canonical l ->
            foldM (fun result t2 =>
                     p ← mul_fuel (Datatypes.S fuel) (LCoQI_of_keys [(∅, 1%Qc)])
                                  (LCoQI_of_keys [t2]);
                     Ok (LCoQI_add result p)) a l
            = Ok (l ++ a)) as Hloop.
  { clear Hnd. induction Hcan as [|[k c] a Hc Hcan IH]; intros l Hnd Hl.
    - by rewrite app_nil_r.
    - cbn [foldM].
      change (mul_fuel (Datatypes.S fuel) (LCoQI_of_keys [(∅, 1%Qc)])
                (LCoQI_of_keys [(k, c)]))
        with (mul_single (mul_fuel fuel) (∅, 1%Qc) (k, c)).
      rewrite mul_single_unit_l. cbn [mbind outcome_bind].
      assert (NoDup (l ++ [(k, c)]).*1) as Hnd1.
      { rewrite (assoc_L (++) l [(k, c)] a : l ++ (k, c) :: a = (l ++ [(k, c)]) ++ a)
          in Hnd. rewrite fmap_app in Hnd. by apply NoDup_app in Hnd as (? & _). }
      rewrite add_snoc by done. rewrite IH.
      + by rewrite <- app_assoc.
      + by rewrite <- app_assoc.
      + apply Forall_app. split; [done|]. by apply Forall_singleton. }
  unfold zero. rewrite (Hloop []); [done|done|constructor].
Qed.

(** X7: the rational unit is the identity of multiplication and the zero
    value annihilates: for every value [a] with pairwise distinct keys and no
    zero coefficient (nested radicals included), [a * 1] and [1 * a] return
    [a]; for every [a], [a * 0] and [0 * a] return the empty mapping. *)
Theorem mul_unit_zero (a : lcoqi) :
  (NoDup a.*1 -> canonical a ->
   LCoQI_mul a unit = Ok a /\ LCoQI_mul unit a = Ok a)
  /\ LCoQI_mul a zero = Ok zero /\ LCoQI_mul zero a = Ok zero.
Proof.
  split; [|split].
  - intros Hnd Hcan. unfold LCoQI_mul.
    pose proof (mul_general_unit_r 2 a Hnd Hcan) as Hr.
    pose proof (mul_general_unit_l 2 a Hnd Hcan) as Hl.
    destruct a as [|[k c] [|t a]]; [by split|split|by split].
    + apply (mul_single_unit_r (mul_fuel 3)).
    + apply (mul_single_unit_l (mul_fuel 3)).
  - unfold LCoQI_mul.
    assert (mul_general (mul_fuel 3) a zero = Ok zero) as Hgen.
    { unfold mul_general. induction a as [|t a IH]; [done|]. exact IH. }
    by destruct a as [|t1 [|t2 a]].
  - reflexivity.
Qed.

Lemma mul_unit_zero_witness :
  let a : lcoqi := [(∅, 1%Qc); ({[Nested 2]}, 1%Qc)] in
  LCoQI_mul a unit = Ok a /\ LCoQI_mul unit a = Ok a.
Proof.
  intros a.
  assert (NoDup a.*1) as Ha by (apply (bool_decide_unpack _); by vm_compute).
  assert (canonical a) as Hc by (repeat constructor; done).
  exact (proj1 (mul_unit_zero a) Ha Hc).
Defined.

(** ** When [__mul__] raises *)

Lemma square_literal_returns (x : Z) :
  returns (LCoQI_init (square_literal x)) <-> returns (normalize_root (RInt x)).
Proof.
  destruct (square_literal_cases x) as [[-> ->]|[Hl Hx]].
  - split; intros _; by eexists.
  - split.
    + intros [f Hf]. apply square_literal_init_cases in Hf as [[_ ?]|(k & Hk & _)];
        [done|by exists k].
    + intros [k Hk]. rewrite (square_literal_init x k) by done. by eexists.
Qed.

Lemma common_loop_returns_iff (l : list factor) :
  forall coef fs,
    returns (foldM common_step l (coef, fs))
    <-> forall x, Nested x ∈ l -> returns (normalize_root (RInt x)).
Proof.
  induction l as [|[p|x] l IH]; intros coef fs; cbn [foldM].
  - split; [by intros _ x ?%elem_of_nil|by eexists].
  - cbn [common_step mbind outcome_bind]. rewrite IH. split.
    + intros Hall x [?|?]%elem_of_cons; [done|auto].
    + intros Hall x Hx. apply Hall. by right.
  - cbn [common_step]. split.
    + intros Hret x' Hx'.
      destruct (LCoQI_init (square_literal x)) as [f| |] eqn:Hf;
        cbn [mbind outcome_bind] in Hret; try by destruct Hret.
      apply elem_of_cons in Hx' as [[= ->]|Hx'].
      * apply square_literal_returns. rewrite Hf. by eexists.
      * by apply (IH coef (fs ++ [f])).
    + intros Hall.
      destruct (proj2 (square_literal_returns x)) as [f ->];
        [apply Hall; by left|].
      cbn [mbind outcome_bind]. apply IH. intros x' Hx'. apply Hall. by right.
Qed.

Lemma common_loop_nested_free_factors (l : list factor) :
  forall coef fs coef' fs',
    Forall (Forall (fun rc : key * Rational => nested_free rc.1)) fs ->
    foldM common_step l (coef, fs) = Ok (coef', fs') ->
    Forall (Forall (fun rc : key * Rational => nested_free rc.1)) fs'.
Proof.
  intros coef fs coef' fs' Hfs Hloop.
  destruct (common_loop_settles l coef fs Hfs) as [(c & fs0 & Heq & H0)|Heq];
    congruence.
Qed.

Lemma mul_single_returns_iff (fuel : nat) (t1 t2 : key * Rational) :
  returns (mul_single (mul_fuel (Datatypes.S (Datatypes.S fuel))) t1 t2)
  <-> forall x, Nested x ∈ t1.1 ∩ t2.1 -> returns (normalize_root (RInt x)).
Proof.
  destruct t1 as [k1 c1], t2 as [k2 c2]. unfold mul_single. cbn [fst snd].
  setoid_rewrite <- (elem_of_elements (k1 ∩ k2)).
  rewrite <- (common_loop_returns_iff (elements (k1 ∩ k2)) (c1 * c2)%Qc []).
  destruct (foldM common_step _ _) as [[coef fs]| |] eqn:Hloop;
    cbn [mbind outcome_bind].
  - split; [by eexists|]. intros _.
    apply common_loop_nested_free_factors in Hloop; [|constructor].
    apply foldM_returns. intros result f Hf. apply mul_fuel_nested_free.
    rewrite Forall_forall in Hloop. by apply Hloop.
  - split; by intros [? ?].
  - split; by intros [? ?].
Qed.

Lemma foldM_returns_iff {A B} (P : A -> Prop) (f : B -> A -> outcome B)
    (l : list A) :
  (forall b x, returns (f b x) <-> P x) ->
  forall acc, returns (foldM f l acc) <-> forall x, x ∈ l -> P x.
Proof.
  intros Hf. induction l as [|x l IH]; intros acc; cbn [foldM].
  - split; [by intros _ x ?%elem_of_nil|by eexists].
  - split.
    + intros Hret y Hy. destruct (f acc x) as [b| |] eqn:Hb;
        cbn [mbind outcome_bind] in Hret; try by destruct Hret.
      apply elem_of_cons in Hy as [->|Hy].
      * apply (Hf acc). rewrite Hb. by eexists.
      * by apply (IH b).
    + intros Hall. destruct (proj2 (Hf acc x)) as [b ->]; [apply Hall; by left|].
      cbn [mbind outcome_bind]. apply IH. intros y Hy. apply Hall. by right.
Qed.

(** X8: multiplication ends within four nested calls, with a value or with
    [ValueError]; it returns exactly when every nested factor [Nested x]
    shared by a term of the left operand and a term of the right operand has
    an [x] that [normalize_root] accepts. *)
Theorem mul_returns_iff (self other : lcoqi) :
  (forall fuel, mul_fuel (4 + fuel) self other = LCoQI_mul self other)
  /\ settles (LCoQI_mul self other)
  /\ (returns (LCoQI_mul self other)
      <-> forall t1 t2 x,
            t1 ∈ self -> t2 ∈ other -> Nested x ∈ t1.1 ∩ t2.1 ->
            returns (normalize_root (RInt x))).
Proof.
  split; [intros fuel; apply LCoQI_mul_fuel|]. split; [apply LCoQI_mul_settles|].
  assert (returns (mul_general (mul_fuel 3) self other)
          <-> forall t1 t2 x,
                t1 ∈ self -> t2 ∈ other -> Nested x ∈ t1.1 ∩ t2.1 ->
                returns (normalize_root (RInt x))) as Hgeneral.
  { unfold mul_general.
    rewrite (foldM_returns_iff
               (fun t1 => forall t2 x, t2 ∈ other -> Nested x ∈ t1.1 ∩ t2.1 ->
                                       returns (normalize_root (RInt x)))).
    - split; intros Hall; [intros t1 t2 x H1 H2; by apply Hall|].
      intros t1 H1 t2 x H2. by apply Hall.
    - intros result t1.
      rewrite (foldM_returns_iff
                 (fun t2 => forall x, Nested x ∈ t1.1 ∩ t2.1 ->
                                      returns (normalize_root (RInt x)))).
      + split; intros Hall; [intros t2 x H2; by apply Hall|].
        intros t2 H2 x. by apply Hall.
      + intros result' t2. rewrite <- (mul_single_returns_iff 0 t1 t2).
        destruct t1 as [k1 c1], t2 as [k2 c2].
        change (mul_fuel 3 (LCoQI_of_keys [(k1, c1)]) (LCoQI_of_keys [(k2, c2)]))
          with (mul_single (mul_fuel 2) (k1, c1) (k2, c2)).
        destruct (mul_single (mul_fuel 2) (k1, c1) (k2, c2));
          cbn [mbind outcome_bind]; split; intros [? ?]; try done; by eexists. }
  unfold LCoQI_mul.
  change (mul_fuel 4 self other) with
    (match self, other with
     | [t1], [t2] => mul_single (mul_fuel 3) t1 t2
     | _, _ => mul_general (mul_fuel 3) self other
     end).
  destruct self as [|t1 [|t1' self]]; try exact Hgeneral.
  destruct other as [|t2 [|t2' other]]; try exact Hgeneral.
  rewrite (mul_single_returns_iff 1 t1 t2). split.
  - intros Hall u1 u2 x ->%list_elem_of_singleton ->%list_elem_of_singleton.
    apply Hall.
  - intros Hall x. apply (Hall t1 t2); by apply list_elem_of_singleton.
Qed.

(** ** The field of values over prime radicals *)

Lemma value_over_prime_radicals (S : list Z) (v : lcoqi) :
  Forall Z.prime S -> value_over S v -> prime_radicals v.
Proof.
  intros HS [Hnd Hv]. split; [done|].
  eapply Forall_impl; [exact Hv|]. intros rc [Hc Hk]. split; [done|].
  intros f (p & -> & Hp)%Hk. exists p. split; [done|].
  rewrite Forall_forall in HS. by apply HS.
Qed.

Lemma prime_radicals_over_all (vs : list lcoqi) :
  Forall prime_radicals vs ->
  exists S, NoDup S /\ Forall Z.prime S /\ Forall (value_over S) vs.
Proof.
  induction 1 as [|v vs Hv _ (T & HndT & HT & Hvs)].
  - exists []. repeat split; constructor.
  - destruct (prime_radicals_over v Hv) as (U & HndU & HU & Hover).
    exists (remove_dups (U ++ T)). split; [apply NoDup_remove_dups|]. split.
    + apply Forall_forall. intros p [Hp|Hp]%elem_of_remove_dups%elem_of_app.
      * rewrite Forall_forall in HU. by apply HU.
      * rewrite Forall_forall in HT. by apply HT.
    + constructor.
      * apply (value_over_weaken _ U); [|done].
        intros p Hp. apply elem_of_remove_dups, elem_of_app. by left.
      * eapply Forall_impl; [exact Hvs|]. intros w Hw.
        apply (value_over_weaken _ T); [|done].
        intros p Hp. apply elem_of_remove_dups, elem_of_app. by right.
Qed.

(** X9: the product of two values in canonical form over prime radicals
    returns, is again in canonical form over prime radicals, stands for the
    product of the two numbers, and is zero only when one operand is. *)
Theorem mul_prime_radicals (a b : lcoqi) :
  prime_radicals a -> prime_radicals b ->
  exists r,
    LCoQI_mul a b = Ok r
    /\ prime_radicals r
    /\ eval r = (eval a * eval b)%R
    /\ (r = zero <-> a = zero \/ b = zero).
Proof.
  intros Ha Hb.
  destruct (prime_radicals_over_all [a; b]) as (S & HndS & HS & Hall);
    [repeat (apply Forall_cons_2; [assumption|]); apply Forall_nil_2|].
  apply Forall_cons in Hall as [Hoa Hall]. apply Forall_cons in Hall as [Hob _].
  destruct (mul_over S HS a b Hoa Hob) as (r & Hr & Hor & Heval).
  exists r. split; [done|]. split; [by apply (value_over_prime_radicals S)|].
  split; [done|]. unfold zero. split.
  - intros ->. simpl in Heval. symmetry in Heval.
    apply Rmult_integral in Heval as [H0|H0]; [left|right]; by apply (eval_zero S).
  - intros Hz. apply (eval_zero S); try done. rewrite Heval.
    destruct Hz as [-> | ->]; simpl; ring.
Qed.

Lemma mul_prime_radicals_witness :
  exists r,
    LCoQI_mul [(∅, 1%Qc); ({[Prime 2]}, 1%Qc)] [({[Prime 2]}, 1%Qc)] = Ok r
    /\ r <> zero.
Proof.
  assert (prime_radicals [({[Prime 2]}, 1%Qc)]) as Hb.
  { split; [apply NoDup_singleton|]. apply Forall_singleton. split; [done|].
    intros f Hf. simpl in Hf. apply elem_of_singleton in Hf as ->.
    exists 2. split; [done|apply Z.prime_2]. }
  assert (prime_radicals [(∅, 1%Qc); ({[Prime 2]}, 1%Qc)]) as Ha.
  { split; [apply (bool_decide_unpack _); by vm_compute|].
    apply Forall_cons. split; [split; [done|set_solver]|].
    apply Forall_singleton. split; [done|].
    intros f Hf. simpl in Hf. apply elem_of_singleton in Hf as ->.
    exists 2. split; [done|apply Z.prime_2]. }
  destruct (mul_prime_radicals _ _ Ha Hb) as (r & Hr & _ & _ & Hz).
  exists r. split; [exact Hr|]. intros H0. apply Hz in H0 as [H0|H0]; discriminate.
Defined.

(** X10: on values in canonical form over prime radicals, multiplication is
    commutative and associative and distributes over addition, the two sides
    being compared as coefficient dictionaries. *)
Theorem mul_ring_laws (a b c : lcoqi) :
  prime_radicals a -> prime_radicals b -> prime_radicals c ->
  exists ab ba bc ac ab_c a_bc a_sum,
    LCoQI_mul a b = Ok ab /\ LCoQI_mul b a = Ok ba
    /\ LCoQI_mul b c = Ok bc /\ LCoQI_mul a c = Ok ac
    /\ LCoQI_mul ab c = Ok ab_c /\ LCoQI_mul a bc = Ok a_bc
    /\ LCoQI_mul a (LCoQI_add b c) = Ok a_sum
    /\ coeffs_eqb ab ba = true
    /\ coeffs_eqb ab_c a_bc = true
    /\ coeffs_eqb a_sum (LCoQI_add ab ac) = true.
Proof.
  intros Ha Hb Hc.
  destruct (prime_radicals_over_all [a; b; c]) as (S & HndS & HS & Hall);
    [repeat (apply Forall_cons_2; [assumption|]); apply Forall_nil_2|].
  apply Forall_cons in Hall as [Hoa Hall]. apply Forall_cons in Hall as [Hob Hall].
  apply Forall_cons in Hall as [Hoc _].
  destruct (mul_over S HS a b Hoa Hob) as (ab & Hab & Hoab & Eab).
  destruct (mul_over S HS b a Hob Hoa) as (ba & Hba & Hoba & Eba).
  destruct (mul_over S HS b c Hob Hoc) as (bc & Hbc & Hobc & Ebc).
  destruct (mul_over S HS a c Hoa Hoc) as (ac & Hac & Hoac & Eac).
  destruct (mul_over S HS ab c Hoab Hoc) as (ab_c & Hab_c & Hoab_c & Eab_c).
  destruct (mul_over S HS a bc Hoa Hobc) as (a_bc & Ha_bc & Hoa_bc & Ea_bc).
  pose proof (value_over_merge S Qcplus b c Hob Hoc) as Hosum.
  destruct (mul_over S HS a (LCoQI_add b c) Hoa Hosum) as (a_sum & Ha_sum & Hoa_sum & Ea_sum).
  exists ab, ba, bc, ac, ab_c, a_bc, a_sum. repeat (split; [done|]).
  split; [|split].
  - apply (eval_injective S); try done. rewrite Eab, Eba. ring.
  - apply (eval_injective S); try done. rewrite Eab_c, Ea_bc, Eab, Ebc. ring.
  - apply (eval_injective S); try done; [by apply value_over_merge|].
    rewrite Ea_sum. rewrite !eval_add by (apply Hob || apply Hoab).
    rewrite Eab, Eac. ring.
Qed.

Lemma mul_ring_laws_witness :
  exists ab ba,
    LCoQI_mul [({[Prime 2]}, 1%Qc)] [({[Prime 3]}, 1%Qc)] = Ok ab
    /\ LCoQI_mul [({[Prime 3]}, 1%Qc)] [({[Prime 2]}, 1%Qc)] = Ok ba
    /\ coeffs_eqb ab ba = true.
Proof.
  assert (forall p, Z.prime p -> prime_radicals [({[Prime p]}, 1%Qc)]) as Hp.
  { intros p Hp. split; [apply NoDup_singleton|]. apply Forall_singleton.
    split; [done|]. intros f Hf. simpl in Hf. apply elem_of_singleton in Hf as ->.
    by exists p. }
  destruct (mul_ring_laws _ _ _ (Hp 2 Z.prime_2) (Hp 3 Z.prime_3) (Hp 2 Z.prime_2))
    as (ab & ba & _ & _ & _ & _ & _ & Hab & Hba & _ & _ & _ & _ & _ & Heq & _).
  exists ab, ba. split; [exact Hab|]. split; [exact Hba|exact Heq].
Defined.

(** X11: for nonzero values in canonical form over prime radicals, the
    inverse of the inverse and the quotient multiplied back by the divisor
    both have the coefficients of the value they started from. *)
Theorem inverse_involution_division (fuel : nat) (a b : lcoqi) :
  prime_radicals a -> prime_radicals b -> a <> zero -> b <> zero ->
  exists i ii q r,
    inverse (Datatypes.S (Datatypes.S fuel)) a = Ok i
    /\ inverse (Datatypes.S (Datatypes.S fuel)) i = Ok ii
    /\ coeffs_eqb ii a = true
    /\ LCoQI_truediv (Datatypes.S (Datatypes.S fuel)) a b = Ok q
    /\ LCoQI_mul q b = Ok r
    /\ coeffs_eqb r a = true.
Proof.
  intros Ha Hb Hna Hnb.
  destruct (prime_radicals_over_all [a; b]) as (S & HndS & HS & Hall);
    [repeat (apply Forall_cons_2; [assumption|]); apply Forall_nil_2|].
  apply Forall_cons in Hall as [Hoa Hall]. apply Forall_cons in Hall as [Hob _].
  pose proof (eval_nonzero S a HndS HS Hoa Hna) as Ha0.
  pose proof (eval_nonzero S b HndS HS Hob Hnb) as Hb0.
  destruct (inverse_over S HndS HS fuel a Hoa Hna) as (i & Hi & Hoi & Ei).
  assert (i <> []) as Hni.
  { intros ->. simpl in Ei. symmetry in Ei. by apply Rinv_neq_0_compat in Ei. }
  destruct (inverse_over S HndS HS fuel i Hoi Hni) as (ii & Hii & Hoii & Eii).
  destruct (inverse_over S HndS HS fuel b Hob Hnb) as (ib & Hib & Hoib & Eib).
  destruct (mul_over S HS a ib Hoa Hoib) as (q & Hq & Hoq & Eq).
  destruct (mul_over S HS q b Hoq Hob) as (r & Hr & Hor & Er).
  exists i, ii, q, r. split; [done|]. split; [done|]. split; [|split; [|split]].
  - apply (eval_injective S); try done. rewrite Eii, Ei. by apply Rinv_inv.
  - unfold LCoQI_truediv. rewrite Hib. exact Hq.
  - done.
  - apply (eval_injective S); try done. rewrite Er, Eq, Eib. by field.
Qed.

Lemma inverse_involution_division_witness :
  let a : lcoqi := [(∅, 1%Qc); ({[Prime 2]}, 1%Qc)] in
  let b : lcoqi := [({[Prime 3]}, 1%Qc)] in
  exists q r,
    LCoQI_truediv 2 a b = Ok q /\ LCoQI_mul q b = Ok r /\ coeffs_eqb r a = true.
Proof.
  intros a b.
  assert (prime_radicals b) as Hb.
  { split; [apply NoDup_singleton|]. apply Forall_singleton. split; [done|].
    intros f Hf. simpl in Hf. apply elem_of_singleton in Hf as ->.
    exists 3. split; [done|apply Z.prime_3]. }
  assert (prime_radicals a) as Ha.
  { split; [apply (bool_decide_unpack _); by vm_compute|].
    apply Forall_cons. split; [split; [done|set_solver]|].
    apply Forall_singleton. split; [done|].
    intros f Hf. simpl in Hf. apply elem_of_singleton in Hf as ->.
    exists 2. split; [done|apply Z.prime_2]. }
  assert (a <> zero) as Hna by discriminate.
  assert (b <> zero) as Hnb by discriminate.
  destruct (inverse_involution_division 0 a b Ha Hb Hna Hnb)
    as (_ & _ & q & r & _ & _ & _ & Hq & Hr & Heq).
  exists q, r. split; [exact Hq|]. split; [exact Hr|exact Heq].
Defined.

(** ** Uniqueness of the canonical form *)

Lemma eval_Permutation (v w : lcoqi) : v ≡ₚ w -> eval v = eval w.
Proof.
  induction 1 as [|rc v w _ IH|rc1 rc2 v|u v w _ IH1 _ IH2]; simpl.
  - done.
  - by rewrite IH.
  - lra.
  - congruence.
Qed.

Lemma dict_get_ext_Permutation (v w : lcoqi) :
  NoDup v.*1 -> NoDup w.*1 ->
  (forall k, dict_get v k = dict_get w k) -> v ≡ₚ w.
Proof.
  intros Hv Hw Hget.
  apply NoDup_Permutation; [by eapply NoDup_fmap_1|by eapply NoDup_fmap_1|].
  intros [k c]. split; intros Hin.
  - apply dict_get_Some_elem. rewrite <- Hget. by apply dict_get_elem.
  - apply dict_get_Some_elem. rewrite Hget. by apply dict_get_elem.
Qed.

Lemma coeffs_eqb_eval (v w : lcoqi) :
  NoDup v.*1 -> NoDup w.*1 -> coeffs_eqb v w = true -> eval v = eval w.
Proof.
  intros Hv Hw Heq. apply eval_Permutation, dict_get_ext_Permutation; try done.
  apply (dict_eqb_spec Rational_eqb); try done.
  intros c c'. unfold Rational_eqb. by rewrite bool_decide_eq_true.
Qed.

(** X12: two values in canonical form over prime radicals stand for the same
    real number exactly when their coefficient dictionaries are equal: the
    representation of a number is unique up to the order of the terms. *)
Theorem canonical_form_unique (v w : lcoqi) :
  prime_radicals v -> prime_radicals w ->
  (eval v = eval w <-> coeffs_eqb v w = true).
Proof.
  intros Hv Hw.
  destruct (prime_radicals_over_all [v; w]) as (S & HndS & HS & Hall);
    [repeat (apply Forall_cons_2; [assumption|]); apply Forall_nil_2|].
  apply Forall_cons in Hall as [Hov Hall]. apply Forall_cons in Hall as [How _].
  split.
  - by apply (eval_injective S).
  - apply coeffs_eqb_eval; [apply Hv|apply Hw].
Qed.

Lemma canonical_form_unique_witness :
  eval [(∅, 1%Qc); ({[Prime 2]}, 1%Qc)] = eval [({[Prime 2]}, 1%Qc); (∅, 1%Qc)].
Proof.
  assert (forall f : factor, f ∈ ({[Prime 2]} : key) ->
            exists p, f = Prime p /\ Z.prime p) as H2.
  { intros f ->%elem_of_singleton. exists 2. split; [done|apply Z.prime_2]. }
  assert (forall f : factor, f ∈ (∅ : key) ->
            exists p, f = Prime p /\ Z.prime p) as H0 by set_solver.
  assert (prime_radicals [(∅, 1%Qc); ({[Prime 2]}, 1%Qc)]) as Hv.
  { split; [apply (bool_decide_unpack _); by vm_compute|].
    apply Forall_cons_2; [by split|]. apply Forall_cons_2; [by split|].
    apply Forall_nil_2. }
  assert (prime_radicals [({[Prime 2]}, 1%Qc); (∅, 1%Qc)]) as Hw.
  { split; [apply (bool_decide_unpack _); by vm_compute|].
    apply Forall_cons_2; [by split|]. apply Forall_cons_2; [by split|].
    apply Forall_nil_2. }
  apply (proj2 (canonical_form_unique _ _ Hv Hw)). by vm_compute.
Defined.

(** ** More on integer powers *)

Lemma powerRZ_powerRZ (x : R) (m n : Z) :
  powerRZ (powerRZ x m) n = powerRZ x (m * n).
Proof.
  destruct m as [|a|a], n as [|b|b]; simpl;
    rewrite ?pow1, ?Rinv_1, ?Pos2Nat.inj_mul, ?pow_mult, ?pow_inv, ?Rinv_inv;
    reflexivity.
Qed.

(** X13: for a nonzero value [a] in canonical form over prime radicals and
    integers [m], [n], [a ** n] returns a value in canonical form over prime
    radicals that stands for the [n]-th power of the number [a] stands for,
    and [(a ** m) ** n] has the coefficients of [a ** (m * n)]. *)
Theorem pow_prime_radicals (fuel : nat) (a : lcoqi) (m n : Z) :
  prime_radicals a -> a <> zero ->
  exists r am amn r',
    LCoQI_pow (Datatypes.S (Datatypes.S fuel)) a n = Ok r
    /\ prime_radicals r
    /\ eval r = powerRZ (eval a) n
    /\ LCoQI_pow (Datatypes.S (Datatypes.S fuel)) a m = Ok am
    /\ LCoQI_pow (Datatypes.S (Datatypes.S fuel)) am n = Ok amn
    /\ LCoQI_pow (Datatypes.S (Datatypes.S fuel)) a (m * n) = Ok r'
    /\ coeffs_eqb amn r' = true.
Proof.
  intros Ha Hne. destruct (prime_radicals_over a Ha) as (S & HndS & HS & Hover).
  pose proof (eval_nonzero S a HndS HS Hover Hne) as Ha0.
  destruct (pow_over S HndS HS fuel a n Hover Hne) as (r & Hr & Hor & Er).
  destruct (pow_over S HndS HS fuel a m Hover Hne) as (am & Ham & Hoam & Eam).
  assert (am <> []) as Hnam.
  { intros ->. simpl in Eam. symmetry in Eam. by apply powerRZ_NOR in Eam. }
  destruct (pow_over S HndS HS fuel am n Hoam Hnam) as (amn & Hamn & Hoamn & Eamn).
  destruct (pow_over S HndS HS fuel a (m * n) Hover Hne) as (r' & Hr' & Hor' & Er').
  exists r, am, amn, r'. split; [done|].
  split; [by apply (value_over_prime_radicals S)|]. repeat (split; [done|]).
  apply (eval_injective S); try done. rewrite Eamn, Eam, Er'.
  apply powerRZ_powerRZ.
Qed.

Lemma pow_prime_radicals_witness :
  exists r,
    LCoQI_pow 2 [(∅, 1%Qc); ({[Prime 2]}, 1%Qc)] (-3) = Ok r
    /\ eval r = powerRZ (eval [(∅, 1%Qc); ({[Prime 2]}, 1%Qc)]) (-3).
Proof.
  assert (prime_radicals [(∅, 1%Qc); ({[Prime 2]}, 1%Qc)]) as Ha.
  { split; [apply (bool_decide_unpack _); by vm_compute|].
    apply Forall_cons_2; [split; [done|set_solver]|].
    apply Forall_cons_2; [|apply Forall_nil_2]. split; [done|].
    intros f Hf. simpl in Hf. apply elem_of_singleton in Hf as ->.
    exists 2. split; [done|apply Z.prime_2]. }
  assert ([(∅, 1%Qc); ({[Prime 2]}, 1%Qc)] <> zero) as Hne by discriminate.
  destruct (pow_prime_radicals 0 _ 1 (-3) Ha Hne) as (r & _ & _ & _ & Hr & _ & Er & _).
  exists r. split; [exact Hr|exact Er].
Defined.

Lemma mul_zero_r (a : lcoqi) : LCoQI_mul a zero = Ok zero.
Proof.
  unfold LCoQI_mul.
  assert (mul_general (mul_fuel 3) a zero = Ok zero) as Hgen.
  { unfold mul_general. induction a as [|t a IH]; [done|]. exact IH. }
  by destruct a as [|t1 [|t2 a]].
Qed.

Lemma pow_loop_zero (n : positive) :
  forall result, pow_loop n result zero = Ok zero.
Proof.
  induction n as [n IH|n IH|]; intros result; cbn [pow_loop].
  - rewrite !mul_zero_r. cbn [mbind outcome_bind]. apply IH.
  - rewrite !mul_zero_r. cbn [mbind outcome_bind]. apply IH.
  - by rewrite !mul_zero_r.
Qed.

(** X14: edge cases of [__pow__]. [a ** 0] is the rational unit for every
    [a]; the zero value to a positive power is the zero value and to a
    negative power raises [TypeError]; and, because the loop squares its
    factor once more after the last digit, [a ** 1] is [a] when [a * a]
    returns and fails with the failure of [a * a] otherwise. *)
Theorem pow_edge_cases (fuel : nat) (a : lcoqi) (n : Z) :
  LCoQI_pow fuel a 0 = Ok unit
  /\ (0 < n -> LCoQI_pow fuel zero n = Ok zero)
  /\ (n < 0 -> LCoQI_pow (Datatypes.S fuel) zero n = Raise TypeError)
  /\ (NoDup a.*1 -> canonical a ->
      LCoQI_pow fuel a 1 = (_ ← LCoQI_mul a a; Ok a)).
Proof.
  split; [reflexivity|]. split; [|split].
  - intros Hn. unfold LCoQI_pow. destruct n as [|n|n]; try lia.
    change (Z.abs (Z.pos n)) with (Z.pos n). cbv iota.
    rewrite pow_loop_zero. cbn [mbind outcome_bind]. by rewrite decide_True by lia.
  - intros Hn. unfold LCoQI_pow. destruct n as [|n|n]; try lia.
    change (Z.abs (Z.neg n)) with (Z.pos n). cbv iota.
    rewrite pow_loop_zero. cbn [mbind outcome_bind]. by rewrite decide_False by lia.
  - intros Hnd Hcan. unfold LCoQI_pow. change (Z.abs 1) with 1. cbv iota.
    cbn [pow_loop].
    assert (LCoQI_mul unit a = Ok a) as ->.
    { unfold LCoQI_mul. pose proof (mul_general_unit_l 2 a Hnd Hcan) as Hl.
      destruct a as [|[k c] [|t a]]; [done| |done].
      apply (mul_single_unit_l (mul_fuel 3)). }
    cbn [mbind outcome_bind]. by destruct (LCoQI_mul a a).
Qed.

Lemma pow_edge_cases_witness :
  LCoQI_pow 0 zero 5 = Ok zero
  /\ LCoQI_pow 1 zero (-5) = Raise TypeError
  /\ LCoQI_pow 0 [({[Nested 4]}, 1%Qc)] 1 = Raise ValueError.
Proof.
  split; [|split].
  - destruct (pow_edge_cases 0 zero 5) as (_ & Hpos & _). apply Hpos. lia.
  - destruct (pow_edge_cases 0 zero (-5)) as (_ & _ & Hneg & _). apply Hneg. lia.
  - destruct (pow_edge_cases 0 [({[Nested 4]}, 1%Qc)] 0) as (_ & _ & _ & H1).
    rewrite H1; [reflexivity|apply NoDup_singleton|].
    apply Forall_cons_2; [done|apply Forall_nil_2].
Defined.

(** ** More on rendering *)

Lemma root_to_str_loop_eq (l : list factor) :
  forall result number,
    foldl root_to_str_step (result, number) l
    = (result
         ++ ((fun x => "√(" +:+ pretty x +:+ "+√" +:+ pretty x +:+ ")")
               <$> nested_args l),
       number * list_prod (prime_args l)).
Proof.
  induction l as [|[p|x] l IH]; intros result number; simpl.
  - by rewrite app_nil_r, Z.mul_1_r.
  - rewrite IH. f_equal. unfold list_prod. simpl. lia.
  - rewrite IH. by rewrite <- app_assoc.
Qed.

Lemma root_to_latex_loop_eq (l : list factor) :
  forall result number,
    foldl root_to_latex_step (result, number) l
    = (result
         ++ ((fun x => "\sqrt{" +:+ pretty x +:+ "+\sqrt{" +:+ pretty x +:+ "}}")
               <$> nested_args l),
       number * list_prod (prime_args l)).
Proof.
  induction l as [|[p|x] l IH]; intros result number; simpl.
  - by rewrite app_nil_r, Z.mul_1_r.
  - rewrite IH. f_equal. unfold list_prod. simpl. lia.
  - rewrite IH. by rewrite <- app_assoc.
Qed.

(** X15: the radical part of a term. [root_to_str] and [root_to_latex] put
    the nested radicals first, in the iteration order of the key, and after
    them one radical of the product of all integer factors, left out when
    that product is 1. *)
Theorem root_rendering (roots : key) :
  let number := list_prod (prime_args (elements roots)) in
  root_to_str roots
  = String.concat ""
      (((fun x => "√(" +:+ pretty x +:+ "+√" +:+ pretty x +:+ ")")
          <$> nested_args (elements roots))
         ++ (if decide (number = 1) then [] else ["√" +:+ pretty number]))
  /\ root_to_latex roots
     = String.concat ""
         (((fun x => "\sqrt{" +:+ pretty x +:+ "+\sqrt{" +:+ pretty x +:+ "}}")
             <$> nested_args (elements roots))
            ++ (if decide (number = 1) then []
                else ["\sqrt{" +:+ pretty number +:+ "}"])).
Proof.
  intros number. unfold root_to_str, root_to_latex.
  rewrite root_to_str_loop_eq, root_to_latex_loop_eq. rewrite Z.mul_1_l.
  fold number. simpl. split; case_decide; by rewrite ?app_nil_r.
Qed.

Lemma list_prod_gt_1 (l : list Z) :
  l <> [] -> Forall (fun p => 1 < p) l -> 1 < list_prod l.
Proof.
  intros Hne Hl. induction Hl as [|p l Hp Hl IH]; [done|].
  unfold list_prod. simpl. destruct l as [|q l]; [simpl; lia|].
  assert (1 < list_prod (q :: l)) as Hprod by (by apply IH).
  unfold list_prod in Hprod. nia.
Qed.

Lemma prime_args_elem (l : list factor) (p : Z) :
  p ∈ prime_args l <-> Prime p ∈ l.
Proof.
  unfold prime_args. rewrite list_elem_of_omap. split.
  - intros ([q|x] & Hin & [= ->]). done.
  - intros Hin. by exists (Prime p).
Qed.

Lemma nested_args_nil (l : list factor) :
  l <> [] -> nested_args l = [] -> prime_args l <> [].
Proof. destruct l as [|[p|x] l]; done. Qed.

Lemma root_to_latex_nonempty (root : key) :
  root <> ∅ -> (forall p, Prime p ∈ root -> 1 < p) -> root_to_latex root <> "".
Proof.
  intros Hne Hp. unfold root_to_latex. rewrite root_to_latex_loop_eq.
  rewrite Z.mul_1_l. simpl.
  destruct (nested_args (elements root)) as [|x xs] eqn:Hnested.
  - rewrite decide_False.
    + apply (concat_nonempty _ ("\sqrt{" +:+ pretty (list_prod (prime_args (elements root))) +:+ "}"));
        [by left|done].
    + assert (1 < list_prod (prime_args (elements root))); [|lia].
      apply list_prod_gt_1.
      * apply nested_args_nil; [|done].
        by intros ?%elements_empty_inv%leibniz_equiv.
      * apply Forall_forall. intros p Hin%prime_args_elem%elem_of_elements. auto.
  - apply (concat_nonempty _ ("\sqrt{" +:+ pretty x +:+ "+\sqrt{" +:+ pretty x +:+ "}}"));
      [|done].
    case_decide; [by left|]. apply elem_of_app. left. by left.
Qed.

Section to_tex_facts.
Variable Rational_to_tex : Rational -> string.

(** X16: LaTeX rendering. The zero value renders as "0" and the rational
    unit as "1"; a term with coefficient 1 and a nonempty key of factors
    greater than 1 renders as its radical part alone; any other term is the
    rendering of its coefficient followed by its radical part; the terms are
    joined with "+" and [_repr_latex_] puts the result between "$$ " and
    " $$". *)
Theorem to_tex_rules :
  to_tex Rational_to_tex zero = "0"
  /\ to_tex Rational_to_tex unit = "1"
  /\ (forall root : key,
        root <> ∅ -> (forall p, Prime p ∈ root -> 1 < p) ->
        term_to_tex Rational_to_tex (root, 1%Qc) = root_to_latex root
        /\ root_to_latex root <> "")
  /\ (forall (root : key) (coef : Rational),
        coef <> 1%Qc ->
        term_to_tex Rational_to_tex (root, coef)
        = Rational_to_tex coef +:+ root_to_latex root)
  /\ (forall self : lcoqi,
        self <> [] ->
        to_tex Rational_to_tex self
        = String.concat "+" (term_to_tex Rational_to_tex <$> self))
  /\ (forall self : lcoqi,
        repr_latex Rational_to_tex self
        = "$$ " +:+ to_tex Rational_to_tex self +:+ " $$").
Proof.
  split; [reflexivity|]. split; [|split; [|split; [|split]]].
  - unfold to_tex, unit, term_to_tex. cbn [fmap list_fmap fst snd].
    case_decide as Hc; [by destruct Hc|]. reflexivity.
  - intros root Hne Hp. split; [|by apply root_to_latex_nonempty].
    unfold term_to_tex. cbn [fst snd].
    case_decide as Hc; [by destruct Hc|]. case_decide as Hempty; [|done].
    by apply root_to_latex_nonempty in Hempty.
  - intros root coef Hc. unfold term_to_tex. cbn [fst snd]. by rewrite decide_True.
  - intros [|t self] Hne; [done|]. reflexivity.
  - reflexivity.
Qed.
End to_tex_facts.

Lemma to_tex_rules_witness :
  let tex (q : Rational) : string := pretty (Qnum (this q)) in
  term_to_tex tex ({[Prime 2]}, 1%Qc) = root_to_latex {[Prime 2]}
  /\ term_to_tex tex ({[Prime 2]}, (Rational_of_int 3)) = tex (Rational_of_int 3) +:+ root_to_latex {[Prime 2]}
  /\ to_tex tex [(∅, (Rational_of_int 3)); ({[Prime 2]}, 1%Qc)]
     = String.concat "+" (term_to_tex tex <$> [(∅, (Rational_of_int 3)); ({[Prime 2]}, 1%Qc)]).
Proof.
  intros tex.
  destruct (to_tex_rules tex) as (_ & _ & Hone & Hcoef & Hjoin & _).
  split; [|split].
  - apply (Hone {[Prime 2]}); [set_solver|].
    intros p Hp. apply elem_of_singleton in Hp as [= ->]. lia.
  - apply (Hcoef {[Prime 2]} (Rational_of_int 3)). done.
  - apply Hjoin. done.
Defined.

(** ** Products of single terms *)

Lemma Rational_of_int_mult (a b : Z) :
  Rational_of_int (a * b) = (Rational_of_int a * Rational_of_int b)%Qc.
Proof.
  apply Rational_to_R_inj.
  by rewrite Rational_to_R_mult, !Rational_to_R_of_int, mult_IZR.
Qed.

Lemma common_loop_primes (l : list factor) :
  (forall x, Nested x ∉ l) ->
  forall coef fs,
    foldM common_step l (coef, fs)
    = Ok ((coef * Rational_of_int (list_prod (prime_args l)))%Qc, fs).
Proof.
  induction l as [|[p|x] l IH]; intros Hl coef fs.
  - cbn [foldM]. change (Rational_of_int (list_prod (prime_args []))) with 1%Qc.
    by replace (coef * 1)%Qc with coef by ring.
  - cbn [foldM common_step mbind outcome_bind]. rewrite IH.
    + change (list_prod (prime_args (Prime p :: l)))
        with (p * list_prod (prime_args l)).
      rewrite Rational_of_int_mult.
      by replace (coef * Rational_of_int p * Rational_of_int (list_prod (prime_args l)))%Qc
        with (coef * (Rational_of_int p * Rational_of_int (list_prod (prime_args l))))%Qc
        by ring.
    + intros x Hx. apply (Hl x). by right.
  - destruct (Hl x). by left.
Qed.

(** X17: the product of two single terms that share no nested radical is one
    term: its key is the symmetric difference of the two keys, its
    coefficient the product of the two coefficients and of the integer
    factors the keys share. *)
Theorem mul_single_terms (k1 k2 : key) (c1 c2 : Rational) :
  nested_free (k1 ∩ k2) ->
  LCoQI_mul [(k1, c1)] [(k2, c2)]
  = Ok [(symmetric_difference k1 k2,
         (c1 * c2 * Rational_of_int (list_prod (prime_args (elements (k1 ∩ k2)))))%Qc)].
Proof.
  intros Hfree. unfold LCoQI_mul.
  change (mul_fuel 4 [(k1, c1)] [(k2, c2)])
    with (mul_single (mul_fuel 3) (k1, c1) (k2, c2)).
  unfold mul_single. rewrite common_loop_primes; [done|].
  intros x Hx%elem_of_elements. by apply (Hfree x).
Qed.

Lemma mul_single_terms_witness :
  LCoQI_mul [({[Prime 2; Prime 3]}, 1%Qc)] [({[Prime 2; Prime 5]}, 1%Qc)]
  = Ok [(symmetric_difference {[Prime 2; Prime 3]} {[Prime 2; Prime 5]},
         (1 * 1 * Rational_of_int
                    (list_prod (prime_args
                       (elements ({[Prime 2; Prime 3]} ∩ {[Prime 2; Prime 5]} : key)))))%Qc)].
Proof.
  apply (mul_single_terms {[Prime 2; Prime 3]} {[Prime 2; Prime 5]} 1%Qc 1%Qc).
  intros x Hx. set_solver.
Defined.

(** X18: the square of a nested radical. For [x] other than 0 and 1 that
    [normalize_root] accepts with key [k], the product of [√(x+√x)] with
    itself is the two-term value [x + √x], with coefficient [x] on the empty
    key and 1 on [k]; for [x = 1] the dictionary literal [{1: x, x: 1}]
    collapses to one entry and the product is the rational unit. *)
Theorem nested_radical_square (x : Z) (k : key) :
  normalize_root (RInt x) = Ok k -> x <> 0 ->
  LCoQI_mul [({[Nested x]}, 1%Qc)] [({[Nested x]}, 1%Qc)]
  = Ok (if decide (x = 1) then unit else [(∅, Rational_of_int x); (k, 1%Qc)]).
Proof.
  intros Hk Hx0. unfold LCoQI_mul.
  change (mul_fuel 4 [({[Nested x]}, 1%Qc)] [({[Nested x]}, 1%Qc)])
    with (mul_single (mul_fuel 3) ({[Nested x]}, 1%Qc) ({[Nested x]}, 1%Qc)).
  unfold mul_single.
  replace ({[Nested x]} ∩ {[Nested x]} : key) with ({[Nested x]} : key)
    by set_solver.
  replace (symmetric_difference {[Nested x]} {[Nested x]}) with (∅ : key)
    by (unfold symmetric_difference; set_solver).
  rewrite elements_singleton. cbn [foldM common_step].
  replace (1 * 1)%Qc with 1%Qc by ring.
  case_decide as Hx1.
  - subst x. reflexivity.
  - rewrite (square_literal_init x k Hx1 Hk). cbn [mbind outcome_bind app foldM].
    change (LCoQI_of_keys [(∅ : key, 1%Qc)]) with unit.
    change (mul_fuel 3 unit [(∅, Rational_of_int x); (k, 1%Qc)])
      with (mul_general (mul_fuel 2) unit [(∅, Rational_of_int x); (k, 1%Qc)]).
    rewrite mul_general_unit_l; [done| |].
    + apply NoDup_cons. split; [|apply NoDup_singleton].
      intros Hin%list_elem_of_singleton. simpl in Hin. rewrite <- Hin in Hk.
      by apply normalize_root_empty in Hk.
    + apply Forall_cons_2; [by apply Rational_of_int_nonzero|].
      apply Forall_cons_2; [done|apply Forall_nil_2].
Qed.

Lemma nested_radical_square_witness :
  LCoQI_mul [({[Nested 3]}, 1%Qc)] [({[Nested 3]}, 1%Qc)]
  = Ok [(∅, Rational_of_int 3); ({[Prime 3]}, 1%Qc)].
Proof.
  apply (nested_radical_square 3 {[Prime 3]}); [|lia].
  apply normalize_root_prime, Z.prime_3.
Defined.

(** ** Soundness of multiplication for nested radicals *)

Lemma normalize_int_factors (n : Z) (fs : list Z) :
  0 < n -> normalize_int n = Ok fs ->
  Forall Z.prime fs /\ NoDup fs /\ list_prod fs = n.
Proof.
  intros Hn Hfs. split; [by apply (normalize_int_primes n)|].
  revert Hfs. unfold normalize_int. case_decide; [lia|].
  rewrite trial_range_nat by done.
  destruct (foldM trial_step _ (n, [])) as [[y gs]| |] eqn:Hloop;
    simpl; try done.
  pose proof Hloop as Hloop'.
  apply trial_loop_product in Hloop as (gs' & -> & Hprod & Hgs & Hnd);
    [|lia|lia].
  apply trial_loop_primes in Hloop' as (Hy & _ & Hsmall);
    [|lia|lia|constructor|intros d Hd; lia].
  simpl in *. intros [= <-]. case_decide as Hy1.
  - split; [done|]. subst y. lia.
  - split.
    + apply NoDup_app. split; [done|]. split; [|apply NoDup_singleton].
      intros p Hp ->%list_elem_of_singleton.
      rewrite Forall_forall in Hgs. apply Hgs in Hp.
      apply (Hsmall y); [lia|]. by exists 1; lia.
    + clear -Hprod. induction gs' as [|g gs IH] in n, Hprod |- *; simpl in *;
        [lia|]. rewrite (IH (list_prod gs * y)); [|done]. lia.
Qed.

Section mul_soundness.
Local Open Scope R_scope.

Lemma factors_value_primes (fs : list Z) :
  Forall (fun p => (0 <= p)%Z) fs ->
  factors_value (Prime <$> fs) = sqrt (IZR (list_prod fs))
  /\ (0 <= list_prod fs)%Z.
Proof.
  induction 1 as [|p fs Hp _ [IH Hprod]].
  - simpl. split; [by rewrite sqrt_1|unfold list_prod; simpl; lia].
  - change (list_prod (p :: fs)) with (p * list_prod fs)%Z.
    split; [|lia]. rewrite fmap_cons. simpl. rewrite IH, mult_IZR.
    symmetry. apply sqrt_mult; by apply IZR_le.
Qed.

Lemma key_value_list_to_set (fs : list Z) :
  NoDup fs -> Forall (fun p => (0 <= p)%Z) fs ->
  key_value (list_to_set (Prime <$> fs)) = sqrt (IZR (list_prod fs)).
Proof.
  intros Hnd Hfs. unfold key_value.
  rewrite (factors_value_perm _ (Prime <$> fs)).
  - by apply factors_value_primes.
  - apply elements_list_to_set. apply NoDup_fmap_2; [|done]. by intros p q [=].
Qed.

Lemma normalize_root_value (x : Z) (k : key) :
  normalize_root (RInt x) = Ok k ->
  (0 <= x)%Z /\ key_value k = sqrt (IZR x) /\ exact_key k.
Proof.
  cbn [normalize_root].
  destruct (normalize_int x) as [fs| |] eqn:Hfs; cbn [mbind outcome_bind]; try done.
  intros [= <-].
  assert (0 <= x)%Z as Hx.
  { unfold normalize_int in Hfs. case_decide; [done|lia]. }
  assert (NoDup fs /\ Forall (fun p => (0 <= p)%Z) fs /\ list_prod fs = x)
    as (Hnd & Hpos & Hprod).
  { destruct (decide (x = 0%Z)) as [->|Hx0].
    - vm_compute in Hfs. injection Hfs as <-.
      split; [apply NoDup_singleton|]. split; [|done].
      apply Forall_cons_2; [done|apply Forall_nil_2].
    - destruct (normalize_int_factors x fs) as (Hp & Hnd & Hprod); [lia|done|].
      split; [done|]. split; [|done]. eapply Forall_impl; [exact Hp|].
      intros p Hpp%Z.prime_ge_2. simpl. lia. }
  split; [done|]. split.
  - rewrite key_value_list_to_set by done. by rewrite Hprod.
  - intros f (p & -> & Hp)%elem_of_list_to_set%list_elem_of_fmap.
    rewrite Forall_forall in Hpos. by apply Hpos.
Qed.

Lemma nested_square_value (x : Z) :
  (0 <= x)%Z ->
  factor_value (Nested x) * factor_value (Nested x) = IZR x + sqrt (IZR x).
Proof.
  intros Hx. simpl. apply sqrt_sqrt.
  pose proof (sqrt_pos (IZR x)). apply IZR_le in Hx. lra.
Qed.

Lemma common_loop_sound (l : list factor) :
  (forall f, f ∈ l -> match f with Prime p => (0 <= p)%Z | Nested x => x <> 1%Z end) ->
  forall coef fs coef' fs',
    foldM common_step l (coef, fs) = Ok (coef', fs') ->
    exists gs,
      fs' = fs ++ gs
      /\ Forall exact_keys gs
      /\ Rational_to_R coef' * foldr (fun g r => eval g * r) 1 gs
         = Rational_to_R coef * (factors_value l * factors_value l).
Proof.
  induction l as [|[p|x] l IH]; intros Hl coef fs coef' fs' Hloop.
  - injection Hloop as <- <-. exists []. rewrite app_nil_r.
    split; [done|]. split; [constructor|]. simpl. ring.
  - cbn [foldM common_step mbind outcome_bind] in Hloop.
    apply IH in Hloop as (gs & -> & Hgs & Hval);
      [|intros f Hf; apply Hl; by right].
    exists gs. split; [done|]. split; [done|].
    rewrite Hval, Rational_to_R_mult, Rational_to_R_of_int. simpl.
    assert (sqrt (IZR p) * sqrt (IZR p) = IZR p) as Hsq.
    { apply sqrt_sqrt, IZR_le. apply (Hl (Prime p)). by left. }
    nra.
  - cbn [foldM common_step] in Hloop.
    destruct (LCoQI_init (square_literal x)) as [f| |] eqn:Hf;
      cbn [mbind outcome_bind] in Hloop; try done.
    apply square_literal_init_cases in Hf as [[_ ->]|(k & Hk & _ & ->)].
    { by destruct (Hl (Nested 1%Z) ltac:(by left)). }
    apply normalize_root_value in Hk as (Hx & Hkv & Hkex).
    apply IH in Hloop as (gs & -> & Hgs & Hval);
      [|intros f Hf; apply Hl; by right].
    exists ([(∅, Rational_of_int x); (k, 1%Qc)] :: gs).
    rewrite <- app_assoc. split; [done|]. split.
    + apply Forall_cons_2; [|done].
      apply Forall_cons_2; [intros f; set_solver|].
      apply Forall_cons_2; [done|apply Forall_nil_2].
    + cbn [foldr]. rewrite 2!eval_cons. cbn [fst snd eval foldr].
      rewrite key_value_empty, Hkv, Rational_to_R_of_int, Rational_to_R_1.
      change (factors_value (Nested x :: l))
        with (factor_value (Nested x) * factors_value l).
      pose proof (nested_square_value x Hx) as Hsq.
      transitivity ((IZR x + sqrt (IZR x))
                    * (Rational_to_R coef' * foldr (fun g r => eval g * r) 1 gs));
        [ring|]. rewrite Hval, <- Hsq. ring.
Qed.

Section with_mul.
Variable mul : lcoqi -> lcoqi -> outcome lcoqi.
Hypothesis mul_exact :
  forall a b r,
    exact_keys a -> exact_keys b -> mul a b = Ok r ->
    eval r = eval a * eval b /\ exact_keys r.

Lemma fold_mul_sound (gs : list lcoqi) :
  Forall exact_keys gs ->
  forall result r,
    exact_keys result ->
    foldM (fun result f => mul result f) gs result = Ok r ->
    eval r = eval result * foldr (fun g r => eval g * r) 1 gs /\ exact_keys r.
Proof.
  induction 1 as [|g gs Hg _ IH]; intros result r Hres Hloop.
  - injection Hloop as <-. split; [simpl; ring|done].
  - cbn [foldM] in Hloop.
    destruct (mul result g) as [r1| |] eqn:Hr1;
      cbn [mbind outcome_bind] in Hloop; try done.
    apply mul_exact in Hr1 as [Hval1 Hex1]; try done.
    apply IH in Hloop as [Hval Hex]; [|done].
    split; [|done]. rewrite Hval, Hval1. simpl. ring.
Qed.

Lemma exact_key_symmetric_difference (k1 k2 : key) :
  exact_key k1 -> exact_key k2 -> exact_key (symmetric_difference k1 k2).
Proof.
  intros H1 H2 f. unfold symmetric_difference.
  rewrite elem_of_union, !elem_of_difference.
  intros [[? _]|[? _]]; [by apply H1|by apply H2].
Qed.

Lemma mul_single_sound (t1 t2 : key * Rational) (r : lcoqi) :
  exact_key t1.1 -> exact_key t2.1 ->
  mul_single mul t1 t2 = Ok r ->
  eval r = term_value t1 * term_value t2 /\ exact_keys r.
Proof.
  destruct t1 as [k1 c1], t2 as [k2 c2]. cbn [fst snd]. intros Hk1 Hk2.
  unfold mul_single.
  destruct (foldM common_step (elements (k1 ∩ k2)) ((c1 * c2)%Qc, []))
    as [[coef fs]| |] eqn:Hloop; cbn [mbind outcome_bind]; try done.
  apply common_loop_sound in Hloop as (gs & -> & Hgs & Hval).
  - intros Hfold. apply fold_mul_sound in Hfold as [Heval Hex]; [|done|].
    + split; [|done]. rewrite Heval. unfold term_value. cbn [fst snd].
      change (LCoQI_of_keys [(symmetric_difference k1 k2, coef)])
        with [(symmetric_difference k1 k2, coef)].
      rewrite eval_cons. cbn [fst snd eval foldr].
      fold (key_value (k1 ∩ k2)) in Hval. rewrite Rational_to_R_mult in Hval.
      transitivity (Rational_to_R coef * foldr (fun g r => eval g * r) 1 gs
                    * key_value (symmetric_difference k1 k2)); [simpl; ring|].
      rewrite Hval.
      transitivity (Rational_to_R c1 * Rational_to_R c2
                    * (key_value k1 * key_value k2));
        [rewrite (key_value_mult k1 k2)|]; ring.
    + apply Forall_cons_2; [|apply Forall_nil_2].
      by apply exact_key_symmetric_difference.
  - intros f Hf%elem_of_elements. apply Hk1. set_solver.
Qed.

Lemma mul_general_sound (self other r : lcoqi) :
  exact_keys self -> exact_keys other ->
  mul_general mul self other = Ok r ->
  eval r = eval self * eval other /\ exact_keys r.
Proof.
  intros Hself Hother. unfold mul_general.
  assert (forall t1, exact_key t1.1 ->
            forall result r,
              NoDup result.*1 -> exact_keys result ->
              foldM (fun result t2 =>
                       p ← mul (LCoQI_of_keys [t1]) (LCoQI_of_keys [t2]);
                       Ok (LCoQI_add result p)) other result = Ok r ->
              eval r = eval result + term_value t1 * eval other
              /\ exact_keys r /\ NoDup r.*1) as Hinner.
  { intros t1 Ht1. induction Hother as [|t2 other Ht2 _ IH];
      intros result r' Hnd Hres Hloop.
    - injection Hloop as <-. split; [simpl; ring|done].
    - cbn [foldM] in Hloop.
      destruct (mul (LCoQI_of_keys [t1]) (LCoQI_of_keys [t2])) as [p| |] eqn:Hp;
        cbn [mbind outcome_bind] in Hloop; try done.
      apply mul_exact in Hp as [Hpval Hpex];
        [|by apply Forall_cons_2; [|apply Forall_nil_2]..].
      apply IH in Hloop as (Hval & Hex & Hnd');
        [|apply merge_NoDup|by apply (merge_keys exact_key)].
      split; [|done]. rewrite Hval, eval_add, Hpval by done.
      unfold term_value. simpl. ring. }
  assert (forall result r,
            NoDup result.*1 -> exact_keys result ->
            foldM (fun result t1 =>
                     foldM (fun result t2 =>
                              p ← mul (LCoQI_of_keys [t1]) (LCoQI_of_keys [t2]);
                              Ok (LCoQI_add result p)) other result)
                  self result = Ok r ->
            eval r = eval result + eval self * eval other /\ exact_keys r)
    as Houter.
  { induction Hself as [|t1 self Ht1 _ IH]; intros result r' Hnd Hres Hloop.
    - injection Hloop as <-. split; [simpl; ring|done].
    - cbn [foldM] in Hloop.
      destruct (foldM _ other result) as [r1| |] eqn:Hr1;
        cbn [mbind outcome_bind] in Hloop; try done.
      apply Hinner in Hr1 as (Hval1 & Hex1 & Hnd1); try done.
      apply IH in Hloop as [Hval Hex]; try done.
      split; [|done]. rewrite Hval, Hval1. unfold term_value. simpl. ring. }
  intros Hloop. apply Houter in Hloop as [Hval Hex]; [|constructor|constructor].
  split; [|done]. rewrite Hval. simpl. ring.
Qed.
End with_mul.

Lemma mul_fuel_sound (fuel : nat) :
  forall a b r,
    exact_keys a -> exact_keys b -> mul_fuel fuel a b = Ok r ->
    eval r = eval a * eval b /\ exact_keys r.
Proof.
  induction fuel as [|fuel IH]; intros a b r Ha Hb; [done|].
  change (mul_fuel (Datatypes.S fuel) a b) with
    (match a, b with
     | [t1], [t2] => mul_single (mul_fuel fuel) t1 t2
     | _, _ => mul_general (mul_fuel fuel) a b
     end).
  pose proof (mul_general_sound (mul_fuel fuel) IH a b r Ha Hb) as Hgen.
  destruct a as [|t1 [|t1' a]]; try exact Hgen.
  destruct b as [|t2 [|t2' b]]; try exact Hgen.
  intros Hr. apply (mul_single_sound (mul_fuel fuel) IH) in Hr as [Hval Hex].
  - split; [|done]. rewrite Hval. unfold term_value. simpl. ring.
  - by apply Forall_cons in Ha as [? _].
  - by apply Forall_cons in Hb as [? _].
Qed.
End mul_soundness.

(** X19: multiplication is sound on nested radicals too. When no integer
    radicand of the operands is negative and no factor is the nested radical
    of 1, a product that [__mul__] returns stands for the product of the two
    real numbers, and its keys satisfy the same condition. *)
Theorem mul_sound (a b r : lcoqi) :
  exact_keys a -> exact_keys b -> LCoQI_mul a b = Ok r ->
  eval r = (eval a * eval b)%R /\ exact_keys r.
Proof. apply mul_fuel_sound. Qed.

Lemma mul_sound_witness :
  let a : lcoqi := [(∅, 1%Qc); ({[Nested 2]}, 1%Qc)] in
  exists r, LCoQI_mul a a = Ok r /\ eval r = (eval a * eval a)%R.
Proof.
  intros a.
  assert (exact_keys a) as Ha.
  { apply Forall_cons_2; [intros f; set_solver|].
    apply Forall_cons_2; [|apply Forall_nil_2].
    intros f Hf. simpl in Hf. apply elem_of_singleton in Hf as ->. lia. }
  assert (exists r, LCoQI_mul a a = Ok r) as [r Hr] by (vm_compute; by eexists).
  exists r. split; [exact Hr|]. exact (proj1 (mul_sound a a r Ha Ha Hr)).
Defined.

(** ** Soundness of inversion, division and powers *)

Section inverse_soundness.
Local Open Scope R_scope.

Lemma exact_keys_unit : exact_keys unit.
Proof. apply Forall_cons_2; [intros f; set_solver|apply Forall_nil_2]. Qed.

Lemma complement_of_exact (root : factor) (v : lcoqi) :
  exact_keys v -> exact_keys (complement_of root v).
Proof.
  intros Hv. unfold complement_of, LCoQI_of_keys.
  apply (dict_of_items_Forall (fun rc : key * Rational => exact_key rc.1)).
  apply Forall_fmap. eapply Forall_impl; [exact Hv|]. by intros [k c].
Qed.

Lemma conjugate_loop_sound (l : list factor) :
  forall num den num' den',
    exact_keys num -> exact_keys den ->
    foldM conjugate_step l (num, den) = Ok (num', den') ->
    (exists m, eval num' = eval num * m /\ eval den' = eval den * m)
    /\ exact_keys num' /\ exact_keys den'.
Proof.
  induction l as [|root l IH]; intros num den num' den' Hnum Hden Hloop.
  - injection Hloop as <- <-. split; [|done]. exists 1. split; ring.
  - cbn [foldM] in Hloop.
    change (conjugate_step (num, den) root) with
      (denominator' ← LCoQI_mul den (complement_of root den);
       numerator' ← LCoQI_mul num (complement_of root den);
       Ok (numerator', denominator')) in Hloop.
    pose proof (complement_of_exact root den Hden) as Hc.
    destruct (LCoQI_mul den (complement_of root den)) as [den1| |] eqn:Hden1;
      cbn [mbind outcome_bind] in Hloop; try done.
    destruct (LCoQI_mul num (complement_of root den)) as [num1| |] eqn:Hnum1;
      cbn [mbind outcome_bind] in Hloop; try done.
    apply (mul_fuel_sound 4) in Hden1 as [Hdval Hdex]; try done.
    apply (mul_fuel_sound 4) in Hnum1 as [Hnval Hnex]; try done.
    apply IH in Hloop as ((m & Hn & Hd) & Hnum' & Hden'); try done.
    split; [|done]. exists (eval (complement_of root den) * m).
    rewrite Hn, Hd, Hnval, Hdval. split; ring.
Qed.

Lemma inverse_fuel_sound (fuel : nat) :
  forall a r,
    exact_keys a -> inverse fuel a = Ok r ->
    eval r * eval a = 1 /\ exact_keys r.
Proof.
  induction fuel as [|fuel IH]; intros a r Ha; [done|].
  rewrite inverse_S. destruct (rational_coefficient a) as [coef|] eqn:Hcoef.
  - assert (a = [(∅, coef)]) as ->.
    { destruct a as [|[k c] [|? ?]]; try done. simpl in Hcoef.
      case_decide; [|done]. by simplify_eq. }
    unfold Rational_truediv. case_decide as Hc; [done|].
    cbn [mbind outcome_bind]. intros Hr.
    assert (r = [(∅, (1 / coef)%Qc)]) as ->.
    { pose proof (inverse_rational 0 coef Hc) as Hinv.
      rewrite inverse_S in Hinv. cbn [rational_coefficient] in Hinv.
      rewrite decide_True in Hinv by done. unfold Rational_truediv in Hinv.
      rewrite decide_False in Hinv by done. cbn [mbind outcome_bind] in Hinv.
      congruence. }
    split; [|apply Forall_cons_2; [intros f; set_solver|apply Forall_nil_2]].
    rewrite !eval_cons. cbn [fst snd eval foldr].
    rewrite key_value_empty, Rational_to_R_inv by done.
    pose proof (Rational_to_R_nonzero coef Hc). by field.
  - destruct (reduce_union a.*1) as [roots| |];
      cbn [mbind outcome_bind]; try done.
    destruct (foldM conjugate_step (elements roots) (unit, a))
      as [[num den]| |] eqn:Hloop; cbn [mbind outcome_bind]; try done.
    apply conjugate_loop_sound in Hloop as ((m & Hn & Hd) & Hnum & Hden);
      [|apply exact_keys_unit|done].
    destruct (inverse fuel den) as [inv| |] eqn:Hinv;
      cbn [mbind outcome_bind]; try done.
    apply IH in Hinv as [Hival Hiex]; [|done].
    intros Hr. apply (mul_fuel_sound 4) in Hr as [Hval Hex]; try done.
    split; [|done]. rewrite Hval, Hn, eval_unit.
    rewrite Hd in Hival. transitivity (eval inv * (eval a * m)); [ring|done].
Qed.

Lemma pow_loop_sound (n : positive) :
  forall result factor r,
    exact_keys result -> exact_keys factor ->
    pow_loop n result factor = Ok r ->
    eval r = eval result * eval factor ^ Pos.to_nat n /\ exact_keys r.
Proof.
  induction n as [n IH|n IH|]; intros result factor r Hres Hfac; cbn [pow_loop].
  - destruct (LCoQI_mul result factor) as [result'| |] eqn:Hr;
      cbn [mbind outcome_bind]; try done.
    destruct (LCoQI_mul factor factor) as [factor'| |] eqn:Hf;
      cbn [mbind outcome_bind]; try done.
    apply (mul_fuel_sound 4) in Hr as [Hrval Hrex]; try done.
    apply (mul_fuel_sound 4) in Hf as [Hfval Hfex]; try done.
    intros Hloop. apply IH in Hloop as [Hval Hex]; try done.
    split; [|done].
    rewrite Hval, Hrval, Hfval, Pos2Nat.inj_xI, <- pow_sqr. simpl. ring.
  - destruct (LCoQI_mul factor factor) as [factor'| |] eqn:Hf;
      cbn [mbind outcome_bind]; try done.
    apply (mul_fuel_sound 4) in Hf as [Hfval Hfex]; try done.
    intros Hloop. apply IH in Hloop as [Hval Hex]; try done.
    split; [|done]. by rewrite Hval, Hfval, Pos2Nat.inj_xO, <- pow_sqr.
  - destruct (LCoQI_mul result factor) as [result'| |] eqn:Hr;
      cbn [mbind outcome_bind]; try done.
    destruct (LCoQI_mul factor factor) as [factor'| |] eqn:Hf;
      cbn [mbind outcome_bind]; try done.
    apply (mul_fuel_sound 4) in Hr as [Hrval Hrex]; try done.
    intros [= <-]. split; [|done]. rewrite Hrval. simpl. ring.
Qed.
End inverse_soundness.

(** X20: inversion and division are sound on nested radicals too. When no
    integer radicand is negative and no factor is the nested radical of 1,
    a value that [inverse] returns is the reciprocal of the number inverted,
    and a value that [__truediv__] returns, multiplied by the divisor, gives
    the dividend. *)
Theorem inverse_sound (fuel : nat) (a b r : lcoqi) :
  exact_keys a -> exact_keys b ->
  (inverse fuel a = Ok r -> (eval r * eval a)%R = 1%R /\ exact_keys r)
  /\ (LCoQI_truediv fuel a b = Ok r ->
      (eval r * eval b)%R = eval a /\ exact_keys r).
Proof.
  intros Ha Hb. split; [by apply inverse_fuel_sound|].
  unfold LCoQI_truediv.
  destruct (inverse fuel b) as [inv| |] eqn:Hinv;
    cbn [mbind outcome_bind]; try done.
  apply inverse_fuel_sound in Hinv as [Hival Hiex]; [|done].
  intros Hr. apply (mul_fuel_sound 4) in Hr as [Hval Hex]; try done.
  split; [|done]. rewrite Hval, Rmult_assoc, Hival. apply Rmult_1_r.
Qed.

Lemma inverse_sound_witness :
  let a : lcoqi := [({[Nested 2]}, 1%Qc)] in
  exists r, inverse 3 a = Ok r /\ (eval r * eval a)%R = 1%R.
Proof.
  intros a.
  assert (exact_keys a) as Ha.
  { apply Forall_cons_2; [|apply Forall_nil_2].
    intros f Hf. simpl in Hf. apply elem_of_singleton in Hf as ->. lia. }
  assert (exists r, inverse 3 a = Ok r) as [r Hr] by (vm_compute; by eexists).
  exists r. split; [exact Hr|].
  exact (proj1 (proj1 (inverse_sound 3 a a r Ha Ha) Hr)).
Defined.

(** X21: integer powers are sound on nested radicals too. When no integer
    radicand is negative and no factor is the nested radical of 1, a value
    that [a ** n] returns stands for the [n]-th power of the number [a]
    stands for. *)
Theorem pow_sound (fuel : nat) (a r : lcoqi) (n : Z) :
  exact_keys a -> LCoQI_pow fuel a n = Ok r ->
  eval r = powerRZ (eval a) n /\ exact_keys r.
Proof.
  intros Ha. unfold LCoQI_pow.
  destruct n as [|n|n];
    [change (Z.abs 0) with 0%Z|change (Z.abs (Z.pos n)) with (Z.pos n)
    |change (Z.abs (Z.neg n)) with (Z.pos n)]; cbv iota.
  - cbn [mbind outcome_bind]. case_decide; [|lia]. intros [= <-].
    split; [by rewrite eval_unit|apply exact_keys_unit].
  - destruct (pow_loop n unit a) as [result| |] eqn:Hloop;
      cbn [mbind outcome_bind]; try done.
    case_decide; [|lia]. intros [= <-].
    apply pow_loop_sound in Hloop as [Hval Hex]; [|apply exact_keys_unit|done].
    split; [|done]. rewrite Hval, eval_unit. simpl. ring.
  - destruct (pow_loop n unit a) as [result| |] eqn:Hloop;
      cbn [mbind outcome_bind]; try done.
    case_decide; [lia|]. intros Hinv.
    apply pow_loop_sound in Hloop as [Hval Hex]; [|apply exact_keys_unit|done].
    apply inverse_fuel_sound in Hinv as [Hival Hiex]; [|done].
    split; [|done]. rewrite eval_unit, Rmult_1_l in Hval. simpl.
    rewrite <- Hval. apply Rmult_eq_reg_r with (r := eval result).
    + rewrite Hival. rewrite Rinv_l; [done|]. intros H0. rewrite H0 in Hival.
      rewrite Rmult_0_r in Hival. lra.
    + intros H0. rewrite H0 in Hival. rewrite Rmult_0_r in Hival. lra.
Qed.

Lemma pow_sound_witness :
  let a : lcoqi := [({[Nested 2]}, 1%Qc)] in
  exists r, LCoQI_pow 3 a (-2) = Ok r /\ eval r = powerRZ (eval a) (-2).
Proof.
  intros a.
  assert (exact_keys a) as Ha.
  { apply Forall_cons_2; [|apply Forall_nil_2].
    intros f Hf. simpl in Hf. apply elem_of_singleton in Hf as ->. lia. }
  assert (exists r, LCoQI_pow 3 a (-2) = Ok r) as [r Hr]
    by (vm_compute; by eexists).
  exists r. split; [exact Hr|]. exact (proj1 (pow_sound 3 a r (-2) Ha Hr)).
Defined.

(** ** Soundness of the constructor *)

Lemma normalize_root_raw_value (r : raw_root) (k : key) :
  normalize_root r = Ok k -> key_value k = raw_value r.
Proof.
  destruct r as [n|x|s].
  - by intros (_ & ? & _)%normalize_root_value.
  - intros [= <-]. apply key_value_singleton.
  - by intros [= <-].
Qed.

(** X22: the constructor is sound. Distinct integers never normalize to the
    same basis key, and when no two keys of the argument normalize to the
    same basis key, the value constructed stands for the sum of the
    coefficients times the radicals their keys specify. *)
Theorem constructor_sound (coeffs : list (raw_root * Rational)) (v : lcoqi) :
  LCoQI_init coeffs = Ok v ->
  (forall i j r1 r2 k,
      coeffs.*1 !! i = Some r1 -> coeffs.*1 !! j = Some r2 ->
      normalize_root r1 = Ok k -> normalize_root r2 = Ok k -> i = j) ->
  eval v
  = foldr (fun rc r => (Rational_to_R rc.2 * raw_value rc.1 + r)%R) 0%R coeffs
  /\ (forall n m k,
        normalize_root (RInt n) = Ok k -> normalize_root (RInt m) = Ok k ->
        n = m).
Proof.
  intros Hinit Hdistinct. split.
  - unfold LCoQI_init in Hinit.
    destruct (mapM _ coeffs) as [items| |] eqn:Hitems;
      cbn [mbind outcome_bind] in Hinit; try done.
    injection Hinit as <-. apply mapM_Ok in Hitems.
    assert (NoDup items.*1) as Hnd.
    { apply NoDup_alt. intros i j k Hi Hj.
      rewrite list_lookup_fmap in Hi, Hj.
      destruct (items !! i) as [[ki ci]|] eqn:Hii; [|done].
      destruct (items !! j) as [[kj cj]|] eqn:Hjj; [|done].
      simpl in Hi, Hj. injection Hi as ->. injection Hj as ->.
      destruct (Forall2_lookup_r _ _ _ _ _ Hitems Hii) as ([ri ci'] & Hci & Hri).
      destruct (Forall2_lookup_r _ _ _ _ _ Hitems Hjj) as ([rj cj'] & Hcj & Hrj).
      simpl in Hri, Hrj.
      destruct (normalize_root ri) as [ki'| |] eqn:Hki; simpl in Hri; try done.
      destruct (normalize_root rj) as [kj'| |] eqn:Hkj; simpl in Hrj; try done.
      injection Hri as -> ->. injection Hrj as -> ->.
      apply (Hdistinct i j ri rj k); try done.
      - by rewrite list_lookup_fmap, Hci.
      - by rewrite list_lookup_fmap, Hcj. }
    rewrite dict_of_items_id by done. clear Hnd Hdistinct.
    induction Hitems as [|[r c] [k c'] coeffs items Hrc _ IH]; [done|].
    simpl in Hrc. destruct (normalize_root r) as [k'| |] eqn:Hk; simpl in Hrc;
      try done.
    injection Hrc as -> ->. rewrite eval_cons. cbn [foldr fst snd].
    by rewrite IH, (normalize_root_raw_value r k).
  - intros n m k (Hn & Hvn & _)%normalize_root_value
      (Hm & Hvm & _)%normalize_root_value.
    apply eq_IZR, sqrt_inj; [by apply IZR_le|by apply IZR_le|congruence].
Qed.

Lemma constructor_sound_witness :
  exists v,
    LCoQI_init [(RInt 6, 1%Qc); (RNested 2, 1%Qc)] = Ok v
    /\ eval v
       = (Rational_to_R 1 * sqrt (IZR 6)
          + (Rational_to_R 1 * sqrt (IZR 2 + sqrt (IZR 2)) + 0))%R.
Proof.
  exists [({[Prime 2; Prime 3]}, 1%Qc); ({[Nested 2]}, 1%Qc)].
  assert (LCoQI_init [(RInt 6, 1%Qc); (RNested 2, 1%Qc)]
          = Ok [({[Prime 2; Prime 3]}, 1%Qc); ({[Nested 2]}, 1%Qc)]) as Hinit.
  { vm_compute. f_equal. }
  split; [exact Hinit|].
  apply (constructor_sound _ _ Hinit).
  intros [|[|i]] [|[|j]] r1 r2 k; simpl; try done.
  - intros [= <-] [= <-] H1 H2. exfalso. vm_compute in H1. simplify_eq.
  - intros [= <-] [= <-] H1 H2. exfalso. vm_compute in H2. simplify_eq.
Defined.

(** ** The exceptions of inversion, division and powers *)

Lemma conjugate_loop_settles (l : list factor) (st : lcoqi * lcoqi) :
  settles (foldM conjugate_step l st).
Proof.
  apply foldM_settles. intros [num den] root.
  change (conjugate_step (num, den) root) with
    (denominator' ← LCoQI_mul den (complement_of root den);
     numerator' ← LCoQI_mul num (complement_of root den);
     Ok (numerator', denominator')).
  destruct (LCoQI_mul_settles den (complement_of root den)) as [[d ->]| ->];
    cbn [mbind outcome_bind]; [|by right].
  destruct (LCoQI_mul_settles num (complement_of root den)) as [[n ->]| ->];
    cbn [mbind outcome_bind]; [left; by eexists|by right].
Qed.

Lemma pow_loop_settles (n : positive) :
  forall result factor, settles (pow_loop n result factor).
Proof.
  induction n as [n IH|n IH|]; intros result factor; cbn [pow_loop].
  - destruct (LCoQI_mul_settles result factor) as [[r ->]| ->];
      cbn [mbind outcome_bind]; [|by right].
    destruct (LCoQI_mul_settles factor factor) as [[f ->]| ->];
      cbn [mbind outcome_bind]; [apply IH|by right].
  - destruct (LCoQI_mul_settles factor factor) as [[f ->]| ->];
      cbn [mbind outcome_bind]; [apply IH|by right].
  - destruct (LCoQI_mul_settles result factor) as [[r ->]| ->];
      cbn [mbind outcome_bind]; [|by right].
    destruct (LCoQI_mul_settles factor factor) as [[f ->]| ->];
      cbn [mbind outcome_bind]; [left; by eexists|by right].
Qed.

Lemma inverse_raise (fuel : nat) :
  forall a e,
    well_formed a -> inverse fuel a = Raise e ->
    e = ValueError \/ e = TypeError.
Proof.
  induction fuel as [|fuel IH]; intros a e Ha; [done|]. rewrite inverse_S.
  destruct (rational_coefficient a) as [coef|] eqn:Hrat.
  - assert (coef <> 0%Qc) as Hcoef.
    { destruct a as [|[k c] [|? ?]]; try done. simpl in Hrat.
      case_decide; [|done]. injection Hrat as <-.
      by apply Forall_singleton in Ha as [? _]. }
    unfold Rational_truediv. by rewrite decide_False by done.
  - destruct (reduce_union a.*1) as [roots|e'|] eqn:Hroots;
      cbn [mbind outcome_bind]; [| |done].
    + destruct (conjugate_loop_settles (elements roots) (unit, a))
        as [[[num den] Hloop]|Hloop]; rewrite Hloop; cbn [mbind outcome_bind];
        [|intros [= <-]; by left].
      apply conjugate_loop_well_formed in Hloop as [Hnum Hden];
        [|apply unit_well_formed|done].
      destruct (inverse fuel den) as [inv|e'|] eqn:Hinv;
        cbn [mbind outcome_bind]; try done.
      * destruct (LCoQI_mul_settles num inv) as [[r ->]| ->]; [done|].
        intros [= <-]. by left.
      * intros [= <-]. by apply (IH den).
    + destruct a as [|t a]; simpl in Hroots; [|done].
      injection Hroots as <-. intros [= <-]. by right.
Qed.

(** X23: on values without zero coefficient whose factors have positive
    arguments, inversion, division and integer powers raise nothing but
    [ValueError] and [TypeError]; [ZeroDivisionError] needs a stored zero
    coefficient, as in [LCoQI({1: 0}).inverse()]. *)
Theorem inverse_exceptions (fuel : nat) (a b : lcoqi) (n : Z) (e : exn) :
  well_formed a -> well_formed b ->
  (inverse fuel a = Raise e -> e = ValueError \/ e = TypeError)
  /\ (LCoQI_truediv fuel a b = Raise e -> e = ValueError \/ e = TypeError)
  /\ (LCoQI_pow fuel a n = Raise e -> e = ValueError \/ e = TypeError)
  /\ inverse (Datatypes.S fuel) [(∅, 0%Qc)] = Raise ZeroDivisionError.
Proof.
  intros Ha Hb. split; [by apply inverse_raise|]. split; [|split; [|done]].
  - unfold LCoQI_truediv.
    destruct (inverse fuel b) as [inv|e'|] eqn:Hinv;
      cbn [mbind outcome_bind]; try done.
    + destruct (LCoQI_mul_settles a inv) as [[r ->]| ->]; [done|].
      intros [= <-]. by left.
    + intros [= <-]. by apply (inverse_raise fuel b).
  - unfold LCoQI_pow.
    assert (forall k, settles (pow_loop k unit a)
                      /\ forall r, pow_loop k unit a = Ok r -> well_formed r)
      as Hloop.
    { intros k. split; [apply pow_loop_settles|]. intros r.
      by apply pow_loop_well_formed; [apply unit_well_formed|]. }
    destruct (Z.abs n) as [|k|k].
    + cbn [mbind outcome_bind]. case_decide; [done|].
      apply inverse_raise, unit_well_formed.
    + destruct (Hloop k) as [[[r Hr]|Hr] Hwf]; rewrite Hr;
        cbn [mbind outcome_bind]; [|intros [= <-]; by left].
      case_decide; [done|]. by apply inverse_raise, Hwf.
    + cbn [mbind outcome_bind]. case_decide; [done|].
      apply inverse_raise, unit_well_formed.
Qed.

Lemma inverse_exceptions_witness :
  inverse 2 [(∅, 1%Qc); ({[Nested 4]}, 1%Qc)] = Raise ValueError
  /\ (ValueError = ValueError \/ ValueError = TypeError).
Proof.
  assert (well_formed [(∅, 1%Qc); ({[Nested 4]}, 1%Qc)]) as Ha.
  { apply Forall_cons_2; [split; [done|intros f; set_solver]|].
    apply Forall_cons_2; [|apply Forall_nil_2]. split; [done|].
    intros f Hf. simpl in Hf. apply elem_of_singleton in Hf as ->. simpl. lia. }
  assert (inverse 2 [(∅, 1%Qc); ({[Nested 4]}, 1%Qc)] = Raise ValueError) as Hinv
    by (by vm_compute).
  split; [exact Hinv|].
  exact (proj1 (inverse_exceptions 2 _ _ 0 ValueError Ha Ha) Hinv).
Defined.
